(** * A shallow embedding of [group_theory/group.py]

    The Python module defines three classes: [Group] (an explicit list of
    element labels, a binary operation and a lazily cached identity label),
    its subclass [NamedGroup] (which adds a [name] attribute) and
    [GroupElement] (a label paired with a reference to its group).

    The embedding keeps what the Python code has:
    - labels are dynamically typed Python values (here: [None], integers and
      tuples of such values), compared with Python's [==];
    - an operation is a callable that may raise, so it returns a result in
      [res];
    - [Group] objects live in a store and are named by references, because
      [identity()] writes the cache attribute [_identity_value] of an object
      that several [GroupElement]s share;
    - methods are computations in a state-and-exception monad [M]. *)

From Stdlib Require Import ZArith List Bool Lia DecimalString.
From stdpp Require Import base tactics option list strings.
Import ListNotations.

Local Open Scope Z_scope.
Local Open Scope string_scope.
Local Open Scope list_scope.

(** ** Python values *)

#[local] Unset Elimination Schemes.
Inductive value : Type :=
| VNone
| VInt (n : Z)
| VTuple (items : list value).
#[local] Set Elimination Schemes.

(** Python's [==] on [None], [int] and [tuple]: tuples compare by length and
    item by item. *)
Fixpoint value_eqb (a b : value) {struct a} : bool :=
  match a, b with
  | VNone, VNone => true
  | VInt x, VInt y => Z.eqb x y
  | VTuple xs, VTuple ys =>
      (fix items_eqb (xs ys : list value) {struct xs} : bool :=
         match xs, ys with
         | [], [] => true
         | x :: xs', y :: ys' => value_eqb x y && items_eqb xs' ys'
         | _, _ => false
         end) xs ys
  | _, _ => false
  end.

Definition items_eqb : list value -> list value -> bool :=
  fix items_eqb (xs ys : list value) {struct xs} : bool :=
    match xs, ys with
    | [], [] => true
    | x :: xs', y :: ys' => value_eqb x y && items_eqb xs' ys'
    | _, _ => false
    end.

(** [str(v)], as used by the f-string of [Group.inverse]. *)
Definition str_int (n : Z) : string := NilZero.string_of_int (Z.to_int n).

Fixpoint py_str (v : value) : string :=
  match v with
  | VNone => "None"
  | VInt n => str_int n
  | VTuple items =>
      "(" ++ String.concat ", " (map py_str items)
          ++ match items with
             | [_] => ",)"
             | _ => ")"
             end
  end.

(** ** Exceptions and results *)

Inductive exn : Type :=
| TypeError
| IndexError
| AttributeError (attr : string)
| ValueError (msg : string)
| DanglingReference.   (* a reference outside the store: no Python program
                          has one; kept so that store lookup is total *)

Inductive res (A : Type) : Type :=
| Ok (a : A)
| Raise (e : exn).
Arguments Ok {A} a.
Arguments Raise {A} e.

Definition res_bind {A B} (r : res A) (k : A -> res B) : res B :=
  match r with
  | Ok a => k a
  | Raise e => Raise e
  end.

Declare Scope res_scope.
Delimit Scope res_scope with res.
Notation "x '<~' r ';;' k" := (res_bind r (fun x => k))
  (at level 100, r at next level, right associativity) : res_scope.
Local Open Scope res_scope.

(** [a[i]] for a non-negative index. *)
Definition subscript (a : value) (i : nat) : res value :=
  match a with
  | VTuple items =>
      match items !! i with
      | Some v => Ok v
      | None => Raise IndexError
      end
  | _ => Raise TypeError
  end.

(** [(x, y) = a]: unpacking into exactly two targets. *)
Definition unpack2 (a : value) : res (value * value) :=
  match a with
  | VTuple [x; y] => Ok (x, y)
  | VTuple [] =>
      Raise (ValueError "not enough values to unpack (expected 2, got 0)")
  | VTuple [_] =>
      Raise (ValueError "not enough values to unpack (expected 2, got 1)")
  | VTuple _ => Raise (ValueError "too many values to unpack (expected 2)")
  | _ => Raise TypeError
  end.

(** ** Objects and the store *)

Definition operation_t : Type := value -> value -> res value.

(** The attribute [name]: plain [Group] objects do not have it; a
    [NamedGroup] has it, holding [None] or a string. *)
Inductive name_attr : Type :=
| NoAttr
| Attr (v : option string).

Record GroupObj : Type := mkGroupObj {
  element_values : list value;
  _operation : operation_t;
  _identity_value : value;          (* [VNone] when unset *)
  name : name_attr
}.

(** References are positions in the store. *)
Abbreviation ref := nat (only parsing).
Abbreviation store := (list GroupObj) (only parsing).

Record GroupElement : Type := mkGroupElement {
  element : value;
  group : ref
}.

(** What can stand on the right of [==]. *)
Inductive pyobj : Type :=
| OValue (v : value)
| OGroup (g : ref)
| OElement (e : GroupElement).

(** ** The monad of methods: state and exceptions *)

Definition M (A : Type) : Type := store -> res A * store.

Definition ret {A} (a : A) : M A := fun s => (Ok a, s).
Definition raise {A} (e : exn) : M A := fun s => (Raise e, s).
Definition bind {A B} (m : M A) (k : A -> M B) : M B :=
  fun s =>
    match m s with
    | (Ok a, s') => k a s'
    | (Raise e, s') => (Raise e, s')
    end.
Definition lift {A} (r : res A) : M A := fun s => (r, s).

Declare Scope py_scope.
Delimit Scope py_scope with py.
Notation "x '<-' m ';;' k" := (bind m (fun x => k))
  (at level 100, m at next level, right associativity) : py_scope.
Local Open Scope py_scope.

Definition deref (g : ref) : M GroupObj :=
  fun s =>
    match s !! g with
    | Some G => (Ok G, s)
    | None => (Raise DanglingReference, s)
    end.

(** [cls(element_values, operation, identity_value[, name])]. *)
Definition new_object (G : GroupObj) : M ref :=
  fun s => (Ok (length s), s ++ [G]).

Definition set_identity_value (G : GroupObj) (v : value) : GroupObj :=
  mkGroupObj (element_values G) (_operation G) v (name G).

(** [self._identity_value = v]. *)
Definition write_identity_value (g : ref) (v : value) : M unit :=
  fun s =>
    match s !! g with
    | Some G => (Ok tt, <[g := set_identity_value G v]> s)
    | None => (Raise DanglingReference, s)
    end.

(** [all(f(x) for x in xs)]: stops at the first [False]; an exception raised
    by [f] propagates. *)
Fixpoint all_m {A} (f : A -> M bool) (xs : list A) : M bool :=
  match xs with
  | [] => ret true
  | x :: xs' => b <- f x ;; if b then all_m f xs' else ret false
  end.

(** [tuple(f(x) for x in xs)] and list comprehensions with effects. *)
Fixpoint map_m {A B} (f : A -> M B) (xs : list A) : M (list B) :=
  match xs with
  | [] => ret []
  | x :: xs' => y <- f x ;; ys <- map_m f xs' ;; ret (y :: ys)
  end.

(** [v is None]. *)
Definition is_None (v : value) : bool :=
  match v with
  | VNone => true
  | _ => false
  end.

(** [set(xs) == set(ys)]: every label of one list occurs in the other. *)
Definition set_eqb (xs ys : list value) : bool :=
  forallb (fun x => existsb (value_eqb x) ys) xs
  && forallb (fun y => existsb (value_eqb y) xs) ys.

(** The result of an [__eq__] method. *)
Inductive cmp : Type :=
| NotImplemented
| Result (b : bool).

Inductive class : Type :=
| CGroup
| CNamedGroup.

(** [type(G)]: the objects with an attribute [name] are the instances of
    [NamedGroup]. *)
Definition class_of (G : GroupObj) : class :=
  match name G with
  | NoAttr => CGroup
  | Attr _ => CNamedGroup
  end.

(** [c] is a subclass of [d], and not [d] itself. *)
Definition proper_subclass (c d : class) : bool :=
  match c, d with
  | CNamedGroup, CGroup => true
  | _, _ => false
  end.

(** ** class Group *)

Module Group.

(** [__init__], reached through [cls(...)]: a [NamedGroup] built with
    three positional arguments gets [name = None]. *)
Definition __init__ (cls : class) (element_values : list value)
    (operation : operation_t) (identity_value : value) : M ref :=
  new_object (mkGroupObj element_values operation identity_value
                match cls with
                | CGroup => NoAttr
                | CNamedGroup => Attr None
                end).

Definition operation (self : ref) (a b : value) : M value :=
  G <- deref self ;; lift (_operation G a b).

(** The two nested loops of [__eq__]; [true] stands for falling through
    to [return True]. *)
Definition operations_agree (self other : ref) : M bool :=
  G <- deref self ;;
  all_m (fun a =>
    all_m (fun b =>
      G1 <- deref self ;;
      r1 <- lift (_operation G1 a b) ;;
      G2 <- deref other ;;
      r2 <- lift (_operation G2 a b) ;;
      ret (value_eqb r1 r2)) (element_values G)) (element_values G).

Definition __eq__ (self : ref) (other : pyobj) : M cmp :=
  match other with
  | OGroup o =>
      G1 <- deref self ;;
      G2 <- deref o ;;
      if negb (set_eqb (element_values G1) (element_values G2))
         || negb (value_eqb (_identity_value G1) (_identity_value G2))
      then ret (Result false)
      else b <- operations_agree self o ;; ret (Result b)
  | _ => ret NotImplemented
  end.

Definition elements (self : ref) : M (list GroupElement) :=
  G <- deref self ;;
  ret (map (fun e => mkGroupElement e self) (element_values G)).

(** The test of the [if] inside the loop of [identity]. *)
Definition is_two_sided_identity (self : ref) (e : value) : M bool :=
  G <- deref self ;;
  all_m (fun x =>
    ex <- operation self e x ;;
    if value_eqb ex x
    then xe <- operation self x e ;; ret (value_eqb xe x)
    else ret false) (element_values G).

(** [for e in self.element_values: if all(...): ...; break]. *)
Fixpoint identity_search (self : ref) (candidates : list value) : M unit :=
  match candidates with
  | [] => ret tt
  | e :: rest =>
      found <- is_two_sided_identity self e ;;
      if found then write_identity_value self e
      else identity_search self rest
  end.

Definition identity (self : ref) : M GroupElement :=
  G <- deref self ;;
  _ <- (if is_None (_identity_value G)
        then identity_search self (element_values G)
        else ret tt) ;;
  G' <- deref self ;;
  ret (mkGroupElement (_identity_value G') self).

Fixpoint inverse_search (self : ref) (a : value) (xs : list value)
    : M GroupElement :=
  match xs with
  | [] => raise (ValueError ("Inverse not found for " ++ py_str a))
  | x :: xs' =>
      ax <- operation self a x ;;
      i1 <- identity self ;;
      if value_eqb ax (element i1)
      then
        xa <- operation self x a ;;
        i2 <- identity self ;;
        if value_eqb xa (element i2)
        then ret (mkGroupElement x self)
        else inverse_search self a xs'
      else inverse_search self a xs'
  end.

Definition inverse (self : ref) (a : value) : M GroupElement :=
  G <- deref self ;; inverse_search self a (element_values G).

Definition order (self : ref) : M nat :=
  G <- deref self ;; ret (length (element_values G)).

Definition is_abelian (self : ref) : M bool :=
  G <- deref self ;;
  all_m (fun a =>
    all_m (fun b =>
      ab <- operation self a b ;;
      ba <- operation self b a ;;
      ret (value_eqb ab ba)) (element_values G)) (element_values G).

(** The local generator [cartesian_product] of [direct_product], listed. *)
Fixpoint cartesian_product (iterables : list (list value))
    : list (list value) :=
  match iterables with
  | [] => [[]]
  | first :: others =>
      flat_map (fun item => map (cons item) (cartesian_product others))
               first
  end.

(** [group._operation(a[i], b[i]) for i, group in enumerate(groups)],
    from index [i] on. *)
Fixpoint componentwise (ops : list operation_t) (i : nat) (a b : value)
    : res (list value) :=
  match ops with
  | [] => Ok []
  | op :: ops' =>
      ai <~ subscript a i ;;
      bi <~ subscript b i ;;
      c <~ op ai bi ;;
      cs <~ componentwise ops' (S i) a b ;;
      Ok (c :: cs)
  end.

(** The closure [operation] of [direct_product].  It reads the attribute
    [_operation] of each factor, which nothing ever reassigns, so the
    closure is given the factors' operations. *)
Definition direct_product_operation (ops : list operation_t)
    : operation_t :=
  fun a b => cs <~ componentwise ops 0 a b ;; Ok (VTuple cs).

Definition direct_product (cls : class) (groups : list ref) : M ref :=
  objs <- map_m deref groups ;;
  let element_values :=
    map VTuple (cartesian_product (map element_values objs)) in
  let operation := direct_product_operation (map _operation objs) in
  ids <- map_m (fun g => e <- identity g ;; ret (element e)) groups ;;
  __init__ cls element_values operation (VTuple ids).

(** The closure [operation] of [semidirect_product]; as above it is given
    the operations that [N.operation] and [H.operation] call. *)
Definition semidirect_product_operation (opN opH action : operation_t)
    : operation_t :=
  fun a b =>
    p1 <~ unpack2 a ;;
    p2 <~ unpack2 b ;;
    let '(n1, h1) := p1 in
    let '(n2, h2) := p2 in
    m <~ action h1 n2 ;;
    n <~ opN n1 m ;;
    h <~ opH h1 h2 ;;
    Ok (VTuple [n; h]).

Definition semidirect_product (cls : class) (N H : ref)
    (action : operation_t) : M ref :=
  GN <- deref N ;;
  GH <- deref H ;;
  let elements :=
    flat_map (fun n => map (fun h => VTuple [n; h]) (element_values GH))
             (element_values GN) in
  __init__ cls elements
    (semidirect_product_operation (_operation GN) (_operation GH) action)
    VNone.

End Group.

(** ** class NamedGroup(Group) *)

Module NamedGroup.

Definition __init__ (element_values : list value)
    (operation : operation_t) (identity_value : value)
    (name : option string) : M ref :=
  new_object (mkGroupObj element_values operation identity_value
                (Attr name)).

(** [f"Group{i}"]. *)
Definition placeholder (i : nat) : string :=
  "Group" ++ NilZero.string_of_uint (Nat.to_uint i).

(** [getattr(group, 'name', f"Group{i}")]: the default is used when the
    object has no attribute [name]. *)
Definition getattr_name (G : GroupObj) (i : nat) : option string :=
  match name G with
  | NoAttr => Some (placeholder i)
  | Attr v => v
  end.

(** [sep.join(items)]: every item has to be a [str]. *)
Fixpoint all_str (items : list (option string)) : res (list string) :=
  match items with
  | [] => Ok []
  | Some s :: rest => ss <~ all_str rest ;; Ok (s :: ss)
  | None :: _ => Raise TypeError
  end.

Definition join (sep : string) (items : list (option string))
    : res string :=
  ss <~ all_str items ;; Ok (String.concat sep ss).

Definition direct_product (groups : list ref) : M ref :=
  result <- Group.direct_product CNamedGroup groups ;;
  objs <- map_m deref groups ;;
  name <- lift (join " × " (imap (fun i G => getattr_name G i) objs)) ;;
  R <- deref result ;;
  __init__ (element_values R) (_operation R) (_identity_value R)
           (Some name).

End NamedGroup.

(** ** class GroupElement *)

Module GroupElement.

Definition __mul__ (self other : GroupElement) : M GroupElement :=
  r <- Group.operation (group self) (element self) (element other) ;;
  ret (mkGroupElement r (group self)).

(** [other.element] and [other.group] on an arbitrary object. *)
Definition getattr_element (o : pyobj) : M value :=
  match o with
  | OElement e => ret (element e)
  | _ => raise (AttributeError "element")
  end.

Definition getattr_group (o : pyobj) : M ref :=
  match o with
  | OElement e => ret (group e)
  | _ => raise (AttributeError "group")
  end.

(** [g1 == g2] for two [Group] objects, as the interpreter dispatches
    it: when the class of [g2] is a proper subclass of the class of [g1]
    (a plain [Group] on the left, a [NamedGroup] on the right), the method
    of [g2] runs first, on the swapped operands; otherwise the method of
    [g1] runs first.  The other operand's method is tried when the first
    returns [NotImplemented], and [g1 is g2] is the answer when both
    do. *)
Definition groups_equal (g1 g2 : ref) : M bool :=
  G1 <- deref g1 ;;
  G2 <- deref g2 ;;
  let swapped := proper_subclass (class_of G2) (class_of G1) in
  first <- (if swapped then Group.__eq__ g2 (OGroup g1)
            else Group.__eq__ g1 (OGroup g2)) ;;
  match first with
  | Result b => ret b
  | NotImplemented =>
      second <- (if swapped then Group.__eq__ g1 (OGroup g2)
                 else Group.__eq__ g2 (OGroup g1)) ;;
      match second with
      | Result b => ret b
      | NotImplemented => ret (Nat.eqb g1 g2)
      end
  end.

Definition __eq__ (self : GroupElement) (other : pyobj) : M bool :=
  oe <- getattr_element other ;;
  if value_eqb (element self) oe
  then og <- getattr_group other ;; groups_equal (group self) og
  else ret false.

Definition __ne__ (self : GroupElement) (other : pyobj) : M bool :=
  b <- __eq__ self other ;; ret (negb b).

Definition __str__ (self : GroupElement) : string := py_str (element self).

Definition inverse (self : GroupElement) : M GroupElement :=
  Group.inverse (group self) (element self).

(** [for _ in range(k): result *= self]. *)
Fixpoint pow_loop (self result : GroupElement) (k : nat)
    : M GroupElement :=
  match k with
  | O => ret result
  | S k' => r <- __mul__ result self ;; pow_loop self r k'
  end.

(** The branch [n > 0] of [__pow__]. *)
Definition pow_positive (self : GroupElement) (n : Z) : M GroupElement :=
  pow_loop self self (Z.to_nat (n - 1)).

(** [__pow__]: for [n < 0] the recursive call [self.inverse() ** (-n)]
    has a positive exponent, so it runs the branch [n > 0]. *)
Definition __pow__ (self : GroupElement) (n : Z) : M GroupElement :=
  if (n =? 0)%Z then Group.identity (group self)
  else if (n >? 0)%Z then pow_positive self n
  else inv <- inverse self ;; pow_positive inv (- n).

(** The [while] loop of [order], run for at most [fuel] evaluations of
    its test; [None] when the fuel runs out before the loop exits. *)
Fixpoint order_loop (fuel : nat) (self power : GroupElement) (order : Z)
    : M (option Z) :=
  match fuel with
  | O => ret None
  | S fuel' =>
      i <- Group.identity (group self) ;;
      continue <- __ne__ power (OElement i) ;;
      if continue
      then power' <- __mul__ power self ;;
           order_loop fuel' self power' (order + 1)
      else ret (Some order)
  end.

Definition order (fuel : nat) (self : GroupElement) : M (option Z) :=
  order_loop fuel self self 1.

End GroupElement.

(** ** The operator [==] *)

(** [b.__eq__(a)], tried after [a.__eq__(b)] returned [NotImplemented];
    when it declines too, the answer is [a is b], which is [False] for
    objects of different types.  The built-in types of [value] decline
    every object that is not of their own type. *)
Definition reflected_eq (a b : pyobj) : M bool :=
  match b with
  | OElement e => GroupElement.__eq__ e a
  | OGroup g =>
      r <- Group.__eq__ g a ;;
      match r with
      | Result x => ret x
      | NotImplemented => ret false
      end
  | OValue _ => ret false
  end.

(** [a == b].  The method of [a] runs first, except between two groups,
    where the class of [b] can give its method priority. *)
Definition py_eq (a b : pyobj) : M bool :=
  match a with
  | OElement e => GroupElement.__eq__ e b
  | OGroup g =>
      match b with
      | OGroup h => GroupElement.groups_equal g h
      | _ =>
          r <- Group.__eq__ g b ;;
          match r with
          | Result x => ret x
          | NotImplemented => reflected_eq a b
          end
      end
  | OValue v =>
      match b with
      | OValue w => ret (value_eqb v w)
      | _ => reflected_eq a b
      end
  end.

(** ** Structural induction on values *)

Section value_induction.
Variable P : value -> Prop.
Hypothesis HNone : P VNone.
Hypothesis HInt : forall n, P (VInt n).
Hypothesis HTuple : forall items, Forall P items -> P (VTuple items).

Fixpoint value_ind (v : value) : P v :=
  match v with
  | VNone => HNone
  | VInt n => HInt n
  | VTuple items =>
      HTuple items
        ((fix all_items (l : list value) : Forall P l :=
            match l with
            | [] => List.Forall_nil P
            | x :: l' => List.Forall_cons P x l' (value_ind x) (all_items l')
            end) items)
  end.
End value_induction.

(** ** What the methods compute, read off a store

    The loops of [Group] read the store and, except for the one assignment
    in [identity], leave it as it is.  Each gets a counterpart on results;
    the lemmas below show that running the method in a store that holds
    the object gives that result. *)

(** [all(...)] on results. *)
Fixpoint all_r {A} (f : A -> res bool) (xs : list A) : res bool :=
  match xs with
  | [] => Ok true
  | x :: xs' => b <~ f x ;; if b then all_r f xs' else Ok false
  end.

Definition identity_test (op : operation_t) (els : list value) (e : value)
    : res bool :=
  all_r (fun x =>
    ex <~ op e x ;;
    if value_eqb ex x
    then xe <~ op x e ;; Ok (value_eqb xe x)
    else Ok false) els.

Fixpoint identity_find (op : operation_t) (els candidates : list value)
    : res (option value) :=
  match candidates with
  | [] => Ok None
  | e :: rest =>
      found <~ identity_test op els e ;;
      if found then Ok (Some e) else identity_find op els rest
  end.

(** The label that [identity()] wraps. *)
Definition identity_label (G : GroupObj) : res value :=
  if is_None (_identity_value G)
  then r <~ identity_find (_operation G) (element_values G)
                          (element_values G) ;;
       Ok (default VNone r)
  else Ok (_identity_value G).

(** The store after [identity()] returned the label [v]. *)
Definition store_cache (g : ref) (v : value) (s : store) : store :=
  match s !! g with
  | Some G => <[g := set_identity_value G v]> s
  | None => s
  end.

Definition inverse_not_found (a : value) : exn :=
  ValueError ("Inverse not found for " ++ py_str a).

(** The nested loops of [Group.__eq__], on results. *)
Definition operations_agree_r (op1 op2 : operation_t) (els : list value)
    : res bool :=
  all_r (fun a =>
    all_r (fun b =>
      r1 <~ op1 a b ;; r2 <~ op2 a b ;; Ok (value_eqb r1 r2)) els) els.

(** What [Group.__eq__] returns on the objects [G1] (as [self]) and
    [G2]. *)
Definition group_eq_r (G1 G2 : GroupObj) : res bool :=
  if negb (set_eqb (element_values G1) (element_values G2))
     || negb (value_eqb (_identity_value G1) (_identity_value G2))
  then Ok false
  else operations_agree_r (_operation G1) (_operation G2)
         (element_values G1).

(** What [G1 == G2] returns: the method of [G2] decides when its class
    is a proper subclass of the class of [G1]. *)
Definition groups_equal_r (G1 G2 : GroupObj) : res bool :=
  if proper_subclass (class_of G2) (class_of G1)
  then group_eq_r G2 G1
  else group_eq_r G1 G2.

(** ** The group axioms on a list of labels and an operation *)

(** The operation does not raise on the labels [xs]. *)
Definition total_on (op : operation_t) (xs : list value) : Prop :=
  forall a b, a ∈ xs -> b ∈ xs -> exists c, op a b = Ok c.

Definition closed (els : list value) (op : operation_t) : Prop :=
  forall a b, a ∈ els -> b ∈ els -> exists c, op a b = Ok c /\ c ∈ els.

Definition associative (els : list value) (op : operation_t) : Prop :=
  forall a b c ab bc, a ∈ els -> b ∈ els -> c ∈ els ->
    op a b = Ok ab -> op b c = Ok bc -> op ab c = op a bc.

Definition two_sided_identity (els : list value) (op : operation_t)
    (e : value) : Prop :=
  e ∈ els /\ forall x, x ∈ els -> op e x = Ok x /\ op x e = Ok x.

Definition inverse_of (op : operation_t) (e a b : value) : Prop :=
  op a b = Ok e /\ op b a = Ok e.

(** [els] and [op] form a group with identity [e]. *)
Definition is_group (els : list value) (op : operation_t) (e : value)
    : Prop :=
  closed els op /\ associative els op /\ two_sided_identity els op e
  /\ forall a, a ∈ els -> exists b, b ∈ els /\ inverse_of op e a b.

Definition group_axioms (els : list value) (op : operation_t) : Prop :=
  exists e, is_group els op e.

(** A well-formed [Group] object: its labels and operation form a group and
    the attribute [_identity_value] is unset or holds the identity. *)
Definition well_formed (G : GroupObj) : Prop :=
  group_axioms (element_values G) (_operation G)
  /\ (_identity_value G = VNone
      \/ two_sided_identity (element_values G) (_operation G)
           (_identity_value G)).

(** The first label of [xs] that [inverse] accepts for [a], when the
    identity's label is [i]. *)
Fixpoint inverse_find (op : operation_t) (i a : value) (xs : list value)
    : res (option value) :=
  match xs with
  | [] => Ok None
  | x :: xs' =>
      ax <~ op a x ;;
      if value_eqb ax i
      then xa <~ op x a ;;
           if value_eqb xa i then Ok (Some x) else inverse_find op i a xs'
      else inverse_find op i a xs'
  end.

(** [res_is r v]: [r] is the result [v]. *)
Definition res_is (r : res value) (v : value) : bool :=
  match r with
  | Ok c => value_eqb c v
  | Raise _ => false
  end.

(** [inverse] accepts [x] for [a] when both products are the identity. *)
Definition accepts (op : operation_t) (i a x : value) : bool :=
  res_is (op a x) i && res_is (op x a) i.

(** ** The algebra of a group given by labels [els], operation [op] and
    identity [e] *)

(** The product of two labels. *)
Definition gmul (op : operation_t) (a b : value) : value :=
  match op a b with
  | Ok c => c
  | Raise _ => VNone
  end.

(** The inverse that [inverse] finds. *)
Definition ginv (els : list value) (op : operation_t) (e a : value) : value :=
  match inverse_find op e a els with
  | Ok (Some x) => x
  | _ => VNone
  end.

(** The product of [k] copies of [a], multiplied on from the right. *)
Definition gnpow (op : operation_t) (e a : value) (k : nat) : value :=
  Nat.iter k (fun r => gmul op r a) e.

(** [a ** n] as the code computes it: the identity for [0], a product of
    [n] copies of [a] for [n > 0], of [-n] copies of the inverse of [a]
    for [n < 0]. *)
Definition gzpow (els : list value) (op : operation_t) (e a : value) (n : Z)
    : value :=
  if (n =? 0)%Z then e
  else if (n >? 0)%Z then gnpow op e a (Z.to_nat n)
  else gnpow op e (ginv els op e a) (Z.to_nat (- n)).

(** The least positive exponent, among [1 .. len(els)], that gives the
    identity ([0] if there were none). *)
Definition element_order (els : list value) (op : operation_t) (e a : value)
    : nat :=
  match list_find (fun k => value_eqb (gnpow op e a k) e = true)
          (seq 1 (length els)) with
  | Some (_, k) => k
  | None => O
  end.

(** The store holds, at [g], the group given by [els], [op] and [e], its
    cache unset or set to [e]. *)
Definition holds (g : ref) (els : list value) (op : operation_t) (e : value)
    (nm : name_attr) (s : store) : Prop :=
  exists c, (c = VNone \/ c = e) /\ s !! g = Some (mkGroupObj els op c nm).

(** ** Checking the axioms of a concrete group *)

Definition total_onb (op : operation_t) (xs : list value) : bool :=
  forallb (fun a => forallb (fun b =>
    match op a b with
    | Ok _ => true
    | Raise _ => false
    end) xs) xs.

Definition closedb (els : list value) (op : operation_t) : bool :=
  forallb (fun a => forallb (fun b =>
    match op a b with
    | Ok c => existsb (value_eqb c) els
    | Raise _ => false
    end) els) els.

Definition associativeb (els : list value) (op : operation_t) : bool :=
  forallb (fun a => forallb (fun b => forallb (fun c =>
    match op a b, op b c with
    | Ok ab, Ok bc =>
        match op ab c, op a bc with
        | Ok u, Ok v => value_eqb u v
        | _, _ => false
        end
    | _, _ => true
    end) els) els) els.

Definition two_sided_identityb (els : list value) (op : operation_t)
    (e : value) : bool :=
  existsb (value_eqb e) els
  && forallb (fun x => res_is (op e x) x && res_is (op x e) x) els.

Definition inversesb (els : list value) (op : operation_t) (e : value)
    : bool :=
  forallb (fun a =>
    existsb (fun b => res_is (op a b) e && res_is (op b a) e) els) els.

Definition group_axiomsb (els : list value) (op : operation_t) : bool :=
  closedb els op && associativeb els op
  && existsb (fun e => two_sided_identityb els op e && inversesb els op e)
       els.

Definition well_formedb (G : GroupObj) : bool :=
  group_axiomsb (element_values G) (_operation G)
  && (is_None (_identity_value G)
      || two_sided_identityb (element_values G) (_operation G)
           (_identity_value G)).

(** ** The groups of the test suite *)

(** [lambda a, b: (a + b) % m], for [m > 0]. *)
Definition add_mod (m : Z) : operation_t :=
  fun a b =>
    match a, b with
    | VInt x, VInt y => Ok (VInt ((x + y) mod m))
    | _, _ => Raise TypeError
    end.

(** [Group(list(range(m)), lambda a, b: (a + b) % m, identity_value)]. *)
Definition cyclic (m : nat) (identity_value : value) : GroupObj :=
  mkGroupObj (map (fun k => VInt (Z.of_nat k)) (seq 0 m))
             (add_mod (Z.of_nat m)) identity_value NoAttr.

(** The action of the dihedral test:
    [n if h == 0 else (4 - n) % 4]. *)
Definition negation_action : operation_t :=
  fun h n =>
    if value_eqb h (VInt 0) then Ok n
    else match n with
         | VInt x => Ok (VInt ((4 - x) mod 4))
         | _ => Raise TypeError
         end.

(** [NamedGroup(list(range(m)), lambda a, b: (a + b) % m, 0, name)]. *)
Definition named_cyclic (m : nat) (name : option string) : GroupObj :=
  mkGroupObj (map (fun k => VInt (Z.of_nat k)) (seq 0 m))
             (add_mod (Z.of_nat m)) (VInt 0) (Attr name).

(** The attribute [name] of the object a computation returned. *)
Definition name_of_result (r : res nat * list GroupObj) : res name_attr :=
  match r with
  | (Ok p, s) =>
      match s !! p with
      | Some G => Ok (name G)
      | None => Raise DanglingReference
      end
  | (Raise x, _) => Raise x
  end.

(** ** The testable properties, as the programs that evaluate them *)

(** [e * G.identity() == e] *)
Definition right_identity_law (x : GroupElement) : M bool :=
  i <- Group.identity (group x) ;;
  p <- GroupElement.__mul__ x i ;;
  py_eq (OElement p) (OElement x).

(** [G.identity() * e == e] *)
Definition left_identity_law (x : GroupElement) : M bool :=
  i <- Group.identity (group x) ;;
  p <- GroupElement.__mul__ i x ;;
  py_eq (OElement p) (OElement x).

(** [e * e.inverse() == G.identity()] *)
Definition right_inverse_law (x : GroupElement) : M bool :=
  y <- GroupElement.inverse x ;;
  p <- GroupElement.__mul__ x y ;;
  i <- Group.identity (group x) ;;
  py_eq (OElement p) (OElement i).

(** [e.inverse() * e == G.identity()] *)
Definition left_inverse_law (x : GroupElement) : M bool :=
  y <- GroupElement.inverse x ;;
  p <- GroupElement.__mul__ y x ;;
  i <- Group.identity (group x) ;;
  py_eq (OElement p) (OElement i).

(** [e ** n == G.identity()] *)
Definition power_is_identity (x : GroupElement) (n : Z) : M bool :=
  p <- GroupElement.__pow__ x n ;;
  i <- Group.identity (group x) ;;
  py_eq (OElement p) (OElement i).

(** [e ** 1 == e] *)
Definition power_one_law (x : GroupElement) : M bool :=
  p <- GroupElement.__pow__ x 1 ;;
  py_eq (OElement p) (OElement x).

(** [e ** (-1) == e.inverse()] *)
Definition power_minus_one_law (x : GroupElement) : M bool :=
  p <- GroupElement.__pow__ x (-1) ;;
  y <- GroupElement.inverse x ;;
  py_eq (OElement p) (OElement y).

(** [e ** (m + n) == e ** m * e ** n] *)
Definition power_sum_law (x : GroupElement) (m n : Z) : M bool :=
  l <- GroupElement.__pow__ x (m + n) ;;
  a <- GroupElement.__pow__ x m ;;
  b <- GroupElement.__pow__ x n ;;
  r <- GroupElement.__mul__ a b ;;
  py_eq (OElement l) (OElement r).

(** [a * b != b * a] *)
Definition do_not_commute (a b : GroupElement) : M bool :=
  l <- GroupElement.__mul__ a b ;;
  r <- GroupElement.__mul__ b a ;;
  GroupElement.__ne__ l (OElement r).

(** ** Direct products, on the items of tuples *)

(** What the closure [operation] of [direct_product] computes on the items
    [xs] and [ys] of two tuples: one component per factor, [IndexError]
    when a tuple is too short, components beyond the factors ignored. *)
Fixpoint tuple_op (ops : list operation_t) (xs ys : list value)
    : res (list value) :=
  match ops with
  | [] => Ok []
  | op :: ops' =>
      match xs with
      | [] => Raise IndexError
      | x :: xs' =>
          match ys with
          | [] => Raise IndexError
          | y :: ys' =>
              c <~ op x y ;; cs <~ tuple_op ops' xs' ys' ;; Ok (c :: cs)
          end
      end
  end.

(** The componentwise product of two tuples of elements. *)
Fixpoint tuple_mul (objs : list GroupObj) (xs ys : list value)
    : list value :=
  match objs, xs, ys with
  | G :: objs', x :: xs', y :: ys' =>
      gmul (_operation G) x y :: tuple_mul objs' xs' ys'
  | _, _, _ => []
  end.

(** The items [xs] are elements of the factors [objs], one of each. *)
Definition in_product (objs : list GroupObj) (xs : list value) : Prop :=
  Forall2 (fun x G => x ∈ element_values G) xs objs.

(** The store after [identity()] ran on each of [groups] in turn and
    returned the labels [ids]. *)
Fixpoint cache_all (groups : list nat) (ids : list value)
    (s : list GroupObj) : list GroupObj :=
  match groups, ids with
  | g :: groups', i :: ids' => cache_all groups' ids' (store_cache g i s)
  | _, _ => s
  end.

(** The object [direct_product], called on the class [cls], builds from
    the factors [objs] and their identity labels [ids]. *)
Definition product_object (cls : class) (objs : list GroupObj)
    (ids : list value) : GroupObj :=
  mkGroupObj
    (map VTuple (Group.cartesian_product (map element_values objs)))
    (Group.direct_product_operation (map _operation objs))
    (VTuple ids)
    match cls with
    | CGroup => NoAttr
    | CNamedGroup => Attr None
    end.

(** [lambda a, b: ()[0] if a == 1 else 5], an operation that raises
    [IndexError] when its first argument is [1]. *)
Definition raising_on_one : operation_t :=
  fun a _ =>
    if value_eqb a (VInt 1) then subscript (VTuple []) 0 else Ok (VInt 5).

(** The action [lambda h, n: n]. *)
Definition trivial_action : operation_t := fun _ n => Ok n.

(** ** Semidirect products *)

(** [action] lets the labels of [H] act on the group [N] by
    automorphisms: every [action(h, .)] maps [N] to [N] and respects its
    operation, the identity of [H] acts as the identity map, and a
    product in [H] acts as the composition. *)
Definition acts_by_automorphisms (elsN : list value) (opN : operation_t)
    (elsH : list value) (opH : operation_t) (eH : value)
    (action : operation_t) : Prop :=
  (forall h n, h ∈ elsH -> n ∈ elsN ->
     exists m, action h n = Ok m /\ m ∈ elsN)
  /\ (forall h n1 n2, h ∈ elsH -> n1 ∈ elsN -> n2 ∈ elsN ->
       gmul action h (gmul opN n1 n2)
       = gmul opN (gmul action h n1) (gmul action h n2))
  /\ (forall n, n ∈ elsN -> gmul action eH n = n)
  /\ (forall h1 h2 n, h1 ∈ elsH -> h2 ∈ elsH -> n ∈ elsN ->
       gmul action (gmul opH h1 h2) n
       = gmul action h1 (gmul action h2 n)).

Definition acts_by_automorphismsb (elsN : list value) (opN : operation_t)
    (elsH : list value) (opH : operation_t) (eH : value)
    (action : operation_t) : bool :=
  forallb (fun h => forallb (fun n =>
    match action h n with
    | Ok m => existsb (value_eqb m) elsN
    | Raise _ => false
    end) elsN) elsH
  && forallb (fun h => forallb (fun n1 => forallb (fun n2 =>
       value_eqb (gmul action h (gmul opN n1 n2))
                 (gmul opN (gmul action h n1) (gmul action h n2)))
       elsN) elsN) elsH
  && forallb (fun n => value_eqb (gmul action eH n) n) elsN
  && forallb (fun h1 => forallb (fun h2 => forallb (fun n =>
       value_eqb (gmul action (gmul opH h1 h2) n)
                 (gmul action h1 (gmul action h2 n)))
       elsN) elsH) elsH.

(** The labels that [semidirect_product] lists. *)
Definition semidirect_elements (elsN elsH : list value) : list value :=
  flat_map (fun n => map (fun h => VTuple [n; h]) elsH) elsN.

(** [e.inverse().inverse() == e] *)
Definition inverse_round_trip (x : GroupElement) : M bool :=
  y <- GroupElement.inverse x ;;
  z <- GroupElement.inverse y ;;
  py_eq (OElement z) (OElement x).

(** [(a * b).inverse() == b.inverse() * a.inverse()] *)
Definition inverse_of_product (a b : GroupElement) : M bool :=
  p <- GroupElement.__mul__ a b ;;
  l <- GroupElement.inverse p ;;
  bi <- GroupElement.inverse b ;;
  ai <- GroupElement.inverse a ;;
  r <- GroupElement.__mul__ bi ai ;;
  py_eq (OElement l) (OElement r).

(** * Properties *)

(** ** Equality of values *)

Lemma value_eqb_tuple xs ys :
  value_eqb (VTuple xs) (VTuple ys) = items_eqb xs ys.
Proof. reflexivity. Qed.

Lemma value_eqb_eq a b : value_eqb a b = true <-> a = b.
Proof.
  revert b. induction a as [|n|items IH] using value_ind; intros b.
  - destruct b; simpl; split; congruence.
  - destruct b as [|m|]; simpl; try (split; congruence).
    rewrite Z.eqb_eq. split; congruence.
  - destruct b as [| |ys]; try (simpl; split; congruence).
    rewrite value_eqb_tuple.
    assert (Hitems : items_eqb items ys = true <-> items = ys).
    { revert ys. induction IH as [|x xs Hx _ IHxs]; intros [|y ys]; simpl;
        try (split; congruence).
      rewrite andb_true_iff, Hx, IHxs. split; [intros [-> ->] | intros [= -> ->]]; auto. }
    rewrite Hitems. split; congruence.
Qed.

Lemma value_eqb_refl a : value_eqb a a = true.
Proof. by apply value_eqb_eq. Qed.

Lemma value_eqb_neq a b : value_eqb a b = false <-> a <> b.
Proof.
  rewrite <- value_eqb_eq. destruct (value_eqb a b); split; congruence.
Qed.

Lemma existsb_value_eqb x l : existsb (value_eqb x) l = true <-> x ∈ l.
Proof.
  rewrite existsb_exists, list_elem_of_In. split.
  - intros (y & Hy & E). apply value_eqb_eq in E. by subst.
  - intros H. exists x. split; [done | apply value_eqb_refl].
Qed.

Lemma set_eqb_true xs ys :
  set_eqb xs ys = true <-> (forall x, x ∈ xs <-> x ∈ ys).
Proof.
  unfold set_eqb. rewrite andb_true_iff, !forallb_forall.
  setoid_rewrite existsb_value_eqb. setoid_rewrite <- list_elem_of_In.
  split.
  - intros [H1 H2] x. split; auto.
  - intros H. split; intros x Hx; by apply H.
Qed.

(** ** Running computations *)

Lemma bind_ok {A B} (m : M A) (k : A -> M B) s a s' :
  m s = (Ok a, s') -> bind m k s = k a s'.
Proof. unfold bind. by intros ->. Qed.

Lemma bind_raise {A B} (m : M A) (k : A -> M B) s e s' :
  m s = (Raise e, s') -> bind m k s = (Raise e, s').
Proof. unfold bind. by intros ->. Qed.

Lemma deref_ok s g G : s !! g = Some G -> deref g s = (Ok G, s).
Proof. unfold deref. by intros ->. Qed.

Lemma bind_deref {B} g (k : GroupObj -> M B) s G :
  s !! g = Some G -> bind (deref g) k s = k G s.
Proof. intros H. by rewrite (bind_ok _ _ _ _ _ (deref_ok _ _ _ H)). Qed.

Lemma bind_lift {A B} (r : res A) (k : A -> M B) s :
  bind (lift r) k s = match r with
                      | Ok a => k a s
                      | Raise x => (Raise x, s)
                      end.
Proof. by destruct r. Qed.

Lemma bind_ret {A B} (a : A) (k : A -> M B) s : bind (ret a) k s = k a s.
Proof. reflexivity. Qed.

Lemma all_m_pure {A} (f : A -> M bool) (fr : A -> res bool) xs s :
  (forall x, x ∈ xs -> f x s = (fr x, s)) ->
  all_m f xs s = (all_r fr xs, s).
Proof.
  induction xs as [|x xs IH]; intros H; [done|].
  simpl. unfold bind. rewrite (H x) by constructor.
  destruct (fr x) as [[|]|e]; simpl; try done.
  apply IH. intros y Hy. apply H. by constructor.
Qed.

Lemma all_r_true {A} (f : A -> res bool) xs :
  all_r f xs = Ok true <-> forall x, x ∈ xs -> f x = Ok true.
Proof.
  induction xs as [|x xs IH]; simpl.
  - split; [intros _ y Hy; inversion Hy | done].
  - destruct (f x) as [[|]|e] eqn:E; simpl.
    + rewrite IH. split.
      * intros H y Hy. inversion Hy; subst; auto.
      * intros H y Hy. apply H. by constructor.
    + split; [done|]. intros H. specialize (H x ltac:(constructor)). congruence.
    + split; [done|]. intros H. specialize (H x ltac:(constructor)). congruence.
Qed.

Lemma all_r_total {A} (f : A -> res bool) (p : A -> bool) xs :
  (forall x, x ∈ xs -> f x = Ok (p x)) -> all_r f xs = Ok (forallb p xs).
Proof.
  induction xs as [|x xs IH]; intros H; [done|].
  simpl. rewrite (H x) by constructor. simpl.
  destruct (p x); [|done]. apply IH. intros y Hy. apply H. by constructor.
Qed.

(** ** Reading the store *)

Lemma set_identity_value_id G : set_identity_value G (_identity_value G) = G.
Proof. by destruct G. Qed.

Lemma store_cache_lookup g v s G :
  s !! g = Some G -> store_cache g v s !! g = Some (set_identity_value G v).
Proof.
  intros H. unfold store_cache. rewrite H.
  apply list_lookup_insert_eq. by eapply lookup_lt_Some.
Qed.

Lemma store_cache_id g s G :
  s !! g = Some G -> store_cache g (_identity_value G) s = s.
Proof.
  intros H. unfold store_cache. rewrite H, set_identity_value_id.
  by apply list_insert_id.
Qed.

Lemma store_cache_idem g v s : store_cache g v (store_cache g v s) = store_cache g v s.
Proof.
  destruct (s !! g) as [G|] eqn:H.
  - pose proof (store_cache_lookup g v s G H) as H'.
    replace v with (_identity_value (set_identity_value G v)) at 1 by done.
    by apply store_cache_id.
  - unfold store_cache at 2. rewrite H. unfold store_cache. by rewrite H.
Qed.

Section reading.
Variables (s : store) (g : ref) (G : GroupObj).
Hypothesis Hg : s !! g = Some G.

Lemma operation_run a b :
  Group.operation g a b s = (_operation G a b, s).
Proof. unfold Group.operation. by rewrite (bind_ok _ _ _ _ _ (deref_ok _ _ _ Hg)). Qed.

Lemma is_two_sided_identity_run e :
  Group.is_two_sided_identity g e s
  = (identity_test (_operation G) (element_values G) e, s).
Proof.
  unfold Group.is_two_sided_identity.
  rewrite (bind_ok _ _ _ _ _ (deref_ok _ _ _ Hg)).
  apply all_m_pure. intros x _. unfold bind. rewrite operation_run.
  destruct (_operation G e x) as [ex|]; simpl; [|done].
  destruct (value_eqb ex x); [|done].
  rewrite operation_run. by destruct (_operation G x e).
Qed.

Lemma identity_search_run candidates :
  Group.identity_search g candidates s
  = match identity_find (_operation G) (element_values G) candidates with
    | Ok (Some e) => (Ok tt, <[g := set_identity_value G e]> s)
    | Ok None => (Ok tt, s)
    | Raise x => (Raise x, s)
    end.
Proof.
  induction candidates as [|e rest IH]; [done|].
  simpl. unfold bind. rewrite is_two_sided_identity_run.
  destruct (identity_test _ _ e) as [[|]|x]; simpl; try done.
  unfold write_identity_value. by rewrite Hg.
Qed.

Lemma identity_run :
  Group.identity g s
  = match identity_label G with
    | Ok v => (Ok (mkGroupElement v g), store_cache g v s)
    | Raise x => (Raise x, s)
    end.
Proof.
  unfold Group.identity, identity_label.
  rewrite (bind_ok _ _ _ _ _ (deref_ok _ _ _ Hg)).
  destruct (is_None (_identity_value G)) eqn:Hnone.
  - unfold bind at 1. rewrite identity_search_run.
    assert (Hv : _identity_value G = VNone)
      by (destruct (_identity_value G); done).
    destruct (identity_find _ _ _) as [[e|]|x]; simpl; try done.
    + unfold bind, deref, store_cache. rewrite Hg.
      rewrite list_lookup_insert_eq by (by eapply lookup_lt_Some). done.
    + unfold bind, deref. rewrite Hg, <- Hv.
      by rewrite (store_cache_id _ _ _ Hg).
  - unfold bind, ret, deref. rewrite Hg.
    by rewrite (store_cache_id _ _ _ Hg).
Qed.
End reading.

Section group.
Variables (els : list value) (op : operation_t) (e : value).
Hypothesis Hgrp : is_group els op e.

Let Hclosed : closed els op := proj1 Hgrp.
Let Hassoc : associative els op := proj1 (proj2 Hgrp).
Let Hid : two_sided_identity els op e := proj1 (proj2 (proj2 Hgrp)).
Let Hinv : forall a, a ∈ els -> exists b, b ∈ els /\ inverse_of op e a b :=
  proj2 (proj2 (proj2 Hgrp)).

#[local] Abbreviation mul := (gmul op).
#[local] Abbreviation inv := (ginv els op e).
#[local] Abbreviation npow := (gnpow op e).
#[local] Abbreviation zpow := (gzpow els op e).
#[local] Abbreviation order_of := (element_order els op e).

Lemma op_mul a b : a ∈ els -> b ∈ els -> op a b = Ok (mul a b).
Proof.
  intros Ha Hb. destruct (Hclosed a b Ha Hb) as (c & Hc & _).
  unfold gmul. by rewrite Hc.
Qed.

Lemma mul_in a b : a ∈ els -> b ∈ els -> mul a b ∈ els.
Proof.
  intros Ha Hb. destruct (Hclosed a b Ha Hb) as (c & Hc & Hin).
  unfold gmul. by rewrite Hc.
Qed.

Lemma e_in : e ∈ els.
Proof. apply Hid. Qed.

Lemma mul_e_l a : a ∈ els -> mul e a = a.
Proof. intros Ha. unfold gmul. by rewrite (proj1 (proj2 Hid a Ha)). Qed.

Lemma mul_e_r a : a ∈ els -> mul a e = a.
Proof. intros Ha. unfold gmul. by rewrite (proj2 (proj2 Hid a Ha)). Qed.

Lemma mul_assoc a b c :
  a ∈ els -> b ∈ els -> c ∈ els -> mul (mul a b) c = mul a (mul b c).
Proof.
  intros Ha Hb Hc.
  pose proof (Hassoc a b c _ _ Ha Hb Hc (op_mul a b Ha Hb) (op_mul b c Hb Hc))
    as H.
  unfold gmul at 1 3. by rewrite H.
Qed.

Lemma total_on_els : total_on op els.
Proof. intros a b Ha Hb. exists (mul a b). by apply op_mul. Qed.

Lemma identity_unique e' : two_sided_identity els op e' -> e' = e.
Proof.
  intros [Hin H']. destruct (H' e e_in) as [H1 _].
  destruct (proj2 Hid e' Hin) as [_ H2]. congruence.
Qed.

(** *** The search of [identity] finds [e] *)

Lemma identity_test_group c :
  c ∈ els -> identity_test op els c = Ok (value_eqb c e).
Proof.
  intros Hc. unfold identity_test.
  rewrite (all_r_total _
    (fun x => value_eqb (mul c x) x && value_eqb (mul x c) x)).
  - f_equal. apply eq_true_iff_eq. rewrite forallb_forall, value_eqb_eq.
    split.
    + intros H. apply identity_unique. split; [done|]. intros x Hx.
      pose proof Hx as Hx'.
      apply list_elem_of_In, H, andb_true_iff in Hx'.
      rewrite !value_eqb_eq in Hx'. destruct Hx' as [H1 H2].
      rewrite !op_mul by done. by rewrite H1, H2.
    + intros -> x Hx. apply list_elem_of_In in Hx.
      rewrite mul_e_l, mul_e_r by done. by rewrite value_eqb_refl.
  - intros x Hx. rewrite op_mul by done. simpl.
    destruct (value_eqb (mul c x) x); [|done].
    by rewrite op_mul.
Qed.

Lemma identity_find_group candidates :
  (forall c, c ∈ candidates -> c ∈ els) -> e ∈ candidates ->
  identity_find op els candidates = Ok (Some e).
Proof.
  induction candidates as [|c rest IH]; intros Hsub He.
  - inversion He.
  - simpl. rewrite identity_test_group by (apply Hsub; constructor).
    simpl. destruct (value_eqb c e) eqn:E.
    + apply value_eqb_eq in E. by subst.
    + apply value_eqb_neq in E. apply IH.
      * intros x Hx. apply Hsub. by constructor.
      * inversion He; by subst.
Qed.

(** *** Inverses *)

Lemma inverse_find_total i a xs :
  a ∈ els -> (forall x, x ∈ xs -> x ∈ els) ->
  inverse_find op i a xs
  = Ok (find (fun x => value_eqb (mul a x) i && value_eqb (mul x a) i) xs).
Proof.
  intros Ha. induction xs as [|x xs IH]; intros Hsub; [done|].
  assert (Hx : x ∈ els) by (apply Hsub; constructor).
  simpl. rewrite op_mul by done. simpl.
  rewrite IH by (intros y Hy; apply Hsub; by constructor).
  destruct (value_eqb (mul a x) i); simpl; [|done].
  rewrite op_mul by done. simpl. by destruct (value_eqb (mul x a) i).
Qed.

Lemma ginv_spec a :
  a ∈ els ->
  inverse_find op e a els = Ok (Some (inv a))
  /\ inv a ∈ els /\ mul a (inv a) = e /\ mul (inv a) a = e.
Proof.
  intros Ha. unfold ginv. rewrite (inverse_find_total e a els Ha) by done.
  destruct (find _ els) as [x|] eqn:F.
  - apply find_some in F as [Hx F]. apply andb_true_iff in F as [F1 F2].
    apply value_eqb_eq in F1, F2. by rewrite <- list_elem_of_In in Hx.
  - destruct (Hinv a Ha) as (b & Hb & H1 & H2).
    pose proof (find_none _ _ F b (proj1 (list_elem_of_In _ _) Hb)) as F'.
    simpl in F'. unfold gmul in F'. rewrite H1, H2, value_eqb_refl in F'. done.
Qed.

Lemma ginv_in a : a ∈ els -> inv a ∈ els.
Proof. intros Ha. apply (ginv_spec a Ha). Qed.

Lemma mul_ginv_r a : a ∈ els -> mul a (inv a) = e.
Proof. intros Ha. apply (ginv_spec a Ha). Qed.

Lemma mul_ginv_l a : a ∈ els -> mul (inv a) a = e.
Proof. intros Ha. apply (ginv_spec a Ha). Qed.

Lemma mul_cancel_r a b c :
  a ∈ els -> b ∈ els -> c ∈ els -> mul a c = mul b c -> a = b.
Proof.
  intros Ha Hb Hc H.
  rewrite <- (mul_e_r a Ha), <- (mul_e_r b Hb), <- (mul_ginv_r c Hc).
  rewrite <- !mul_assoc by auto using ginv_in. by rewrite H.
Qed.

(** *** Powers *)

Lemma npow_S a k : npow a (S k) = mul (npow a k) a.
Proof. reflexivity. Qed.

Lemma npow_in a k : a ∈ els -> npow a k ∈ els.
Proof.
  intros Ha. induction k as [|k IH]; [apply e_in|].
  rewrite npow_S. by apply mul_in.
Qed.

Lemma npow_1 a : a ∈ els -> npow a 1 = a.
Proof. intros Ha. rewrite npow_S. by apply mul_e_l. Qed.

Lemma npow_add a i j :
  a ∈ els -> npow a (i + j) = mul (npow a i) (npow a j).
Proof.
  intros Ha. induction j as [|j IH].
  - rewrite Nat.add_0_r. symmetry. apply mul_e_r. by apply npow_in.
  - rewrite Nat.add_succ_r, !npow_S, IH.
    apply mul_assoc; auto using npow_in.
Qed.

Lemma zpow_nonneg a n : (0 <= n)%Z -> zpow a n = npow a (Z.to_nat n).
Proof.
  intros Hn. unfold gzpow. destruct (Z.eqb_spec n 0) as [->|Hne]; [done|].
  destruct (Z.gtb_spec n 0); [done | lia].
Qed.

Lemma zpow_nonpos a n :
  (n <= 0)%Z -> zpow a n = npow (inv a) (Z.to_nat (- n)).
Proof.
  intros Hn. unfold gzpow. destruct (Z.eqb_spec n 0) as [->|Hne]; [done|].
  destruct (Z.gtb_spec n 0); [lia | done].
Qed.

Lemma zpow_in a n : a ∈ els -> zpow a n ∈ els.
Proof.
  intros Ha. destruct (Z.le_ge_cases 0 n).
  - rewrite zpow_nonneg by done. by apply npow_in.
  - rewrite zpow_nonpos by done. apply npow_in. by apply ginv_in.
Qed.

Lemma zpow_succ a n : a ∈ els -> zpow a (n + 1) = mul (zpow a n) a.
Proof.
  intros Ha. destruct (Z.le_gt_cases 0 n) as [Hn|Hn].
  - rewrite !zpow_nonneg by lia.
    replace (Z.to_nat (n + 1)) with (S (Z.to_nat n)) by lia. done.
  - rewrite !zpow_nonpos by lia.
    replace (Z.to_nat (- n)) with (S (Z.to_nat (- (n + 1)))) by lia.
    rewrite npow_S.
    assert (Hp : npow (inv a) (Z.to_nat (- (n + 1))) ∈ els)
      by auto using npow_in, ginv_in.
    rewrite mul_assoc, mul_ginv_l, mul_e_r by auto using ginv_in. done.
Qed.

Lemma zpow_pred a n : a ∈ els -> zpow a (n - 1) = mul (zpow a n) (inv a).
Proof.
  intros Ha. destruct (Z.le_gt_cases n 0) as [Hn|Hn].
  - rewrite !zpow_nonpos by lia.
    replace (Z.to_nat (- (n - 1))) with (S (Z.to_nat (- n))) by lia. done.
  - rewrite !zpow_nonneg by lia.
    replace (Z.to_nat n) with (S (Z.to_nat (n - 1))) by lia.
    rewrite npow_S.
    assert (Hp : npow a (Z.to_nat (n - 1)) ∈ els) by auto using npow_in.
    rewrite mul_assoc, mul_ginv_r, mul_e_r by auto using ginv_in. done.
Qed.

Lemma zpow_0 a : zpow a 0 = e.
Proof. reflexivity. Qed.

Lemma zpow_1 a : a ∈ els -> zpow a 1 = a.
Proof. intros Ha. rewrite zpow_nonneg by lia. by apply npow_1. Qed.

Lemma zpow_m1 a : a ∈ els -> zpow a (-1) = inv a.
Proof.
  intros Ha. rewrite zpow_nonpos by lia. apply npow_1. by apply ginv_in.
Qed.

(** The exponent law. *)
Lemma zpow_add a m n :
  a ∈ els -> zpow a (m + n) = mul (zpow a m) (zpow a n).
Proof.
  intros Ha.
  assert (Hup : forall k : nat,
    zpow a (m + Z.of_nat k) = mul (zpow a m) (zpow a (Z.of_nat k))).
  { induction k as [|k IH].
    - rewrite Z.add_0_r. symmetry. apply mul_e_r. by apply zpow_in.
    - rewrite Nat2Z.inj_succ. unfold Z.succ.
      rewrite Z.add_assoc, !zpow_succ, IH by done.
      apply mul_assoc; auto using zpow_in. }
  assert (Hdown : forall k : nat,
    zpow a (m - Z.of_nat k) = mul (zpow a m) (zpow a (- Z.of_nat k))).
  { induction k as [|k IH].
    - rewrite Z.sub_0_r. symmetry. apply mul_e_r. by apply zpow_in.
    - rewrite Nat2Z.inj_succ. unfold Z.succ.
      replace (m - (Z.of_nat k + 1))%Z with (m - Z.of_nat k - 1)%Z by lia.
      replace (- (Z.of_nat k + 1))%Z with (- Z.of_nat k - 1)%Z by lia.
      rewrite !zpow_pred, IH by done.
      apply mul_assoc; auto using zpow_in, ginv_in. }
  destruct (Z.le_gt_cases 0 n) as [Hn|Hn].
  - rewrite <- (Z2Nat.id n Hn). apply Hup.
  - replace n with (- Z.of_nat (Z.to_nat (- n)))%Z by lia.
    rewrite Z.add_opp_r. apply Hdown.
Qed.

(** *** The order of an element *)

Lemma npow_collision a i j :
  a ∈ els -> (i < j)%nat -> npow a i = npow a j -> npow a (j - i) = e.
Proof.
  intros Ha Hij H.
  apply (mul_cancel_r _ _ (npow a i)); auto using npow_in, e_in.
  rewrite <- npow_add by done.
  replace (j - i + i)%nat with j by lia.
  rewrite mul_e_l by auto using npow_in. done.
Qed.

Lemma element_order_spec a :
  a ∈ els ->
  (1 <= order_of a <= length els)%nat
  /\ npow a (order_of a) = e
  /\ forall j, (1 <= j < order_of a)%nat -> npow a j <> e.
Proof.
  intros Ha. unfold element_order.
  destruct (list_find _ _) as [[i k]|] eqn:F.
  - apply list_find_Some in F as (Hl & Hk & Hmin).
    apply lookup_seq in Hl as [-> Hi]. apply value_eqb_eq in Hk.
    split; [lia|]. split; [done|].
    intros j Hj Hje. apply (Hmin (j - 1)%nat j); [apply lookup_seq; lia|lia|].
    by apply value_eqb_eq.
  - exfalso.
    assert (Hnone : forall k, (1 <= k <= length els)%nat -> npow a k <> e).
    { intros k Hk Hke. rewrite list_find_None, Forall_forall in F.
      apply (F k); [apply elem_of_seq; lia|]. by apply value_eqb_eq. }
    assert (Hdup : NoDup (npow a <$> seq 0 (S (length els)))).
    { apply NoDup_fmap_2_strong; [|apply NoDup_seq].
      intros i j Hi Hj Heq. apply elem_of_seq in Hi, Hj.
      destruct (Nat.lt_trichotomy i j) as [Hlt|[->|Hlt]]; [|done|].
      - exfalso. apply (Hnone (j - i)%nat); [lia|].
        by apply npow_collision.
      - exfalso. apply (Hnone (i - j)%nat); [lia|].
        by apply npow_collision. }
    apply NoDup_submseteq with (k := els) in Hdup.
    + apply submseteq_length in Hdup.
      rewrite length_fmap, length_seq in Hdup. lia.
    + intros x Hx. apply list_elem_of_fmap in Hx as (k & -> & _).
      by apply npow_in.
Qed.
End group.

(** ** [identity()] is stable, and [inverse] in any store *)

Lemma identity_label_stable G i :
  identity_label G = Ok i -> identity_label (set_identity_value G i) = Ok i.
Proof.
  unfold identity_label. simpl. intros H.
  destruct (is_None i) eqn:Hi; [|done].
  destruct (is_None (_identity_value G)) eqn:Hc; [done|].
  injection H as <-. congruence.
Qed.

Lemma identity_run_settled s g G i :
  s !! g = Some G -> identity_label G = Ok i ->
  Group.identity g (store_cache g i s)
  = (Ok (mkGroupElement i g), store_cache g i s).
Proof.
  intros Hg Hi.
  rewrite (identity_run _ _ _ (store_cache_lookup g i s G Hg)).
  by rewrite (identity_label_stable G i Hi), store_cache_idem.
Qed.

Lemma inverse_search_run g a xs :
  forall s G i,
    s !! g = Some G -> identity_label G = Ok i ->
    (forall x, x ∈ xs ->
       exists c c', _operation G a x = Ok c /\ _operation G x a = Ok c') ->
    Group.inverse_search g a xs s
    = (match inverse_find (_operation G) i a xs with
       | Ok (Some x) => Ok (mkGroupElement x g)
       | Ok None => Raise (inverse_not_found a)
       | Raise x => Raise x
       end,
       match xs with
       | [] => s
       | _ => store_cache g i s
       end).
Proof.
  induction xs as [|x xs IH]; intros s G i Hg Hi Htot; [done|].
  destruct (Htot x ltac:(constructor)) as (c & c' & Hc & Hc').
  assert (Hrest : forall y, y ∈ xs ->
            exists d d', _operation (set_identity_value G i) a y = Ok d
                         /\ _operation (set_identity_value G i) y a = Ok d').
  { intros y Hy. apply Htot. by constructor. }
  pose proof (store_cache_lookup g i s G Hg) as Hg1.
  pose proof (identity_label_stable G i Hi) as Hi1.
  assert (Hnext : Group.inverse_search g a xs (store_cache g i s)
            = (match inverse_find (_operation G) i a xs with
               | Ok (Some x) => Ok (mkGroupElement x g)
               | Ok None => Raise (inverse_not_found a)
               | Raise x => Raise x
               end, store_cache g i s)).
  { rewrite (IH _ _ i Hg1 Hi1 Hrest). simpl. f_equal.
    destruct xs; [done|]. apply store_cache_idem. }
  simpl. unfold bind at 1. rewrite (operation_run s g G Hg), Hc.
  unfold bind at 1. rewrite (identity_run s g G Hg), Hi. simpl.
  destruct (value_eqb c i); [|exact Hnext].
  unfold bind at 1. rewrite (operation_run _ g _ Hg1). simpl. rewrite Hc'.
  unfold bind at 1. rewrite (identity_run_settled s g G i Hg Hi). simpl.
  destruct (value_eqb c' i); [done | exact Hnext].
Qed.

(** ** Running the methods on a well-formed group *)

Lemma operations_agree_run s g1 g2 G1 G2 :
  s !! g1 = Some G1 -> s !! g2 = Some G2 ->
  Group.operations_agree g1 g2 s
  = (operations_agree_r (_operation G1) (_operation G2) (element_values G1),
     s).
Proof.
  intros H1 H2. unfold Group.operations_agree.
  rewrite (bind_deref _ _ _ _ H1).
  apply all_m_pure. intros a _. apply all_m_pure. intros b _.
  rewrite (bind_deref _ _ _ _ H1), bind_lift.
  destruct (_operation G1 a b) as [r1|]; [|done]. simpl.
  rewrite (bind_deref _ _ _ _ H2), bind_lift.
  by destruct (_operation G2 a b).
Qed.

Lemma operations_agree_r_true op1 op2 els :
  operations_agree_r op1 op2 els = Ok true <->
  forall a b, a ∈ els -> b ∈ els ->
    exists v, op1 a b = Ok v /\ op2 a b = Ok v.
Proof.
  unfold operations_agree_r. rewrite all_r_true.
  split.
  - intros H a b Ha Hb. specialize (H a Ha). rewrite all_r_true in H.
    specialize (H b Hb).
    destruct (op1 a b) as [r1|]; [|done]. destruct (op2 a b) as [r2|]; [|done].
    injection H as H. apply value_eqb_eq in H. subst. by exists r2.
  - intros H a Ha. apply all_r_true. intros b Hb.
    destruct (H a b Ha Hb) as (v & -> & ->). simpl.
    by rewrite value_eqb_refl.
Qed.

(** [Group.__eq__] on two groups: it never returns [NotImplemented]. *)
Lemma group_method_run s g1 g2 G1 G2 :
  s !! g1 = Some G1 -> s !! g2 = Some G2 ->
  Group.__eq__ g1 (OGroup g2) s
  = (match group_eq_r G1 G2 with
     | Ok b => Ok (Result b)
     | Raise x => Raise x
     end, s).
Proof.
  intros H1 H2. unfold Group.__eq__, group_eq_r.
  rewrite (bind_deref _ _ _ _ H1), (bind_deref _ _ _ _ H2).
  destruct (negb _ || negb _); [done|].
  unfold bind. rewrite (operations_agree_run s g1 g2 G1 G2 H1 H2).
  by destruct (operations_agree_r _ _ _).
Qed.

Lemma groups_equal_pure s g1 g2 G1 G2 :
  s !! g1 = Some G1 -> s !! g2 = Some G2 ->
  GroupElement.groups_equal g1 g2 s = (groups_equal_r G1 G2, s).
Proof.
  intros H1 H2. unfold GroupElement.groups_equal, groups_equal_r.
  rewrite (bind_deref _ _ _ _ H1), (bind_deref _ _ _ _ H2).
  destruct (proper_subclass (class_of G2) (class_of G1)).
  - unfold bind. rewrite (group_method_run s g2 g1 G2 G1 H2 H1).
    by destruct (group_eq_r G2 G1).
  - unfold bind. rewrite (group_method_run s g1 g2 G1 G2 H1 H2).
    by destruct (group_eq_r G1 G2).
Qed.

Lemma group_eq_run s g1 g2 G1 G2 :
  s !! g1 = Some G1 -> s !! g2 = Some G2 ->
  py_eq (OGroup g1) (OGroup g2) s = (groups_equal_r G1 G2, s).
Proof. apply groups_equal_pure. Qed.

Lemma group_eq_r_true G1 G2 :
  group_eq_r G1 G2 = Ok true <->
  (forall x, x ∈ element_values G1 <-> x ∈ element_values G2)
  /\ _identity_value G1 = _identity_value G2
  /\ forall a b, a ∈ element_values G1 -> b ∈ element_values G1 ->
       exists v, _operation G1 a b = Ok v /\ _operation G2 a b = Ok v.
Proof.
  unfold group_eq_r.
  rewrite <- set_eqb_true, <- value_eqb_eq, <- operations_agree_r_true.
  destruct (set_eqb _ _), (value_eqb _ _); simpl;
    split; (intros [= ?] || intros (? & ? & ?)); done.
Qed.

(** The dispatch does not change when [==] is [True]: the conditions of
    [Group.__eq__] are symmetric in the two groups. *)
Lemma groups_equal_r_true G1 G2 :
  groups_equal_r G1 G2 = Ok true <->
  (forall x, x ∈ element_values G1 <-> x ∈ element_values G2)
  /\ _identity_value G1 = _identity_value G2
  /\ forall a b, a ∈ element_values G1 -> b ∈ element_values G1 ->
       exists v, _operation G1 a b = Ok v /\ _operation G2 a b = Ok v.
Proof.
  unfold groups_equal_r.
  destruct (proper_subclass _ _); [|apply group_eq_r_true].
  rewrite group_eq_r_true. split.
  - intros (Hs & Hi & Ho). split_and!; [by intros x; rewrite Hs | done |].
    intros a b Ha Hb. destruct (Ho a b) as (v & ? & ?); [by apply Hs..|].
    by exists v.
  - intros (Hs & Hi & Ho). split_and!; [by intros x; rewrite Hs | done |].
    intros a b Ha Hb. destruct (Ho a b) as (v & ? & ?); [by apply Hs..|].
    by exists v.
Qed.

Section running.
Variables (g : ref) (els : list value) (op : operation_t) (e : value)
          (nm : name_attr).
Hypothesis Hgrp : is_group els op e.

Let Hclosed : closed els op := proj1 Hgrp.
Let Hassoc : associative els op := proj1 (proj2 Hgrp).
Let Hid : two_sided_identity els op e := proj1 (proj2 (proj2 Hgrp)).
Let Hinv : forall a, a ∈ els -> exists b, b ∈ els /\ inverse_of op e a b :=
  proj2 (proj2 (proj2 Hgrp)).

#[local] Abbreviation mul := (gmul op).
#[local] Abbreviation inv := (ginv els op e).
#[local] Abbreviation npow := (gnpow op e).
#[local] Abbreviation zpow := (gzpow els op e).
#[local] Abbreviation order_of := (element_order els op e).
#[local] Abbreviation elem := (fun a => mkGroupElement a g).
#[local] Abbreviation holds := (holds g els op e nm).

Lemma holds_label s G :
  s !! g = Some G -> holds s -> identity_label G = Ok e.
Proof.
  intros Hg (c & Hc & Hs). rewrite Hg in Hs. injection Hs as ->.
  unfold identity_label. simpl.
  destruct Hc as [-> | ->].
  - simpl. rewrite (identity_find_group els op e Hgrp) by
      (done || apply Hid). done.
  - destruct (is_None e) eqn:He; [|done].
    rewrite (identity_find_group els op e Hgrp) by
      (done || apply Hid). done.
Qed.

Lemma holds_cache s : holds s -> holds (store_cache g e s).
Proof.
  intros (c & Hc & Hs). exists e. split; [by right|].
  by rewrite (store_cache_lookup _ _ _ _ Hs).
Qed.

Lemma identity_wf s :
  holds s -> Group.identity g s = (Ok (elem e), store_cache g e s).
Proof.
  intros H. pose proof H as (c & Hc & Hs).
  by rewrite (identity_run _ _ _ Hs), (holds_label _ _ Hs H).
Qed.

Lemma mul_wf s a b :
  holds s -> a ∈ els -> b ∈ els ->
  GroupElement.__mul__ (elem a) (elem b) s = (Ok (elem (mul a b)), s).
Proof.
  intros (c & Hc & Hs) Ha Hb. unfold GroupElement.__mul__. simpl.
  unfold bind. rewrite (operation_run _ _ _ Hs). simpl.
  by rewrite (op_mul els op e Hgrp).
Qed.

Lemma groups_equal_wf s :
  holds s -> GroupElement.groups_equal g g s = (Ok true, s).
Proof.
  intros (c & Hc & Hs). rewrite (groups_equal_pure s g g _ _ Hs Hs).
  f_equal. apply groups_equal_r_true. split_and!; [done..|].
  intros a b Ha Hb. exists (mul a b). cbn [_operation].
  by rewrite (op_mul els op e Hgrp a b Ha Hb).
Qed.

Lemma eq_wf s a b :
  holds s ->
  GroupElement.__eq__ (elem a) (OElement (elem b)) s
  = (Ok (value_eqb a b), s).
Proof.
  intros H. unfold GroupElement.__eq__. simpl. unfold bind at 1. simpl.
  destruct (value_eqb a b); [|done].
  unfold bind at 1. simpl. by apply groups_equal_wf.
Qed.

Lemma ne_wf s a b :
  holds s ->
  GroupElement.__ne__ (elem a) (OElement (elem b)) s
  = (Ok (negb (value_eqb a b)), s).
Proof.
  intros H. unfold GroupElement.__ne__, bind. by rewrite eq_wf.
Qed.

Lemma inverse_wf s a :
  holds s -> a ∈ els ->
  Group.inverse g a s = (Ok (elem (inv a)), store_cache g e s).
Proof.
  intros H Ha. pose proof H as (c & Hc & Hs).
  unfold Group.inverse. rewrite (bind_ok _ _ _ _ _ (deref_ok _ _ _ Hs)).
  simpl. rewrite (inverse_search_run g a els s _ e Hs (holds_label _ _ Hs H)).
  - simpl.
    destruct (ginv_spec els op e Hgrp a Ha) as (-> & Hin & _).
    f_equal. destruct els; [inversion Ha | done].
  - intros x Hx. simpl. exists (mul a x), (mul x a).
    by rewrite !(op_mul els op e Hgrp).
Qed.

Lemma pow_loop_wf s a k :
  holds s -> a ∈ els -> forall b, b ∈ els ->
  GroupElement.pow_loop (elem a) (elem b) k s
  = (Ok (elem (Nat.iter k (fun r => mul r a) b)), s).
Proof.
  intros H Ha. induction k as [|k IH]; intros b Hb; [done|].
  cbn [GroupElement.pow_loop].
  rewrite (bind_ok _ _ _ _ _ (mul_wf s b a H Hb Ha)).
  rewrite IH by (by apply (mul_in els op e Hgrp)).
  pose proof (Nat.iter_swap k _ (fun r => mul r a) b) as E.
  cbv beta in E. by rewrite E.
Qed.

Lemma pow_positive_wf s a n :
  holds s -> a ∈ els -> (0 < n)%Z ->
  GroupElement.pow_positive (elem a) n s
  = (Ok (elem (npow a (Z.to_nat n))), s).
Proof.
  intros H Ha Hn. unfold GroupElement.pow_positive.
  rewrite pow_loop_wf by done. do 2 f_equal.
  replace (Z.to_nat n) with (S (Z.to_nat (n - 1))) by lia.
  unfold gnpow.
  pose proof (Nat.iter_swap (Z.to_nat (n - 1)) _ (fun r => mul r a) e) as E.
  cbv beta in E. rewrite (mul_e_l els op e Hgrp a Ha) in E.
  by rewrite E.
Qed.

Lemma pow_wf s a n :
  holds s -> a ∈ els ->
  GroupElement.__pow__ (elem a) n s
  = (Ok (elem (zpow a n)),
     if (n >? 0)%Z then s else store_cache g e s).
Proof.
  intros H Ha. unfold GroupElement.__pow__, gzpow.
  destruct (Z.eqb_spec n 0) as [->|Hne]; [by apply identity_wf|].
  destruct (Z.gtb_spec n 0) as [Hpos|Hneg].
  - by apply pow_positive_wf.
  - unfold GroupElement.inverse. cbn [element group].
    rewrite (bind_ok _ _ _ _ _ (inverse_wf s a H Ha)).
    apply pow_positive_wf; [by apply holds_cache| |lia].
    by apply (ginv_in els op e Hgrp).
Qed.

Lemma order_loop_wf a :
  a ∈ els ->
  forall fuel k s,
    holds s -> (1 <= k <= order_of a)%nat -> (order_of a - k < fuel)%nat ->
    GroupElement.order_loop fuel (elem a) (elem (npow a k)) (Z.of_nat k) s
    = (Ok (Some (Z.of_nat (order_of a))), store_cache g e s).
Proof.
  intros Ha.
  destruct (element_order_spec els op e Hgrp a Ha)
    as (Hrange & Hord & Hmin).
  induction fuel as [|fuel IH]; intros k s H Hk Hfuel; [lia|].
  cbn [GroupElement.order_loop group].
  rewrite (bind_ok _ _ _ _ _ (identity_wf s H)).
  pose proof (holds_cache s H) as H1.
  rewrite (bind_ok _ _ _ _ _ (ne_wf _ (npow a k) e H1)).
  destruct (decide (k = order_of a)) as [->|Hlt].
  - rewrite Hord, value_eqb_refl. done.
  - assert (Hne : value_eqb (npow a k) e = false).
    { apply value_eqb_neq, Hmin. lia. }
    rewrite Hne. cbn [negb].
    rewrite (bind_ok _ _ _ _ _
               (mul_wf _ (npow a k) a H1
                  (npow_in els op e Hgrp a k Ha) Ha)).
    replace (Z.of_nat k + 1)%Z with (Z.of_nat (S k)) by lia.
    change (mul (npow a k) a) with (npow a (S k)).
    rewrite IH by (done || lia). by rewrite store_cache_idem.
Qed.

Lemma order_wf s a fuel :
  holds s -> a ∈ els -> (order_of a <= fuel)%nat ->
  GroupElement.order fuel (elem a) s
  = (Ok (Some (Z.of_nat (order_of a))), store_cache g e s).
Proof.
  intros H Ha Hfuel. unfold GroupElement.order.
  destruct (element_order_spec els op e Hgrp a Ha)
    as (Hrange & _).
  rewrite <- (npow_1 els op e Hgrp a Ha) at 2.
  change 1%Z with (Z.of_nat 1).
  apply order_loop_wf; (done || lia).
Qed.
End running.

Lemma well_formed_holds s g G :
  s !! g = Some G -> well_formed G ->
  exists e,
    is_group (element_values G) (_operation G) e
    /\ holds g (element_values G) (_operation G) e (name G) s.
Proof.
  intros Hg [[e Hgrp] Hcache]. exists e. split; [done|].
  exists (_identity_value G). split.
  - destruct Hcache as [?|Hc]; [by left|]. right.
    by apply (identity_unique _ _ e Hgrp).
  - by destruct G.
Qed.

(** ** Soundness of the checks *)

Lemma forallb_elem_of {A} (f : A -> bool) l :
  forallb f l = true <-> forall x, x ∈ l -> f x = true.
Proof. rewrite forallb_forall. by setoid_rewrite list_elem_of_In. Qed.

Lemma existsb_elem_of {A} (f : A -> bool) l :
  existsb f l = true <-> exists x, x ∈ l /\ f x = true.
Proof. rewrite existsb_exists. by setoid_rewrite list_elem_of_In. Qed.

Lemma res_is_true r v : res_is r v = true <-> r = Ok v.
Proof.
  destruct r as [c|x]; simpl; [|split; congruence].
  rewrite value_eqb_eq. split; congruence.
Qed.

Lemma closedb_sound els op : closedb els op = true -> closed els op.
Proof.
  unfold closedb. rewrite forallb_elem_of. intros H a b Ha Hb.
  specialize (H a Ha). rewrite forallb_elem_of in H. specialize (H b Hb).
  destruct (op a b) as [c|]; [|done]. exists c. split; [done|].
  by apply existsb_value_eqb.
Qed.

Lemma associativeb_sound els op :
  associativeb els op = true -> associative els op.
Proof.
  unfold associativeb. rewrite forallb_elem_of.
  intros H a b c ab bc Ha Hb Hc Hab Hbc.
  specialize (H a Ha). rewrite forallb_elem_of in H. specialize (H b Hb).
  rewrite forallb_elem_of in H. specialize (H c Hc).
  rewrite Hab, Hbc in H.
  destruct (op ab c) as [u|], (op a bc) as [v|]; try done.
  apply value_eqb_eq in H. by subst.
Qed.

Lemma two_sided_identityb_sound els op e :
  two_sided_identityb els op e = true -> two_sided_identity els op e.
Proof.
  unfold two_sided_identityb. rewrite andb_true_iff, forallb_elem_of.
  intros [Hin H]. split; [by apply existsb_value_eqb|].
  intros x Hx. specialize (H x Hx). apply andb_true_iff in H.
  by rewrite !res_is_true in H.
Qed.

Lemma inversesb_sound els op e :
  inversesb els op e = true ->
  forall a, a ∈ els -> exists b, b ∈ els /\ inverse_of op e a b.
Proof.
  unfold inversesb. rewrite forallb_elem_of. intros H a Ha.
  specialize (H a Ha). apply existsb_elem_of in H as (b & Hb & H).
  apply andb_true_iff in H. rewrite !res_is_true in H. by exists b.
Qed.

Lemma group_axiomsb_sound els op :
  group_axiomsb els op = true -> group_axioms els op.
Proof.
  unfold group_axiomsb. rewrite !andb_true_iff. intros [[Hc Ha] He].
  apply existsb_elem_of in He as (e & _ & He).
  apply andb_true_iff in He as [Hid Hinv]. exists e.
  split; [by apply closedb_sound|]. split; [by apply associativeb_sound|].
  split; [by apply two_sided_identityb_sound | by apply inversesb_sound].
Qed.

Lemma well_formedb_sound G : well_formedb G = true -> well_formed G.
Proof.
  unfold well_formedb. rewrite andb_true_iff, orb_true_iff.
  intros [Hax Hc]. split; [by apply group_axiomsb_sound|].
  destruct Hc as [Hc|Hc].
  - left. by destruct (_identity_value G).
  - right. by apply two_sided_identityb_sound.
Qed.


(** ** The identity laws *)

Lemma py_eq_elements x y : py_eq (OElement x) (OElement y)
                           = GroupElement.__eq__ x (OElement y).
Proof. reflexivity. Qed.

(** C1, as amended: in a group whose labels and operation satisfy the
    group axioms and whose cached identity value is unset or the identity,
    [identity()] returns the two-sided identity (the one its search over
    the element set finds), leaves it cached, returns the same label on
    every later call, and [e * G.identity() == e] and
    [G.identity() * e == e] evaluate to [True] for every element [e]. *)
Theorem identity_laws s g G a :
  s !! g = Some G -> well_formed G -> a ∈ element_values G ->
  exists e,
    two_sided_identity (element_values G) (_operation G) e
    /\ identity_find (_operation G) (element_values G) (element_values G)
       = Ok (Some e)
    /\ Group.identity g s = (Ok (mkGroupElement e g), store_cache g e s)
    /\ _identity_value <$> store_cache g e s !! g = Some e
    /\ Group.identity g (store_cache g e s)
       = (Ok (mkGroupElement e g), store_cache g e s)
    /\ fst (right_identity_law (mkGroupElement a g) s) = Ok true
    /\ fst (left_identity_law (mkGroupElement a g) s) = Ok true.
Proof.
  intros Hg Hwf Ha.
  destruct (well_formed_holds s g G Hg Hwf) as (e & Hgrp & H).
  pose proof (holds_cache _ _ _ _ _ s H) as H1.
  pose proof (identity_wf g _ _ e _ Hgrp s H) as Hrun.
  pose proof (proj1 (proj2 (proj2 Hgrp))) as Hid.
  exists e. split_and!.
  - done.
  - apply (identity_find_group _ _ e Hgrp); [done | apply Hid].
  - done.
  - by rewrite (store_cache_lookup _ _ _ _ Hg).
  - rewrite (identity_wf g _ _ e _ Hgrp _ H1).
    by rewrite store_cache_idem.
  - unfold right_identity_law. cbn [group].
    rewrite (bind_ok _ _ _ _ _ Hrun).
    rewrite (bind_ok _ _ _ _ _ (mul_wf g _ _ e _ Hgrp _ a e H1 Ha (proj1 Hid))).
    rewrite py_eq_elements, (eq_wf g _ _ e _ Hgrp _ _ _ H1).
    cbn [fst]. by rewrite (mul_e_r _ _ e Hgrp), value_eqb_refl.
  - unfold left_identity_law. cbn [group].
    rewrite (bind_ok _ _ _ _ _ Hrun).
    rewrite (bind_ok _ _ _ _ _ (mul_wf g _ _ e _ Hgrp _ e a H1 (proj1 Hid) Ha)).
    rewrite py_eq_elements, (eq_wf g _ _ e _ Hgrp _ _ _ H1).
    cbn [fst]. by rewrite (mul_e_l _ _ e Hgrp), value_eqb_refl.
Qed.

Lemma identity_laws_witness :
  [cyclic 4 VNone] !! 0%nat = Some (cyclic 4 VNone)
  /\ well_formed (cyclic 4 VNone)
  /\ VInt 1 ∈ element_values (cyclic 4 VNone)
  /\ fst (right_identity_law (mkGroupElement (VInt 1) 0%nat)
            [cyclic 4 VNone]) = Ok true.
Proof.
  assert (Hwf : well_formed (cyclic 4 VNone))
    by (apply well_formedb_sound; vm_compute; reflexivity).
  assert (Hin : VInt 1 ∈ element_values (cyclic 4 VNone))
    by (apply existsb_value_eqb; vm_compute; reflexivity).
  split; [reflexivity|]. split; [exact Hwf|]. split; [exact Hin|].
  destruct (identity_laws [cyclic 4 VNone] 0%nat (cyclic 4 VNone) (VInt 1)
              eq_refl Hwf Hin) as (e & _ & _ & _ & _ & _ & H & _).
  exact H.
Defined.

(** C1 as stated fails: the labels and operation of
    [Group([0, 1], lambda a, b: (a + b) % 2, identity_value=1)] (group [G5]
    of the test suite) satisfy the group axioms, yet [identity()] returns
    the supplied label [1] and [0 * G.identity() == 0] is [False]. *)
Lemma identity_laws_supplied_identity :
  ~ (forall s g G a,
       s !! g = Some G ->
       group_axioms (element_values G) (_operation G) ->
       a ∈ element_values G ->
       fst (right_identity_law (mkGroupElement a g) s) = Ok true).
Proof.
  intros H.
  specialize (H [cyclic 2 (VInt 1)] 0%nat (cyclic 2 (VInt 1)) (VInt 0) eq_refl).
  assert (Hax : group_axioms (element_values (cyclic 2 (VInt 1)))
                  (_operation (cyclic 2 (VInt 1))))
    by (apply group_axiomsb_sound; vm_compute; reflexivity).
  assert (Hin : VInt 0 ∈ element_values (cyclic 2 (VInt 1)))
    by (apply existsb_value_eqb; vm_compute; reflexivity).
  specialize (H Hax Hin). vm_compute in H. discriminate H.
Qed.

(** ** Inverses *)

Lemma all_r_ok {A} (f : A -> res bool) xs :
  (forall x, x ∈ xs -> exists b, f x = Ok b) -> exists b, all_r f xs = Ok b.
Proof.
  induction xs as [|x xs IH]; intros H; [by exists true|].
  destruct (H x ltac:(constructor)) as [b Hb]. simpl. rewrite Hb. simpl.
  destruct b; [|by exists false].
  apply IH. intros y Hy. apply H. by constructor.
Qed.

Lemma identity_test_ok op els c :
  total_on op els -> c ∈ els -> exists b, identity_test op els c = Ok b.
Proof.
  intros Htot Hc. apply all_r_ok. intros x Hx.
  destruct (Htot c x Hc Hx) as [u ->], (Htot x c Hx Hc) as [v Hv]. simpl.
  destruct (value_eqb u x); [|by eexists]. rewrite Hv. by eexists.
Qed.

Lemma identity_find_ok op els candidates :
  total_on op els -> (forall c, c ∈ candidates -> c ∈ els) ->
  exists r, identity_find op els candidates = Ok r.
Proof.
  intros Htot. induction candidates as [|c rest IH]; intros Hsub.
  - by exists None.
  - simpl.
    destruct (identity_test_ok op els c Htot (Hsub c ltac:(constructor)))
      as [b ->].
    simpl. destruct b; [by eexists|].
    apply IH. intros x Hx. apply Hsub. by constructor.
Qed.

(** When the operation does not raise on the elements, neither does
    [identity()]. *)
Lemma identity_label_ok G :
  total_on (_operation G) (element_values G) ->
  exists i, identity_label G = Ok i.
Proof.
  intros Htot. unfold identity_label.
  destruct (is_None (_identity_value G)); [|by eexists].
  destruct (identity_find_ok _ _ (element_values G) Htot ltac:(done))
    as [r ->].
  by eexists.
Qed.

Lemma find_first {A} (f : A -> bool) xs x :
  find f xs = Some x <->
  exists before after,
    xs = before ++ x :: after /\ f x = true
    /\ forall y, y ∈ before -> f y = false.
Proof.
  induction xs as [|z xs IH]; simpl.
  - split; [done|]. intros (before & after & H & _). by destruct before.
  - destruct (f z) eqn:Hz.
    + split.
      * intros [= ->]. exists [], xs. split_and!; [done..|].
        intros y Hy. inversion Hy.
      * intros ([|w before] & after & Hxs & Hx & Hmin).
        -- by injection Hxs as -> _.
        -- injection Hxs as <- _.
           rewrite (Hmin z ltac:(constructor)) in Hz. done.
    + rewrite IH. split.
      * intros (before & after & -> & Hx & Hmin).
        exists (z :: before), after. split_and!; [done..|].
        intros y Hy. inversion Hy; subst; auto.
      * intros ([|w before] & after & Hxs & Hx & Hmin).
        -- injection Hxs as <- _. congruence.
        -- injection Hxs as <- ->. exists before, after.
           split_and!; [done..|]. intros y Hy. apply Hmin. by constructor.
Qed.

Lemma accepts_true op i a x : accepts op i a x = true <-> inverse_of op i a x.
Proof.
  unfold accepts, inverse_of. by rewrite andb_true_iff, !res_is_true.
Qed.

Lemma inverse_find_find op i a xs :
  (forall x, x ∈ xs -> exists c c', op a x = Ok c /\ op x a = Ok c') ->
  inverse_find op i a xs = Ok (find (accepts op i a) xs).
Proof.
  induction xs as [|x xs IH]; intros Htot; [done|].
  destruct (Htot x ltac:(constructor)) as (c & c' & Hc & Hc').
  simpl. unfold accepts at 1. rewrite Hc, Hc'. simpl.
  rewrite IH by (intros y Hy; apply Htot; by constructor).
  by destruct (value_eqb c i), (value_eqb c' i).
Qed.

Lemma inverse_run s g G a i :
  s !! g = Some G -> identity_label G = Ok i ->
  (forall x, x ∈ element_values G ->
     exists c c', _operation G a x = Ok c /\ _operation G x a = Ok c') ->
  fst (Group.inverse g a s)
  = match find (accepts (_operation G) i a) (element_values G) with
    | Some x => Ok (mkGroupElement x g)
    | None => Raise (inverse_not_found a)
    end.
Proof.
  intros Hg Hi Htot. unfold Group.inverse.
  rewrite (bind_deref _ _ _ _ Hg).
  rewrite (inverse_search_run g a _ s G i Hg Hi Htot).
  by rewrite (inverse_find_find _ i a _ Htot).
Qed.

(** C2: for a group whose operation does not raise on [a] and the
    elements, [inverse(a)] returns the first element [x] of the element
    set with [operation(a, x) == identity] and
    [operation(x, a) == identity], and raises [ValueError] with the
    message naming [a] exactly when the element set has no such [x]; in a
    well-formed group [e * e.inverse() == G.identity()] and
    [e.inverse() * e == G.identity()] evaluate to [True]. *)
Theorem inverse_spec s g G a :
  s !! g = Some G ->
  total_on (_operation G) (a :: element_values G) ->
  exists i,
    fst (Group.identity g s) = Ok (mkGroupElement i g)
    /\ (forall x,
          fst (Group.inverse g a s) = Ok (mkGroupElement x g) <->
          exists before after,
            element_values G = before ++ x :: after
            /\ inverse_of (_operation G) i a x
            /\ forall y, y ∈ before -> ~ inverse_of (_operation G) i a y)
    /\ (fst (Group.inverse g a s) = Raise (inverse_not_found a) <->
        ~ exists x, x ∈ element_values G /\ inverse_of (_operation G) i a x)
    /\ (well_formed G -> a ∈ element_values G ->
        fst (right_inverse_law (mkGroupElement a g) s) = Ok true
        /\ fst (left_inverse_law (mkGroupElement a g) s) = Ok true).
Proof.
  intros Hg Htot.
  assert (Hels : total_on (_operation G) (element_values G)).
  { intros x y Hx Hy. apply Htot; by constructor. }
  assert (Hpairs : forall x, x ∈ element_values G ->
            exists c c', _operation G a x = Ok c /\ _operation G x a = Ok c').
  { intros x Hx.
    destruct (Htot a x ltac:(constructor) ltac:(by constructor)) as [c Hc].
    destruct (Htot x a ltac:(by constructor) ltac:(constructor)) as [c' Hc'].
    by exists c, c'. }
  destruct (identity_label_ok G Hels) as [i Hi]. exists i.
  pose proof (inverse_run s g G a i Hg Hi Hpairs) as Hrun.
  split_and!.
  - by rewrite (identity_run _ _ _ Hg), Hi.
  - intros x. rewrite Hrun.
    destruct (find _ _) as [y|] eqn:F.
    + split.
      * intros [= ->]. apply find_first in F as (before & after & ? & Hx & Hmin).
        exists before, after. split_and!; [done|by apply accepts_true|].
        intros z Hz Hacc. apply accepts_true in Hacc.
        by rewrite (Hmin z Hz) in Hacc.
      * intros (before & after & Hsplit & Hx & Hmin).
        assert (F' : find (accepts (_operation G) i a) (element_values G)
                     = Some x).
        { apply find_first. exists before, after.
          split_and!; [done|by apply accepts_true|].
          intros z Hz. destruct (accepts _ i a z) eqn:E; [|done].
          apply accepts_true in E. by destruct (Hmin z Hz). }
        congruence.
    + split; [done|]. intros (before & after & Hsplit & Hx & _).
      apply accepts_true in Hx.
      rewrite (find_none _ _ F x) in Hx; [done|].
      rewrite Hsplit. apply in_or_app. right. by left.
  - rewrite Hrun. destruct (find _ _) as [y|] eqn:F.
    + split; [done|]. intros Hno. exfalso. apply Hno. exists y.
      apply find_some in F as [Hy Hacc].
      split; [by apply list_elem_of_In | by apply accepts_true].
    + split; [|done]. intros _ (x & Hx & Hacc).
      apply accepts_true in Hacc. apply list_elem_of_In in Hx.
      by rewrite (find_none _ _ F x Hx) in Hacc.
  - intros Hwf Ha.
    destruct (well_formed_holds s g G Hg Hwf) as (e & Hgrp & H).
    pose proof (holds_cache _ _ _ _ _ s H) as H1.
    pose proof (inverse_wf g _ _ e _ Hgrp s a H Ha) as Hinv.
    pose proof (ginv_in _ _ e Hgrp a Ha) as Hin.
    pose proof (identity_wf g _ _ e _ Hgrp _ H1) as Hrun_id.
    rewrite store_cache_idem in Hrun_id.
    split.
    + unfold right_inverse_law, GroupElement.inverse. cbn [group element].
      rewrite (bind_ok _ _ _ _ _ Hinv).
      rewrite (bind_ok _ _ _ _ _ (mul_wf g _ _ e _ Hgrp _ _ _ H1 Ha Hin)).
      rewrite (bind_ok _ _ _ _ _ Hrun_id).
      rewrite py_eq_elements, (eq_wf g _ _ e _ Hgrp _ _ _ H1). cbn [fst].
      by rewrite (mul_ginv_r _ _ e Hgrp a Ha), value_eqb_refl.
    + unfold left_inverse_law, GroupElement.inverse. cbn [group element].
      rewrite (bind_ok _ _ _ _ _ Hinv).
      rewrite (bind_ok _ _ _ _ _ (mul_wf g _ _ e _ Hgrp _ _ _ H1 Hin Ha)).
      rewrite (bind_ok _ _ _ _ _ Hrun_id).
      rewrite py_eq_elements, (eq_wf g _ _ e _ Hgrp _ _ _ H1). cbn [fst].
      by rewrite (mul_ginv_l _ _ e Hgrp a Ha), value_eqb_refl.
Qed.

Lemma total_onb_sound op xs : total_onb op xs = true -> total_on op xs.
Proof.
  unfold total_onb. rewrite forallb_elem_of. intros H a b Ha Hb.
  specialize (H a Ha). rewrite forallb_elem_of in H. specialize (H b Hb).
  destruct (op a b) as [c|]; [by exists c | done].
Qed.

Lemma inverse_spec_witness :
  [cyclic 4 VNone] !! 0%nat = Some (cyclic 4 VNone)
  /\ total_on (_operation (cyclic 4 VNone))
       (VInt 1 :: element_values (cyclic 4 VNone))
  /\ exists i, fst (Group.identity 0%nat [cyclic 4 VNone])
               = Ok (mkGroupElement i 0%nat).
Proof.
  assert (Htot : total_on (_operation (cyclic 4 VNone))
                   (VInt 1 :: element_values (cyclic 4 VNone)))
    by (apply total_onb_sound; vm_compute; reflexivity).
  split; [reflexivity|]. split; [exact Htot|].
  destruct (inverse_spec [cyclic 4 VNone] 0%nat (cyclic 4 VNone) (VInt 1)
              eq_refl Htot) as (i & Hi & _).
  exists i. exact Hi.
Defined.

(** The cyclic group of order 4 of the test suite: the inverse of [1] is
    [3]; [5] is outside the element set and still has [3] accepted. *)
Example inverse_in_C4 :
  fst (Group.inverse 0%nat (VInt 1) [cyclic 4 (VInt 0)])
  = Ok (mkGroupElement (VInt 3) 0%nat).
Proof. reflexivity. Qed.

(** [Group([0, 1], max)] (group [G4] of the test suite, identity unset) is
    no group; [inverse(1)] raises the error, naming [1]. *)
Example inverse_not_found_message :
  fst (Group.inverse 0%nat (VInt 1)
         [mkGroupObj [VInt 0; VInt 1]
            (fun a b => match a, b with
                        | VInt x, VInt y => Ok (VInt (Z.max x y))
                        | _, _ => Raise TypeError
                        end) VNone NoAttr])
  = Raise (ValueError "Inverse not found for 1").
Proof. reflexivity. Qed.

(** ** Exponents *)

Lemma pow_run g els op e nm (Hgrp : is_group els op e) s a n :
  holds g els op e nm s -> a ∈ els ->
  exists s', holds g els op e nm s'
    /\ GroupElement.__pow__ (mkGroupElement a g) n s
       = (Ok (mkGroupElement (gzpow els op e a n) g), s').
Proof.
  intros H Ha. eexists. split; [|by apply (pow_wf g els op e nm Hgrp)].
  destruct (n >? 0)%Z; [done | by apply holds_cache].
Qed.

Lemma identity_run_wf g els op e nm (Hgrp : is_group els op e) s :
  holds g els op e nm s ->
  exists s', holds g els op e nm s'
    /\ Group.identity g s = (Ok (mkGroupElement e g), s').
Proof.
  intros H. eexists. split; [|by apply (identity_wf g els op e nm Hgrp)].
  by apply holds_cache.
Qed.

(** C3: in a well-formed group, [e ** 0 == G.identity()], [e ** 1 == e],
    [e ** (-1) == e.inverse()] and [e ** (m + n) == e ** m * e ** n]
    evaluate to [True] for every element [e] and all integers [m], [n];
    for [k > 0] the power is [k - 1] multiplications by [e] starting from
    [e], for [k < 0] it is [(e.inverse()) ** (-k)]. *)
Theorem exponent_laws s g G a m n :
  s !! g = Some G -> well_formed G -> a ∈ element_values G ->
  fst (power_is_identity (mkGroupElement a g) 0 s) = Ok true
  /\ fst (power_one_law (mkGroupElement a g) s) = Ok true
  /\ fst (power_minus_one_law (mkGroupElement a g) s) = Ok true
  /\ fst (power_sum_law (mkGroupElement a g) m n s) = Ok true
  /\ (forall k s', (0 < k)%Z ->
        GroupElement.__pow__ (mkGroupElement a g) k s'
        = GroupElement.pow_loop (mkGroupElement a g) (mkGroupElement a g)
            (Z.to_nat (k - 1)) s')
  /\ (forall k s', (k < 0)%Z ->
        GroupElement.__pow__ (mkGroupElement a g) k s'
        = (y <- GroupElement.inverse (mkGroupElement a g) ;;
           GroupElement.__pow__ y (- k)) s').
Proof.
  intros Hg Hwf Ha.
  destruct (well_formed_holds s g G Hg Hwf) as (e & Hgrp & H).
  set (els := element_values G) in *. set (op := _operation G) in *.
  set (nm := name G) in *.
  split_and!.
  - unfold power_is_identity. cbn [group].
    destruct (pow_run g els op e nm Hgrp s a 0 H Ha) as (s1 & H1 & E1).
    rewrite (bind_ok _ _ _ _ _ E1).
    destruct (identity_run_wf g els op e nm Hgrp s1 H1) as (s2 & H2 & E2).
    rewrite (bind_ok _ _ _ _ _ E2).
    rewrite py_eq_elements, (eq_wf g _ _ e _ Hgrp _ _ _ H2). cbn [fst].
    by rewrite value_eqb_refl.
  - unfold power_one_law.
    destruct (pow_run g els op e nm Hgrp s a 1 H Ha) as (s1 & H1 & E3).
    rewrite (bind_ok _ _ _ _ _ E3).
    rewrite py_eq_elements, (eq_wf g _ _ e _ Hgrp _ _ _ H1). cbn [fst].
    by rewrite (zpow_1 _ _ e Hgrp a Ha), value_eqb_refl.
  - unfold power_minus_one_law, GroupElement.inverse. cbn [group element].
    destruct (pow_run g els op e nm Hgrp s a (-1) H Ha) as (s1 & H1 & E4).
    rewrite (bind_ok _ _ _ _ _ E4).
    rewrite (bind_ok _ _ _ _ _ (inverse_wf g _ _ e _ Hgrp s1 a H1 Ha)).
    rewrite py_eq_elements,
      (eq_wf g _ _ e _ Hgrp _ _ _ (holds_cache _ _ _ _ _ _ H1)).
    cbn [fst]. by rewrite (zpow_m1 _ _ e Hgrp a Ha), value_eqb_refl.
  - unfold power_sum_law.
    destruct (pow_run g els op e nm Hgrp s a (m + n) H Ha) as (s1 & H1 & E5).
    rewrite (bind_ok _ _ _ _ _ E5).
    destruct (pow_run g els op e nm Hgrp s1 a m H1 Ha) as (s2 & H2 & E6).
    rewrite (bind_ok _ _ _ _ _ E6).
    destruct (pow_run g els op e nm Hgrp s2 a n H2 Ha) as (s3 & H3 & E7).
    rewrite (bind_ok _ _ _ _ _ E7).
    rewrite (bind_ok _ _ _ _ _
               (mul_wf g _ _ e _ Hgrp _ _ _ H3
                  (zpow_in _ _ e Hgrp a m Ha) (zpow_in _ _ e Hgrp a n Ha))).
    rewrite py_eq_elements, (eq_wf g _ _ e _ Hgrp _ _ _ H3). cbn [fst].
    by rewrite (zpow_add _ _ e Hgrp a m n Ha), value_eqb_refl.
  - intros k s' Hk. unfold GroupElement.__pow__.
    destruct (Z.eqb_spec k 0); [lia|].
    destruct (Z.gtb_spec k 0); [done | lia].
  - intros k s' Hk. unfold GroupElement.__pow__ at 1.
    destruct (Z.eqb_spec k 0); [lia|].
    destruct (Z.gtb_spec k 0); [lia|].
    unfold bind. destruct (GroupElement.inverse _ s') as [[y|x] s''];
      [|done].
    unfold GroupElement.__pow__.
    destruct (Z.eqb_spec (- k) 0); [lia|].
    destruct (Z.gtb_spec (- k) 0); [done | lia].
Qed.

Lemma exponent_laws_witness :
  [cyclic 4 VNone] !! 0%nat = Some (cyclic 4 VNone)
  /\ well_formed (cyclic 4 VNone)
  /\ VInt 1 ∈ element_values (cyclic 4 VNone)
  /\ fst (power_sum_law (mkGroupElement (VInt 1) 0%nat) (-2) 3
            [cyclic 4 VNone]) = Ok true.
Proof.
  assert (Hwf : well_formed (cyclic 4 VNone))
    by (apply well_formedb_sound; vm_compute; reflexivity).
  assert (Hin : VInt 1 ∈ element_values (cyclic 4 VNone))
    by (apply existsb_value_eqb; vm_compute; reflexivity).
  split; [reflexivity|]. split; [exact Hwf|]. split; [exact Hin|].
  apply (exponent_laws [cyclic 4 VNone] 0%nat (cyclic 4 VNone) (VInt 1)
           (-2) 3 eq_refl Hwf Hin).
Defined.

(** ** The order of an element *)

Lemma power_is_identity_run g els op e nm (Hgrp : is_group els op e) s a k :
  holds g els op e nm s -> a ∈ els ->
  fst (power_is_identity (mkGroupElement a g) (Z.of_nat k) s)
  = Ok (value_eqb (gnpow op e a k) e).
Proof.
  intros H Ha. unfold power_is_identity. cbn [group].
  destruct (pow_run g els op e nm Hgrp s a (Z.of_nat k) H Ha)
    as (s1 & H1 & E1).
  rewrite (bind_ok _ _ _ _ _ E1).
  destruct (identity_run_wf g els op e nm Hgrp s1 H1) as (s2 & H2 & E2).
  rewrite (bind_ok _ _ _ _ _ E2).
  rewrite py_eq_elements, (eq_wf g _ _ e _ Hgrp _ _ _ H2). cbn [fst].
  by rewrite (zpow_nonneg _ _ e a _ (Nat2Z.is_nonneg k)), Nat2Z.id.
Qed.

(** C4: in a well-formed (finite) group, [e.order()] terminates: with at
    least [k] evaluations of the loop test it returns [k], the smallest
    positive integer with [e ** k == G.identity()], and [k] is at most the
    number of elements; for an element that is the identity the very first
    test ends the loop, so the body is never entered and the order is 1. *)
Theorem order_spec s g G a :
  s !! g = Some G -> well_formed G -> a ∈ element_values G ->
  exists k : nat,
    (1 <= k <= length (element_values G))%nat
    /\ (forall fuel, (k <= fuel)%nat ->
          fst (GroupElement.order fuel (mkGroupElement a g) s)
          = Ok (Some (Z.of_nat k)))
    /\ fst (power_is_identity (mkGroupElement a g) (Z.of_nat k) s) = Ok true
    /\ (forall j, (1 <= j < k)%nat ->
          fst (power_is_identity (mkGroupElement a g) (Z.of_nat j) s)
          = Ok false)
    /\ (two_sided_identity (element_values G) (_operation G) a ->
          fst (GroupElement.order 1 (mkGroupElement a g) s) = Ok (Some 1%Z)).
Proof.
  intros Hg Hwf Ha.
  destruct (well_formed_holds s g G Hg Hwf) as (e & Hgrp & H).
  destruct (element_order_spec _ _ e Hgrp a Ha) as (Hrange & Hord & Hmin).
  exists (element_order (element_values G) (_operation G) e a).
  assert (Hrun : forall fuel,
    (element_order (element_values G) (_operation G) e a <= fuel)%nat ->
    fst (GroupElement.order fuel (mkGroupElement a g) s)
    = Ok (Some (Z.of_nat
                  (element_order (element_values G) (_operation G) e a)))).
  { intros fuel Hfuel.
    by rewrite (order_wf g _ _ e _ Hgrp s a fuel H Ha Hfuel). }
  split_and!.
  - apply Hrange.
  - apply Hrange.
  - done.
  - rewrite (power_is_identity_run g _ _ e _ Hgrp s a _ H Ha).
    by rewrite Hord, value_eqb_refl.
  - intros j Hj.
    rewrite (power_is_identity_run g _ _ e _ Hgrp s a _ H Ha).
    f_equal. by apply value_eqb_neq, Hmin.
  - intros Hida. apply (identity_unique _ _ e Hgrp) in Hida. subst a.
    assert (Hone : element_order (element_values G) (_operation G) e e
                   = 1%nat).
    { destruct (decide (element_order (element_values G) (_operation G) e e
                        = 1%nat)) as [|Hne]; [done|].
      destruct (Hmin 1%nat ltac:(lia)). by apply (npow_1 _ _ e Hgrp). }
    rewrite Hrun by lia. by rewrite Hone.
Qed.

Lemma order_spec_witness :
  [cyclic 4 VNone] !! 0%nat = Some (cyclic 4 VNone)
  /\ well_formed (cyclic 4 VNone)
  /\ VInt 1 ∈ element_values (cyclic 4 VNone)
  /\ exists k : nat,
       (1 <= k <= 4)%nat
       /\ forall fuel, (k <= fuel)%nat ->
            fst (GroupElement.order fuel (mkGroupElement (VInt 1) 0%nat)
                   [cyclic 4 VNone]) = Ok (Some (Z.of_nat k)).
Proof.
  assert (Hwf : well_formed (cyclic 4 VNone))
    by (apply well_formedb_sound; vm_compute; reflexivity).
  assert (Hin : VInt 1 ∈ element_values (cyclic 4 VNone))
    by (apply existsb_value_eqb; vm_compute; reflexivity).
  split; [reflexivity|]. split; [exact Hwf|]. split; [exact Hin|].
  destruct (order_spec [cyclic 4 VNone] 0%nat (cyclic 4 VNone) (VInt 1)
              eq_refl Hwf Hin) as (k & Hk & Hrun & _).
  exists k. split; [exact Hk | exact Hrun].
Defined.

(** The orders the test suite checks in the cyclic group of order 4. *)
Example order_in_C4 :
  fst (GroupElement.order 4 (mkGroupElement (VInt 1) 0%nat)
         [cyclic 4 (VInt 0)]) = Ok (Some 4%Z)
  /\ fst (GroupElement.order 1 (mkGroupElement (VInt 0) 0%nat)
            [cyclic 4 (VInt 0)]) = Ok (Some 1%Z).
Proof. split; reflexivity. Qed.

(** ** Equality of groups *)

(** C5: [G1 == G2] is [True] exactly when the element sets are equal as
    sets, the cached identity values are equal (both unset included) and
    the two operations return equal results on every ordered pair of
    elements; so two groups whose element lists are permutations of each
    other, with the same operation and equal identity values, are equal. *)
Theorem group_eq_spec s g1 g2 G1 G2 :
  s !! g1 = Some G1 -> s !! g2 = Some G2 ->
  (py_eq (OGroup g1) (OGroup g2) s = (Ok true, s) <->
     (forall x, x ∈ element_values G1 <-> x ∈ element_values G2)
     /\ _identity_value G1 = _identity_value G2
     /\ forall a b, a ∈ element_values G1 -> b ∈ element_values G1 ->
          exists v, _operation G1 a b = Ok v /\ _operation G2 a b = Ok v)
  /\ (Permutation (element_values G1) (element_values G2) ->
      _identity_value G1 = _identity_value G2 ->
      (forall a b, _operation G1 a b = _operation G2 a b) ->
      total_on (_operation G1) (element_values G1) ->
      py_eq (OGroup g1) (OGroup g2) s = (Ok true, s)).
Proof.
  intros H1 H2.
  assert (Hiff : py_eq (OGroup g1) (OGroup g2) s = (Ok true, s) <->
     (forall x, x ∈ element_values G1 <-> x ∈ element_values G2)
     /\ _identity_value G1 = _identity_value G2
     /\ forall a b, a ∈ element_values G1 -> b ∈ element_values G1 ->
          exists v, _operation G1 a b = Ok v /\ _operation G2 a b = Ok v).
  { rewrite (group_eq_run s g1 g2 G1 G2 H1 H2).
    rewrite <- groups_equal_r_true.
    split; [by intros [= ->] | by intros ->]. }
  split; [exact Hiff|].
  intros Hperm Hidv Hext Htot. apply Hiff. split_and!; [|done|].
  - intros x. by rewrite Hperm.
  - intros a b Ha Hb. destruct (Htot a b Ha Hb) as [v Hv].
    exists v. by rewrite <- Hext.
Qed.

(** Test case 8 of the test suite: [Group([0, 1], ...)] and
    [Group([1, 0], ...)]. *)
Lemma group_eq_spec_witness :
  let G1 := cyclic 2 (VInt 0) in
  let G7 := mkGroupObj [VInt 1; VInt 0] (add_mod 2) (VInt 0) NoAttr in
  [G1; G7] !! 0%nat = Some G1 /\ [G1; G7] !! 1%nat = Some G7
  /\ py_eq (OGroup 0%nat) (OGroup 1%nat) [G1; G7] = (Ok true, [G1; G7]).
Proof.
  intros G1 G7. split; [reflexivity|]. split; [reflexivity|].
  apply (proj2 (group_eq_spec [G1; G7] 0%nat 1%nat G1 G7 eq_refl eq_refl)).
  - apply perm_swap.
  - reflexivity.
  - reflexivity.
  - apply total_onb_sound. vm_compute. reflexivity.
Defined.

(** The cache is part of the comparison: after [identity()] ran on one of
    two groups built alike, they are no longer equal. *)
Example group_eq_after_identity :
  fst (py_eq (OGroup 0%nat) (OGroup 1%nat) [cyclic 2 VNone; cyclic 2 VNone])
  = Ok true
  /\ fst ((_ <- Group.identity 0%nat ;; py_eq (OGroup 0%nat) (OGroup 1%nat))
            [cyclic 2 VNone; cyclic 2 VNone]) = Ok false.
Proof. split; reflexivity. Qed.

(** A plain [Group] compared with a [NamedGroup]: the interpreter runs
    the [__eq__] of the [NamedGroup], whichever side it is on.  Here the
    method of the plain group would find the two operations different at
    [(0, 0)], while the method of the named group starts at [(1, 1)],
    where its operation raises. *)
Example group_eq_dispatch :
  let G := cyclic 2 (VInt 0) in
  let N := mkGroupObj [VInt 1; VInt 0] raising_on_one (VInt 0) (Attr None) in
  Group.__eq__ 0%nat (OGroup 1%nat) [G; N] = (Ok (Result false), [G; N])
  /\ py_eq (OGroup 0%nat) (OGroup 1%nat) [G; N] = (Raise IndexError, [G; N])
  /\ py_eq (OGroup 1%nat) (OGroup 0%nat) [G; N] = (Raise IndexError, [G; N]).
Proof. split_and!; vm_compute; reflexivity. Qed.

(** ** Direct products *)

Lemma map_m_deref s groups objs :
  Forall2 (fun g G => s !! g = Some G) groups objs ->
  map_m deref groups s = (Ok objs, s).
Proof.
  induction 1 as [|g G groups objs Hg _ IH]; [done|].
  simpl. rewrite (bind_deref _ _ _ _ Hg).
  by rewrite (bind_ok _ _ _ _ _ IH).
Qed.

Lemma identity_element_run s g G i :
  s !! g = Some G -> identity_label G = Ok i ->
  (e <- Group.identity g ;; ret (element e)) s = (Ok i, store_cache g i s).
Proof.
  intros Hg Hi. unfold bind. by rewrite (identity_run _ _ _ Hg), Hi.
Qed.

Lemma store_cache_length g v s : length (store_cache g v s) = length s.
Proof.
  unfold store_cache. destruct (s !! g); [|done]. apply length_insert.
Qed.

(** Caching the identity of one object leaves every object its labels,
    its operation, its name and the label [identity()] returns. *)
Lemma store_cache_other s A GA ia B GB ib :
  s !! A = Some GA -> identity_label GA = Ok ia ->
  s !! B = Some GB -> identity_label GB = Ok ib ->
  exists GB',
    store_cache A ia s !! B = Some GB'
    /\ identity_label GB' = Ok ib
    /\ element_values GB' = element_values GB
    /\ _operation GB' = _operation GB
    /\ name GB' = name GB.
Proof.
  intros HA Hia HB Hib. destruct (decide (A = B)) as [->|Hne].
  - rewrite HA in HB. injection HB as <-.
    assert (ia = ib) as <- by congruence.
    exists (set_identity_value GA ia).
    rewrite (store_cache_lookup _ _ _ _ HA).
    split_and!; try done. by apply identity_label_stable.
  - exists GB. unfold store_cache. rewrite HA.
    rewrite list_lookup_insert_ne by done. done.
Qed.

Lemma is_abelian_run s g G :
  s !! g = Some G ->
  Group.is_abelian g s
  = (operations_agree_r (_operation G) (fun a b => _operation G b a)
       (element_values G), s).
Proof.
  intros Hg. unfold Group.is_abelian. rewrite (bind_deref _ _ _ _ Hg).
  apply all_m_pure. intros a _. apply all_m_pure. intros b _.
  unfold bind. rewrite (operation_run _ _ _ Hg).
  destruct (_operation G a b); [|done].
  rewrite ?(operation_run _ _ _ Hg). by destruct (_operation G b a).
Qed.

Lemma is_abelian_true s g G :
  s !! g = Some G ->
  (fst (Group.is_abelian g s) = Ok true <->
   forall a b, a ∈ element_values G -> b ∈ element_values G ->
     exists v, _operation G a b = Ok v /\ _operation G b a = Ok v).
Proof.
  intros Hg. rewrite (is_abelian_run _ _ _ Hg). cbn [fst].
  apply operations_agree_r_true.
Qed.

Lemma cartesian_product_length ls :
  length (Group.cartesian_product ls)
  = foldr (fun l n => (length l * n)%nat) 1%nat ls.
Proof.
  induction ls as [|l ls IH]; [done|]. cbn [Group.cartesian_product foldr].
  rewrite <- IH. generalize (Group.cartesian_product ls) as rest.
  intros rest. induction l as [|x l IHl]; [done|].
  cbn [flat_map]. rewrite length_app, length_map, IHl. simpl. lia.
Qed.

Lemma elem_of_cartesian_product t ls :
  t ∈ Group.cartesian_product ls <-> Forall2 (fun x l => x ∈ l) t ls.
Proof.
  revert t. induction ls as [|l ls IH]; intros t.
  - simpl. rewrite list_elem_of_singleton. split.
    + intros ->. constructor.
    + by inversion 1.
  - cbn [Group.cartesian_product].
    rewrite list_elem_of_In, in_flat_map. split.
    + intros (x & Hx & Ht). apply in_map_iff in Ht as (rest & <- & Hrest).
      constructor; [by apply list_elem_of_In|].
      by apply IH, list_elem_of_In.
    + inversion 1 as [|x l' rest ls' Hx Hrest]; subst.
      exists x. split; [by apply list_elem_of_In|].
      apply in_map_iff. exists rest. split; [done|].
      by apply list_elem_of_In, IH.
Qed.

Lemma elem_of_product_pairs t l1 l2 :
  t ∈ map VTuple (Group.cartesian_product [l1; l2]) <->
  exists x y, t = VTuple [x; y] /\ x ∈ l1 /\ y ∈ l2.
Proof.
  rewrite list_elem_of_In, in_map_iff. split.
  - intros (items & <- & Hin).
    apply list_elem_of_In, elem_of_cartesian_product in Hin.
    inversion Hin as [|x l' rest ls' Hx Hrest]; subst.
    inversion Hrest as [|y l'' rest' ls'' Hy Hnil]; subst.
    inversion Hnil; subst. by exists x, y.
  - intros (x & y & -> & Hx & Hy). exists [x; y]. split; [done|].
    apply list_elem_of_In, elem_of_cartesian_product.
    repeat constructor; done.
Qed.

Lemma direct_product_operation_pair opA opB a1 b1 a2 b2 :
  Group.direct_product_operation [opA; opB]
    (VTuple [a1; b1]) (VTuple [a2; b2])
  = (c1 <~ opA a1 a2 ;; c2 <~ opB b1 b2 ;; Ok (VTuple [c1; c2])).
Proof.
  unfold Group.direct_product_operation. simpl.
  destruct (opA a1 a2); [|done]. simpl. by destruct (opB b1 b2).
Qed.

(** C6: for groups [A] and [B] whose operations do not raise on their
    elements, [direct_product(A, B)] returns a new group over the pairs
    [(x, y)], [x] in [A] and [y] in [B]; its order is
    [order(A) * order(B)]; its operation applies [A]'s operation to the
    first components and [B]'s to the second; its identity value is set
    at construction to the tuple of the labels that [A.identity()] and
    [B.identity()] return; and it is abelian when [A] and [B] are. *)
Theorem direct_product_spec s A B GA GB :
  s !! A = Some GA -> s !! B = Some GB ->
  total_on (_operation GA) (element_values GA) ->
  total_on (_operation GB) (element_values GB) ->
  exists ia ib s' P,
    fst (Group.identity A s) = Ok (mkGroupElement ia A)
    /\ fst (Group.identity B s) = Ok (mkGroupElement ib B)
    /\ Group.direct_product CGroup [A; B] s = (Ok (length s), s')
    /\ s' !! length s = Some P
    /\ _identity_value P = VTuple [ia; ib]
    /\ (forall t, t ∈ element_values P <->
          exists x y, t = VTuple [x; y]
                      /\ x ∈ element_values GA /\ y ∈ element_values GB)
    /\ (exists nA nB,
          fst (Group.order A s) = Ok nA /\ fst (Group.order B s) = Ok nB
          /\ fst (Group.order (length s) s') = Ok (nA * nB)%nat)
    /\ (forall a1 b1 a2 b2,
          _operation P (VTuple [a1; b1]) (VTuple [a2; b2])
          = (c1 <~ _operation GA a1 a2 ;;
             c2 <~ _operation GB b1 b2 ;;
             Ok (VTuple [c1; c2])))
    /\ (fst (Group.is_abelian A s) = Ok true ->
        fst (Group.is_abelian B s) = Ok true ->
        fst (Group.is_abelian (length s) s') = Ok true).
Proof.
  intros HA HB HtA HtB.
  destruct (identity_label_ok GA HtA) as [ia Hia].
  destruct (identity_label_ok GB HtB) as [ib Hib].
  destruct (store_cache_other s A GA ia B GB ib HA Hia HB Hib)
    as (GB' & HB' & Hib' & _).
  set (s1 := store_cache A ia s) in *.
  set (s2 := store_cache B ib s1).
  set (P := mkGroupObj
              (map VTuple (Group.cartesian_product
                             [element_values GA; element_values GB]))
              (Group.direct_product_operation
                 [_operation GA; _operation GB])
              (VTuple [ia; ib]) NoAttr).
  assert (Hlen : length s2 = length s).
  { unfold s2, s1. by rewrite !store_cache_length. }
  assert (HP : (s2 ++ [P]) !! length s = Some P).
  { by apply list_lookup_middle. }
  exists ia, ib, (s2 ++ [P]), P. split_and!.
  - by rewrite (identity_run _ _ _ HA), Hia.
  - by rewrite (identity_run _ _ _ HB), Hib.
  - unfold Group.direct_product.
    rewrite (bind_ok _ _ _ _ _ (map_m_deref s [A; B] [GA; GB]
               ltac:(repeat constructor; done))).
    rewrite (bind_ok _ _ s [ia; ib] s2).
    + unfold Group.__init__, new_object. by rewrite Hlen.
    + cbn [map_m].
      rewrite (bind_ok _ _ _ _ _ (identity_element_run s A GA ia HA Hia)).
      rewrite (bind_ok _ _ s1 [ib] s2); [done|].
      by rewrite (bind_ok _ _ _ _ _
                    (identity_element_run s1 B GB' ib HB' Hib')).
  - done.
  - done.
  - intros t. apply elem_of_product_pairs.
  - exists (length (element_values GA)), (length (element_values GB)).
    unfold Group.order.
    rewrite (bind_deref _ _ _ _ HA), (bind_deref _ _ _ _ HB),
      (bind_deref _ _ _ _ HP).
    split_and!; [done..|]. cbn [fst ret]. f_equal.
    cbn [element_values P]. rewrite length_map, cartesian_product_length.
    simpl. lia.
  - intros a1 b1 a2 b2. apply direct_product_operation_pair.
  - intros HabA HabB. apply (is_abelian_true _ _ _ HP).
    rewrite (is_abelian_true _ _ _ HA) in HabA.
    rewrite (is_abelian_true _ _ _ HB) in HabB.
    intros t1 t2 Ht1 Ht2.
    apply elem_of_product_pairs in Ht1 as (x1 & y1 & -> & Hx1 & Hy1).
    apply elem_of_product_pairs in Ht2 as (x2 & y2 & -> & Hx2 & Hy2).
    destruct (HabA x1 x2 Hx1 Hx2) as (u & Hu1 & Hu2).
    destruct (HabB y1 y2 Hy1 Hy2) as (v & Hv1 & Hv2).
    exists (VTuple [u; v]). cbn [_operation P].
    rewrite !direct_product_operation_pair.
    by rewrite Hu1, Hu2, Hv1, Hv2.
Qed.

(** The direct product of [C2] and [C3] of the test suite. *)
Lemma direct_product_spec_witness :
  let s := [cyclic 2 VNone; cyclic 3 VNone] in
  s !! 0%nat = Some (cyclic 2 VNone) /\ s !! 1%nat = Some (cyclic 3 VNone)
  /\ total_on (_operation (cyclic 2 VNone)) (element_values (cyclic 2 VNone))
  /\ total_on (_operation (cyclic 3 VNone)) (element_values (cyclic 3 VNone))
  /\ exists s', Group.direct_product CGroup [0; 1]%nat s = (Ok 2%nat, s').
Proof.
  intros s.
  assert (H2 : total_on (_operation (cyclic 2 VNone))
                 (element_values (cyclic 2 VNone)))
    by (apply total_onb_sound; vm_compute; reflexivity).
  assert (H3 : total_on (_operation (cyclic 3 VNone))
                 (element_values (cyclic 3 VNone)))
    by (apply total_onb_sound; vm_compute; reflexivity).
  split; [reflexivity|]. split; [reflexivity|].
  split; [exact H2|]. split; [exact H3|].
  destruct (direct_product_spec s 0%nat 1%nat _ _ eq_refl eq_refl H2 H3)
    as (ia & ib & s' & P & _ & _ & Hrun & _).
  exists s'. exact Hrun.
Defined.

(** The checks of the test suite on [C2 x C3]. *)
Example direct_product_C2_C3 :
  fst ((p <- Group.direct_product CGroup [0; 1]%nat ;;
        n <- Group.order p ;;
        ab <- Group.is_abelian p ;;
        i <- Group.identity p ;;
        x <- GroupElement.__mul__ (mkGroupElement (VTuple [VInt 1; VInt 0]) p)
               (mkGroupElement (VTuple [VInt 0; VInt 1]) p) ;;
        ret (n, ab, element i, element x))
         [cyclic 2 (VInt 0); cyclic 3 (VInt 0)])
  = Ok (6%nat, true, VTuple [VInt 0; VInt 0], VTuple [VInt 1; VInt 1]).
Proof. reflexivity. Qed.

(** C10: [direct_product()] with no factor does not fail; it returns a new
    group whose only element is the empty tuple, whose operation returns
    the empty tuple whatever its arguments, and whose identity value is
    the empty tuple. *)
Theorem direct_product_of_no_group s :
  let P := mkGroupObj [VTuple []] (Group.direct_product_operation [])
             (VTuple []) NoAttr in
  Group.direct_product CGroup [] s = (Ok (length s), s ++ [P])
  /\ (forall a b, _operation P a b = Ok (VTuple []))
  /\ Group.order (length s) (s ++ [P]) = (Ok 1%nat, s ++ [P])
  /\ Group.identity (length s) (s ++ [P])
     = (Ok (mkGroupElement (VTuple []) (length s)), s ++ [P]).
Proof.
  intros P.
  assert (HP : (s ++ [P]) !! length s = Some P) by by apply list_lookup_middle.
  split_and!.
  - reflexivity.
  - reflexivity.
  - unfold Group.order. by rewrite (bind_deref _ _ _ _ HP).
  - rewrite (identity_run _ _ _ HP). cbn.
    replace (VTuple []) with (_identity_value P) at 2 by done.
    by rewrite (store_cache_id _ _ _ HP).
Qed.

(** ** Semidirect products *)

Lemma elem_of_semidirect_elements t l1 l2 :
  t ∈ flat_map (fun n => map (fun h => VTuple [n; h]) l2) l1 <->
  exists n h, t = VTuple [n; h] /\ n ∈ l1 /\ h ∈ l2.
Proof.
  rewrite list_elem_of_In, in_flat_map. split.
  - intros (n & Hn & Ht). apply in_map_iff in Ht as (h & <- & Hh).
    exists n, h. by rewrite !list_elem_of_In.
  - intros (n & h & -> & Hn & Hh). exists n.
    split; [by apply list_elem_of_In|].
    apply in_map_iff. exists h. split; [done | by apply list_elem_of_In].
Qed.

(** C7: [semidirect_product(N, H, action)] returns a new group over the
    pairs [(n, h)], [n] in [N] and [h] in [H]; its operation on
    [(n1, h1)] and [(n2, h2)] is
    [(N.operation(n1, action(h1, n2)), H.operation(h1, h2))]; its identity
    value is unset at construction and the first [identity()] runs the
    search over the element set.  For [C4], [C2] and the negation action
    the product has order 8, is not abelian, and with [r = (1, 0)],
    [s = (0, 1)]: [r ** 4 == identity], [s ** 2 == identity] and
    [r * s != s * r]. *)
Theorem semidirect_product_spec s N H GN GH action :
  s !! N = Some GN -> s !! H = Some GH ->
  exists P,
    Group.semidirect_product CGroup N H action s
    = (Ok (length s), s ++ [P])
    /\ (forall t, t ∈ element_values P <->
          exists n h, t = VTuple [n; h]
                      /\ n ∈ element_values GN /\ h ∈ element_values GH)
    /\ (forall n1 h1 n2 h2,
          _operation P (VTuple [n1; h1]) (VTuple [n2; h2])
          = (m <~ action h1 n2 ;;
             n <~ _operation GN n1 m ;;
             h <~ _operation GH h1 h2 ;;
             Ok (VTuple [n; h])))
    /\ _identity_value P = VNone
    /\ Group.identity (length s) (s ++ [P])
       = match identity_find (_operation P) (element_values P)
                 (element_values P) with
         | Ok r => (Ok (mkGroupElement (default VNone r) (length s)),
                    store_cache (length s) (default VNone r) (s ++ [P]))
         | Raise x => (Raise x, s ++ [P])
         end
    /\ fst ((d <- Group.semidirect_product CGroup 0%nat 1%nat
                    negation_action ;;
             n <- Group.order d ;;
             ab <- Group.is_abelian d ;;
             r4 <- power_is_identity
                     (mkGroupElement (VTuple [VInt 1; VInt 0]) d) 4 ;;
             s2 <- power_is_identity
                     (mkGroupElement (VTuple [VInt 0; VInt 1]) d) 2 ;;
             rs <- do_not_commute
                     (mkGroupElement (VTuple [VInt 1; VInt 0]) d)
                     (mkGroupElement (VTuple [VInt 0; VInt 1]) d) ;;
             ret (n, ab, r4, s2, rs))
              [cyclic 4 (VInt 0); cyclic 2 (VInt 0)])
       = Ok (8%nat, false, true, true, true).
Proof.
  intros HN HH.
  set (P := mkGroupObj
              (flat_map (fun n => map (fun h => VTuple [n; h])
                                      (element_values GH))
                        (element_values GN))
              (Group.semidirect_product_operation
                 (_operation GN) (_operation GH) action)
              VNone NoAttr).
  assert (HP : (s ++ [P]) !! length s = Some P) by by apply list_lookup_middle.
  exists P. split_and!.
  - unfold Group.semidirect_product.
    by rewrite (bind_deref _ _ _ _ HN), (bind_deref _ _ _ _ HH).
  - intros t. apply elem_of_semidirect_elements.
  - reflexivity.
  - reflexivity.
  - rewrite (identity_run _ _ _ HP). unfold identity_label.
    cbn [_identity_value P is_None].
    by destruct (identity_find _ _ _).
  - vm_compute. reflexivity.
Qed.

(** The dihedral group of the test suite. *)
Lemma semidirect_product_spec_witness :
  let s := [cyclic 4 (VInt 0); cyclic 2 (VInt 0)] in
  s !! 0%nat = Some (cyclic 4 (VInt 0)) /\ s !! 1%nat = Some (cyclic 2 (VInt 0))
  /\ exists P, Group.semidirect_product CGroup 0%nat 1%nat negation_action s
               = (Ok 2%nat, s ++ [P]).
Proof.
  intros s. split; [reflexivity|]. split; [reflexivity|].
  destruct (semidirect_product_spec s 0%nat 1%nat _ _ negation_action
              eq_refl eq_refl) as (P & Hrun & _).
  exists P. exact Hrun.
Defined.

(** ** Comparisons with objects of other types *)

(** C8 holds for [Group] and fails for [GroupElement]: [Group.__eq__]
    answers [NotImplemented] to a value that is no [Group], and
    [G == v] is [False]; [GroupElement.__eq__] reads [other.element]
    without a type test, so comparing an element with such a value raises
    [AttributeError] (and so does [G == e], through the reflected
    call). *)
Theorem equality_with_foreign_types (x : GroupElement) (g : nat)
    (v : value) (s : list GroupObj) :
  Group.__eq__ g (OValue v) s = (Ok NotImplemented, s)
  /\ py_eq (OGroup g) (OValue v) s = (Ok false, s)
  /\ GroupElement.__eq__ x (OValue v) s
     = (Raise (AttributeError "element"), s)
  /\ py_eq (OElement x) (OValue v) s = (Raise (AttributeError "element"), s)
  /\ py_eq (OGroup g) (OElement x) s = (Raise (AttributeError "element"), s).
Proof. split_and!; reflexivity. Qed.

(** ** Names of direct products *)

(** C9 on concrete factors: names of named factors are joined by
    [" × "]; a plain [Group], which has no attribute [name], gets the
    placeholder; but a [NamedGroup] built without a name has the
    attribute, holding [None], so no placeholder is substituted and
    [join] raises [TypeError]. *)
Theorem named_direct_product_names :
  name_of_result
    (NamedGroup.direct_product [0; 1]%nat
       [named_cyclic 2 (Some "C2"); named_cyclic 3 (Some "C3")])
  = Ok (Attr (Some "C2 × C3"))
  /\ name_of_result
       (NamedGroup.direct_product [0; 1]%nat
          [cyclic 2 (VInt 0); named_cyclic 3 (Some "C3")])
     = Ok (Attr (Some "Group0 × C3"))
  /\ name_of_result
       (NamedGroup.direct_product [0; 1]%nat
          [named_cyclic 2 None; named_cyclic 3 (Some "C3")])
     = Raise TypeError.
Proof. split_and!; vm_compute; reflexivity. Qed.

(** Whatever the position, a factor whose [name] is [None] is passed to
    [join] as [None]. *)
Lemma getattr_name_None G i :
  name G = Attr None -> NamedGroup.getattr_name G i = None.
Proof. unfold NamedGroup.getattr_name. by intros ->. Qed.

Lemma join_None sep items :
  None ∈ items -> NamedGroup.join sep items = Raise TypeError.
Proof.
  unfold NamedGroup.join. induction items as [|[x|] items IH]; intros H.
  - inversion H.
  - simpl. inversion H as [|? ? ? H']; subst.
    specialize (IH H'). by destruct (NamedGroup.all_str items).
  - done.
Qed.

(** * Further properties of the code *)

(** ** [Group.identity] on any element list and operation *)

Lemma identity_test_true op els c :
  identity_test op els c = Ok true <->
  forall x, x ∈ els -> op c x = Ok x /\ op x c = Ok x.
Proof.
  unfold identity_test. rewrite all_r_true. split; intros H x Hx.
  - specialize (H x Hx). destruct (op c x) as [u|]; [|done]. simpl in H.
    destruct (value_eqb u x) eqn:Eu; [|done]. apply value_eqb_eq in Eu.
    destruct (op x c) as [v|]; [|done]. simpl in H. injection H as Ev.
    apply value_eqb_eq in Ev. by subst.
  - destruct (H x Hx) as [-> ->]. simpl. by rewrite !value_eqb_refl.
Qed.

Lemma identity_find_Some op els candidates e :
  identity_find op els candidates = Ok (Some e) ->
  e ∈ candidates /\ identity_test op els e = Ok true.
Proof.
  induction candidates as [|c rest IH]; [done|]. simpl.
  destruct (identity_test op els c) as [[|]|] eqn:T; simpl; try done.
  - intros [= ->]. split; [constructor | done].
  - intros H. destruct (IH H) as [Hin Ht]. split; [by constructor | done].
Qed.

Lemma identity_find_None op els candidates :
  identity_find op els candidates = Ok None ->
  forall c, c ∈ candidates -> identity_test op els c = Ok false.
Proof.
  induction candidates as [|c rest IH]; intros H x Hx; [inversion Hx|].
  simpl in H. destruct (identity_test op els c) as [[|]|] eqn:T; try done.
  inversion Hx; subst; [done | by apply IH].
Qed.

Lemma two_sided_identity_unique els op e e' :
  two_sided_identity els op e -> two_sided_identity els op e' -> e = e'.
Proof.
  intros [He H] [He' H'].
  destruct (H e' He') as [H1 _]. destruct (H' e He) as [_ H2]. congruence.
Qed.

(** X1: with the identity value unset and an operation that does not
    raise on the elements (no group axiom is needed), [identity()] returns
    the two-sided identity of the element set when there is one, and
    caches it; when there is none it returns the label [None] and leaves
    the store as it was, so the next call searches again. *)
Theorem identity_of_any_operation s g G :
  s !! g = Some G -> _identity_value G = VNone ->
  total_on (_operation G) (element_values G) ->
  (forall e, two_sided_identity (element_values G) (_operation G) e ->
     Group.identity g s
     = (Ok (mkGroupElement e g), <[g := set_identity_value G e]> s))
  /\ ((forall e, ~ two_sided_identity (element_values G) (_operation G) e) ->
      Group.identity g s = (Ok (mkGroupElement VNone g), s)).
Proof.
  intros Hg Hc Htot.
  destruct (identity_find_ok _ _ (element_values G) Htot ltac:(done))
    as [r Hr].
  assert (Hrun : Group.identity g s
                 = (Ok (mkGroupElement (default VNone r) g),
                    store_cache g (default VNone r) s)).
  { rewrite (identity_run _ _ _ Hg). unfold identity_label.
    by rewrite Hc, Hr. }
  split.
  - intros e He. destruct r as [e'|].
    + apply identity_find_Some in Hr as [Hin Ht].
      assert (e' = e) as ->.
      { apply (two_sided_identity_unique (element_values G) (_operation G));
          [|done]. split; [done|]. by apply identity_test_true. }
      rewrite Hrun. unfold store_cache. by rewrite Hg.
    + apply identity_find_None with (c := e) in Hr; [|apply He].
      destruct He as [_ He]. apply identity_test_true in He. congruence.
  - intros Hnone. destruct r as [e'|].
    + apply identity_find_Some in Hr as [Hin Ht]. destruct (Hnone e').
      split; [done|]. by apply identity_test_true.
    + rewrite Hrun. simpl. rewrite <- Hc. by rewrite (store_cache_id _ _ _ Hg).
Qed.

(** A constant operation on [[1, 2]] has no identity. *)
Lemma identity_of_any_operation_witness :
  let G := mkGroupObj [VInt 1; VInt 2] (fun _ _ => Ok (VInt 1)) VNone NoAttr in
  [G] !! 0%nat = Some G /\ _identity_value G = VNone
  /\ total_on (_operation G) (element_values G)
  /\ Group.identity 0%nat [G] = (Ok (mkGroupElement VNone 0%nat), [G]).
Proof.
  intros G.
  assert (Htot : total_on (_operation G) (element_values G))
    by (apply total_onb_sound; vm_compute; reflexivity).
  split; [reflexivity|]. split; [reflexivity|]. split; [exact Htot|].
  apply (proj2 (identity_of_any_operation [G] 0%nat G eq_refl eq_refl Htot)).
  intros e [_ He]. destruct (He (VInt 2)) as [He2 _].
  - apply existsb_value_eqb. vm_compute. reflexivity.
  - discriminate He2.
Defined.

(** X2: whenever [identity()] returns, a second call returns the same
    element and changes nothing; the first call changes at most the
    attribute [_identity_value] of its own object: the store keeps its
    size and every other object. *)
Theorem identity_idempotent s g x s' :
  Group.identity g s = (Ok x, s') ->
  Group.identity g s' = (Ok x, s')
  /\ group x = g
  /\ length s' = length s
  /\ (forall h, h <> g -> s' !! h = s !! h)
  /\ exists G, s !! g = Some G
               /\ s' !! g = Some (set_identity_value G (element x)).
Proof.
  intros Hrun. destruct (s !! g) as [G|] eqn:Hg.
  - rewrite (identity_run _ _ _ Hg) in Hrun.
    destruct (identity_label G) as [i|] eqn:Hi; [|done].
    injection Hrun as <- <-. split_and!.
    + by apply (identity_run_settled s g G i).
    + done.
    + apply store_cache_length.
    + intros h Hne. unfold store_cache. rewrite Hg.
      by apply list_lookup_insert_ne.
    + exists G. split; [done|]. by apply store_cache_lookup.
  - unfold Group.identity, bind, deref in Hrun. by rewrite Hg in Hrun.
Qed.

Lemma identity_idempotent_witness :
  Group.identity 0%nat [cyclic 3 VNone]
  = (Ok (mkGroupElement (VInt 0) 0%nat), [cyclic 3 (VInt 0)])
  /\ Group.identity 0%nat [cyclic 3 (VInt 0)]
     = (Ok (mkGroupElement (VInt 0) 0%nat), [cyclic 3 (VInt 0)]).
Proof.
  assert (H : Group.identity 0%nat [cyclic 3 VNone]
              = (Ok (mkGroupElement (VInt 0) 0%nat), [cyclic 3 (VInt 0)]))
    by (vm_compute; reflexivity).
  split; [exact H|].
  apply (identity_idempotent [cyclic 3 VNone] 0%nat _ _ H).
Defined.

(** ** Equality of groups and of elements *)

Lemma group_eq_true s g1 g2 G1 G2 :
  s !! g1 = Some G1 -> s !! g2 = Some G2 ->
  (py_eq (OGroup g1) (OGroup g2) s = (Ok true, s) <->
     (forall x, x ∈ element_values G1 <-> x ∈ element_values G2)
     /\ _identity_value G1 = _identity_value G2
     /\ forall a b, a ∈ element_values G1 -> b ∈ element_values G1 ->
          exists v, _operation G1 a b = Ok v /\ _operation G2 a b = Ok v).
Proof.
  intros H1 H2. rewrite (group_eq_run s g1 g2 G1 G2 H1 H2).
  rewrite <- groups_equal_r_true.
  split; [by intros [= ->] | by intros ->].
Qed.

Lemma groups_equal_run s g1 g2 G1 G2 :
  s !! g1 = Some G1 -> s !! g2 = Some G2 ->
  GroupElement.groups_equal g1 g2 s = py_eq (OGroup g1) (OGroup g2) s.
Proof.
  intros H1 H2. rewrite (group_eq_run s g1 g2 G1 G2 H1 H2).
  by apply groups_equal_pure.
Qed.

(** X3: [==] on groups is an equivalence: a group whose operation does
    not raise on its elements equals itself, and [G1 == G2] being [True]
    is symmetric and transitive, whatever the classes of the groups and
    so whichever operand's [__eq__] the interpreter runs. *)
Theorem group_eq_equivalence s g1 g2 g3 G1 G2 G3 :
  s !! g1 = Some G1 -> s !! g2 = Some G2 -> s !! g3 = Some G3 ->
  (total_on (_operation G1) (element_values G1) ->
     py_eq (OGroup g1) (OGroup g1) s = (Ok true, s))
  /\ (py_eq (OGroup g1) (OGroup g2) s = (Ok true, s) ->
      py_eq (OGroup g2) (OGroup g1) s = (Ok true, s))
  /\ (py_eq (OGroup g1) (OGroup g2) s = (Ok true, s) ->
      py_eq (OGroup g2) (OGroup g3) s = (Ok true, s) ->
      py_eq (OGroup g1) (OGroup g3) s = (Ok true, s)).
Proof.
  intros H1 H2 H3. split_and!.
  - intros Htot. apply (group_eq_true s g1 g1 G1 G1 H1 H1).
    split_and!; [done..|]. intros a b Ha Hb.
    destruct (Htot a b Ha Hb) as [v Hv]. by exists v.
  - rewrite (group_eq_true s g1 g2 G1 G2 H1 H2),
      (group_eq_true s g2 g1 G2 G1 H2 H1).
    intros (Hset & Hid & Hop). split_and!; [by intros x; rewrite Hset|done|].
    intros a b Ha Hb. apply Hset in Ha, Hb.
    destruct (Hop a b Ha Hb) as (v & Hv1 & Hv2). by exists v.
  - rewrite (group_eq_true s g1 g2 G1 G2 H1 H2),
      (group_eq_true s g2 g3 G2 G3 H2 H3),
      (group_eq_true s g1 g3 G1 G3 H1 H3).
    intros (Hset & Hid & Hop) (Hset' & Hid' & Hop').
    split_and!; [by intros x; rewrite Hset, Hset'|congruence|].
    intros a b Ha Hb. destruct (Hop a b Ha Hb) as (v & Hv1 & Hv2).
    apply Hset in Ha, Hb. destruct (Hop' a b Ha Hb) as (v' & Hv1' & Hv2').
    exists v. split; [done | congruence].
Qed.

Lemma group_eq_equivalence_witness :
  let G1 := cyclic 2 (VInt 0) in
  let G2 := mkGroupObj [VInt 1; VInt 0] (add_mod 2) (VInt 0) (Attr None) in
  let G3 := named_cyclic 2 (Some "C2") in
  let s := [G1; G2; G3] in
  total_on (_operation G1) (element_values G1)
  /\ py_eq (OGroup 0%nat) (OGroup 1%nat) s = (Ok true, s)
  /\ py_eq (OGroup 1%nat) (OGroup 2%nat) s = (Ok true, s)
  /\ py_eq (OGroup 0%nat) (OGroup 0%nat) s = (Ok true, s)
  /\ py_eq (OGroup 1%nat) (OGroup 0%nat) s = (Ok true, s)
  /\ py_eq (OGroup 0%nat) (OGroup 2%nat) s = (Ok true, s).
Proof.
  intros G1 G2 G3 s.
  assert (Htot : total_on (_operation G1) (element_values G1))
    by (apply total_onb_sound; vm_compute; reflexivity).
  assert (H12 : py_eq (OGroup 0%nat) (OGroup 1%nat) s = (Ok true, s))
    by (vm_compute; reflexivity).
  assert (H23 : py_eq (OGroup 1%nat) (OGroup 2%nat) s = (Ok true, s))
    by (vm_compute; reflexivity).
  destruct (group_eq_equivalence s 0%nat 1%nat 2%nat G1 G2 G3
              eq_refl eq_refl eq_refl) as (Hrefl & Hsym & Htrans).
  split_and!; [exact Htot | exact H12 | exact H23 | exact (Hrefl Htot)
               | exact (Hsym H12) | exact (Htrans H12 H23)].
Defined.

(** X4: the cache takes part in [==]: of two distinct group objects with
    the identity value unset, once [identity()] has returned a label other
    than [None] on the first, the first no longer equals the second,
    whatever their elements and operations. *)
Theorem group_eq_broken_by_cache s g1 g2 G1 G2 x s' :
  s !! g1 = Some G1 -> s !! g2 = Some G2 -> g1 <> g2 ->
  _identity_value G2 = VNone ->
  Group.identity g1 s = (Ok x, s') -> element x <> VNone ->
  py_eq (OGroup g1) (OGroup g2) s' = (Ok false, s').
Proof.
  intros H1 H2 Hne Hc2 Hrun Hx.
  rewrite (identity_run _ _ _ H1) in Hrun.
  destruct (identity_label G1) as [i|] eqn:Hi; [|done].
  injection Hrun as <- <-. simpl in Hx.
  assert (H2' : store_cache g1 i s !! g2 = Some G2).
  { unfold store_cache. rewrite H1. by rewrite list_lookup_insert_ne. }
  rewrite (group_eq_run _ g1 g2 _ G2 (store_cache_lookup _ _ _ _ H1) H2').
  assert (E1 : value_eqb i VNone = false) by by apply value_eqb_neq.
  assert (E2 : value_eqb VNone i = false) by by apply value_eqb_neq.
  unfold groups_equal_r, group_eq_r.
  cbn [_identity_value set_identity_value]. rewrite Hc2, E1, E2.
  destruct (proper_subclass _ _); by rewrite orb_true_r.
Qed.

Lemma group_eq_broken_by_cache_witness :
  let s := [cyclic 2 VNone; cyclic 2 VNone] in
  py_eq (OGroup 0%nat) (OGroup 1%nat) s = (Ok true, s)
  /\ py_eq (OGroup 0%nat) (OGroup 1%nat) [cyclic 2 (VInt 0); cyclic 2 VNone]
     = (Ok false, [cyclic 2 (VInt 0); cyclic 2 VNone]).
Proof.
  intros s. split; [vm_compute; reflexivity|].
  apply (group_eq_broken_by_cache s 0%nat 1%nat (cyclic 2 VNone)
           (cyclic 2 VNone) (mkGroupElement (VInt 0) 0%nat)).
  - reflexivity.
  - reflexivity.
  - lia.
  - reflexivity.
  - vm_compute. reflexivity.
  - discriminate.
Defined.

Lemma eq_same_group_run s g G a b :
  s !! g = Some G -> total_on (_operation G) (element_values G) ->
  GroupElement.__eq__ (mkGroupElement a g) (OElement (mkGroupElement b g)) s
  = (Ok (value_eqb a b), s).
Proof.
  intros Hg Htot. unfold GroupElement.__eq__. cbn. unfold bind at 1. cbn.
  destruct (value_eqb a b); [|done].
  rewrite (groups_equal_run s g g G G Hg Hg).
  apply (group_eq_true s g g G G Hg Hg). split_and!; [done..|].
  intros x y Hx Hy. destruct (Htot x y Hx Hy) as [v Hv]. by exists v.
Qed.

(** X5: for two elements of one group object, [==] compares the labels:
    when they differ the answer is [False] without any call of the
    operation; when they are equal and the operation does not raise on
    the elements the answer is [True]; [!=] is the negation. *)
Theorem element_eq_same_group s g G a b :
  s !! g = Some G ->
  (a <> b ->
     py_eq (OElement (mkGroupElement a g)) (OElement (mkGroupElement b g)) s
     = (Ok false, s))
  /\ (total_on (_operation G) (element_values G) ->
      py_eq (OElement (mkGroupElement a g)) (OElement (mkGroupElement b g)) s
      = (Ok (value_eqb a b), s)
      /\ GroupElement.__ne__ (mkGroupElement a g)
           (OElement (mkGroupElement b g)) s
         = (Ok (negb (value_eqb a b)), s)).
Proof.
  intros Hg.
  assert (Hne : value_eqb a b = false ->
            GroupElement.__eq__ (mkGroupElement a g)
              (OElement (mkGroupElement b g)) s = (Ok false, s)).
  { intros E. unfold GroupElement.__eq__. cbn. unfold bind. cbn.
    by rewrite E. }
  split.
  - intros Hab. rewrite py_eq_elements. by apply Hne, value_eqb_neq.
  - intros Htot. pose proof (eq_same_group_run s g G a b Hg Htot) as Heq.
    split; [by rewrite py_eq_elements|].
    unfold GroupElement.__ne__, bind. by rewrite Heq.
Qed.

Lemma element_eq_same_group_witness :
  [cyclic 4 (VInt 0)] !! 0%nat = Some (cyclic 4 (VInt 0))
  /\ VInt 0 <> VInt 1
  /\ py_eq (OElement (mkGroupElement (VInt 0) 0%nat))
       (OElement (mkGroupElement (VInt 1) 0%nat)) [cyclic 4 (VInt 0)]
     = (Ok false, [cyclic 4 (VInt 0)]).
Proof.
  assert (Hne : VInt 0 <> VInt 1) by discriminate.
  split; [reflexivity|]. split; [exact Hne|].
  apply (proj1 (element_eq_same_group [cyclic 4 (VInt 0)] 0%nat
                  (cyclic 4 (VInt 0)) (VInt 0) (VInt 1) eq_refl) Hne).
Defined.

(** ** [is_abelian] *)

Lemma operations_agree_r_ok op1 op2 els :
  (forall a b, a ∈ els -> b ∈ els ->
     exists v w, op1 a b = Ok v /\ op2 a b = Ok w) ->
  exists r, operations_agree_r op1 op2 els = Ok r.
Proof.
  intros H. apply all_r_ok. intros a Ha. apply all_r_ok. intros b Hb.
  destruct (H a b Ha Hb) as (v & w & -> & ->). by eexists.
Qed.

(** X6: on a group whose operation does not raise on its elements,
    [is_abelian()] returns a boolean and leaves the store unchanged; it is
    [True] exactly when [operation(a, b)] and [operation(b, a)] agree on
    all pairs of elements, and then [a * b != b * a] is [False] for all
    elements. *)
Theorem is_abelian_decides s g G :
  s !! g = Some G -> total_on (_operation G) (element_values G) ->
  exists r,
    Group.is_abelian g s = (Ok r, s)
    /\ (r = true <->
        forall a b, a ∈ element_values G -> b ∈ element_values G ->
          _operation G a b = _operation G b a)
    /\ (r = true ->
        forall a b, a ∈ element_values G -> b ∈ element_values G ->
          do_not_commute (mkGroupElement a g) (mkGroupElement b g) s
          = (Ok false, s)).
Proof.
  intros Hg Htot.
  destruct (operations_agree_r_ok (_operation G)
              (fun a b => _operation G b a) (element_values G)) as [r Hr].
  { intros a b Ha Hb. destruct (Htot a b Ha Hb) as [v Hv].
    destruct (Htot b a Hb Ha) as [w Hw]. by exists v, w. }
  assert (Hiff : r = true <->
            forall a b, a ∈ element_values G -> b ∈ element_values G ->
              _operation G a b = _operation G b a).
  { split.
    - intros ->.
      pose proof (proj1 (operations_agree_r_true (_operation G)
                           (fun a b => _operation G b a) _) Hr) as Hr'.
      intros a b Ha Hb. destruct (Hr' a b Ha Hb) as (v & H1 & H2).
      cbv beta in H2. congruence.
    - intros Hcomm.
      assert (Ht : operations_agree_r (_operation G)
                     (fun a b => _operation G b a) (element_values G)
                   = Ok true).
      { apply (proj2 (operations_agree_r_true (_operation G)
                          (fun a b => _operation G b a) _)).
        intros a b Ha Hb. destruct (Htot a b Ha Hb) as [v Hv]. exists v.
        split; [done|]. cbv beta. by rewrite <- Hcomm. }
      congruence. }
  exists r. split_and!.
  - by rewrite (is_abelian_run _ _ _ Hg), Hr.
  - exact Hiff.
  - intros Hrt a b Ha Hb. destruct (Htot b a Hb Ha) as [v Hv].
    pose proof (proj1 Hiff Hrt a b Ha Hb) as Hab. rewrite Hv in Hab.
    unfold do_not_commute, GroupElement.__mul__. cbn [group element].
    unfold bind at 1 2. rewrite (operation_run _ _ _ Hg), Hab. cbn.
    unfold bind at 1 2. rewrite (operation_run _ _ _ Hg), Hv. cbn.
    unfold GroupElement.__ne__, bind.
    rewrite (eq_same_group_run s g G _ _ Hg Htot).
    by rewrite value_eqb_refl.
Qed.

Lemma is_abelian_decides_witness :
  [cyclic 4 VNone] !! 0%nat = Some (cyclic 4 VNone)
  /\ total_on (_operation (cyclic 4 VNone)) (element_values (cyclic 4 VNone))
  /\ exists r, Group.is_abelian 0%nat [cyclic 4 VNone]
               = (Ok r, [cyclic 4 VNone]).
Proof.
  assert (Htot : total_on (_operation (cyclic 4 VNone))
                   (element_values (cyclic 4 VNone)))
    by (apply total_onb_sound; vm_compute; reflexivity).
  split; [reflexivity|]. split; [exact Htot|].
  destruct (is_abelian_decides [cyclic 4 VNone] 0%nat _ eq_refl Htot)
    as (r & Hr & _).
  exists r. exact Hr.
Defined.

(** ** Positive powers *)

Lemma bind_assoc {A B C} (m : M A) (f : A -> M B) (k : B -> M C) s :
  bind (bind m f) k s = bind m (fun a => bind (f a) k) s.
Proof. unfold bind. by destruct (m s) as [[a|x] s']. Qed.

Lemma bind_ext {A B} (m : M A) (f k : A -> M B) s :
  (forall a s', f a s' = k a s') -> bind m f s = bind m k s.
Proof. intros H. unfold bind. destruct (m s) as [[a|x] s']; [apply H|done]. Qed.

Lemma pow_loop_snoc x k :
  forall r s,
    GroupElement.pow_loop x r (S k) s
    = (p <- GroupElement.pow_loop x r k ;; GroupElement.__mul__ p x) s.
Proof.
  induction k as [|k IH]; intros r s.
  - cbn [GroupElement.pow_loop]. rewrite bind_ret. unfold bind.
    by destruct (GroupElement.__mul__ r x s) as [[p|e] s'].
  - change (GroupElement.pow_loop x r (S (S k)))
      with (r' <- GroupElement.__mul__ r x ;;
            GroupElement.pow_loop x r' (S k)).
    change (GroupElement.pow_loop x r (S k))
      with (r' <- GroupElement.__mul__ r x ;; GroupElement.pow_loop x r' k).
    rewrite bind_assoc. apply bind_ext. intros r' s'. apply IH.
Qed.

Lemma mul_store x y s : snd (GroupElement.__mul__ x y s) = s.
Proof.
  unfold GroupElement.__mul__, Group.operation, bind, deref, lift.
  destruct (s !! group x) as [G|]; [|done].
  by destruct (_operation G (element x) (element y)).
Qed.

Lemma pow_loop_store x k : forall r s, snd (GroupElement.pow_loop x r k s) = s.
Proof.
  induction k as [|k IH]; intros r s; [done|].
  cbn [GroupElement.pow_loop]. unfold bind.
  pose proof (mul_store r x s) as Hm.
  destruct (GroupElement.__mul__ r x s) as [[r'|e] s']; simpl in Hm; subst.
  - apply IH.
  - done.
Qed.

(** X7: for every exponent [n > 0], whatever the group and even when the
    operation raises, [e ** (n + 1)] computes [e ** n] and multiplies it
    by [e] on the right, and a positive power leaves the store as it is:
    it never looks up or caches the identity. *)
Theorem pow_successor x n s :
  (0 < n)%Z ->
  GroupElement.__pow__ x (n + 1) s
  = (p <- GroupElement.__pow__ x n ;; GroupElement.__mul__ p x) s
  /\ snd (GroupElement.__pow__ x n s) = s.
Proof.
  intros Hn. unfold GroupElement.__pow__.
  destruct (Z.eqb_spec (n + 1) 0); [lia|].
  destruct (Z.gtb_spec (n + 1) 0); [|lia].
  destruct (Z.eqb_spec n 0); [lia|].
  destruct (Z.gtb_spec n 0); [|lia].
  unfold GroupElement.pow_positive. split.
  - replace (Z.to_nat (n + 1 - 1)) with (S (Z.to_nat (n - 1))) by lia.
    apply pow_loop_snoc.
  - apply pow_loop_store.
Qed.

Lemma pow_successor_witness :
  (0 < 2)%Z
  /\ GroupElement.__pow__ (mkGroupElement (VInt 1) 0%nat) (2 + 1)
       [cyclic 4 VNone]
     = (p <- GroupElement.__pow__ (mkGroupElement (VInt 1) 0%nat) 2 ;;
        GroupElement.__mul__ p (mkGroupElement (VInt 1) 0%nat))
         [cyclic 4 VNone].
Proof.
  assert (H : (0 < 2)%Z) by lia.
  split; [exact H|].
  apply (pow_successor (mkGroupElement (VInt 1) 0%nat) 2 [cyclic 4 VNone] H).
Defined.

(** ** Inverses compose *)

Lemma ginv_unique els op e (Hgrp : is_group els op e) x y :
  x ∈ els -> y ∈ els -> gmul op x y = e -> y = ginv els op e x.
Proof.
  intros Hx Hy H. pose proof (ginv_in _ _ e Hgrp x Hx) as Hi.
  transitivity (gmul op (gmul op (ginv els op e x) x) y).
  - rewrite (mul_ginv_l _ _ e Hgrp x Hx). symmetry.
    by apply (mul_e_l _ _ e Hgrp).
  - rewrite (mul_assoc _ _ e Hgrp) by done. rewrite H.
    by apply (mul_e_r _ _ e Hgrp).
Qed.

Lemma ginv_ginv els op e (Hgrp : is_group els op e) a :
  a ∈ els -> ginv els op e (ginv els op e a) = a.
Proof.
  intros Ha. symmetry. apply (ginv_unique els op e Hgrp); [|done|].
  - by apply (ginv_in _ _ e Hgrp).
  - by apply (mul_ginv_l _ _ e Hgrp).
Qed.

Lemma ginv_mul els op e (Hgrp : is_group els op e) a b :
  a ∈ els -> b ∈ els ->
  ginv els op e (gmul op a b)
  = gmul op (ginv els op e b) (ginv els op e a).
Proof.
  intros Ha Hb.
  pose proof (ginv_in _ _ e Hgrp a Ha) as Hia.
  pose proof (ginv_in _ _ e Hgrp b Hb) as Hib.
  symmetry. apply (ginv_unique els op e Hgrp).
  - by apply (mul_in _ _ e Hgrp).
  - by apply (mul_in _ _ e Hgrp).
  - rewrite (mul_assoc _ _ e Hgrp a b) by
      (done || by apply (mul_in _ _ e Hgrp)).
    rewrite <- (mul_assoc _ _ e Hgrp b) by done.
    rewrite (mul_ginv_r _ _ e Hgrp b Hb), (mul_e_l _ _ e Hgrp) by done.
    by apply (mul_ginv_r _ _ e Hgrp).
Qed.

(** X8: in a well-formed group, taking the inverse twice gives the
    element back, [e.inverse().inverse() == e], and the inverse of a
    product is the product of the inverses in the opposite order,
    [(a * b).inverse() == b.inverse() * a.inverse()]. *)
Theorem inverse_laws s g G a b :
  s !! g = Some G -> well_formed G ->
  a ∈ element_values G -> b ∈ element_values G ->
  fst (inverse_round_trip (mkGroupElement a g) s) = Ok true
  /\ fst (inverse_of_product (mkGroupElement a g) (mkGroupElement b g) s)
     = Ok true.
Proof.
  intros Hg Hwf Ha Hb.
  destruct (well_formed_holds s g G Hg Hwf) as (e & Hgrp & H).
  pose proof (holds_cache _ _ _ _ _ s H) as H1.
  pose proof (holds_cache _ _ _ _ _ _ H1) as H2.
  pose proof (holds_cache _ _ _ _ _ _ H2) as H3.
  pose proof (ginv_in _ _ e Hgrp a Ha) as Hia.
  pose proof (ginv_in _ _ e Hgrp b Hb) as Hib.
  pose proof (mul_in _ _ e Hgrp a b Ha Hb) as Hab.
  split.
  - unfold inverse_round_trip, GroupElement.inverse. cbn [group element].
    rewrite (bind_ok _ _ _ _ _ (inverse_wf g _ _ e _ Hgrp s a H Ha)).
    rewrite (bind_ok _ _ _ _ _ (inverse_wf g _ _ e _ Hgrp _ _ H1 Hia)).
    rewrite py_eq_elements, (eq_wf g _ _ e _ Hgrp _ _ _ H2). cbn [fst].
    by rewrite (ginv_ginv _ _ e Hgrp a Ha), value_eqb_refl.
  - unfold inverse_of_product, GroupElement.inverse. cbn [group element].
    rewrite (bind_ok _ _ _ _ _ (mul_wf g _ _ e _ Hgrp s a b H Ha Hb)).
    cbn [group element].
    rewrite (bind_ok _ _ _ _ _ (inverse_wf g _ _ e _ Hgrp s _ H Hab)).
    rewrite (bind_ok _ _ _ _ _ (inverse_wf g _ _ e _ Hgrp _ b H1 Hb)).
    rewrite (bind_ok _ _ _ _ _ (inverse_wf g _ _ e _ Hgrp _ a H2 Ha)).
    rewrite (bind_ok _ _ _ _ _ (mul_wf g _ _ e _ Hgrp _ _ _ H3 Hib Hia)).
    rewrite py_eq_elements, (eq_wf g _ _ e _ Hgrp _ _ _ H3). cbn [fst].
    by rewrite (ginv_mul _ _ e Hgrp a b Ha Hb), value_eqb_refl.
Qed.

Lemma inverse_laws_witness :
  [cyclic 4 VNone] !! 0%nat = Some (cyclic 4 VNone)
  /\ well_formed (cyclic 4 VNone)
  /\ VInt 1 ∈ element_values (cyclic 4 VNone)
  /\ VInt 2 ∈ element_values (cyclic 4 VNone)
  /\ fst (inverse_round_trip (mkGroupElement (VInt 1) 0%nat)
            [cyclic 4 VNone]) = Ok true.
Proof.
  assert (Hwf : well_formed (cyclic 4 VNone))
    by (apply well_formedb_sound; vm_compute; reflexivity).
  assert (H1 : VInt 1 ∈ element_values (cyclic 4 VNone))
    by (apply existsb_value_eqb; vm_compute; reflexivity).
  assert (H2 : VInt 2 ∈ element_values (cyclic 4 VNone))
    by (apply existsb_value_eqb; vm_compute; reflexivity).
  split; [reflexivity|]. split; [exact Hwf|]. split; [exact H1|].
  split; [exact H2|].
  apply (inverse_laws [cyclic 4 VNone] 0%nat (cyclic 4 VNone) (VInt 1)
           (VInt 2) eq_refl Hwf H1 H2).
Defined.

(** ** [order()] without an identity to reach *)

Lemma order_loop_never_exits g a els op i :
  closed els op -> i ∉ els -> a ∈ els ->
  forall fuel p k s G,
    s !! g = Some G -> element_values G = els -> _operation G = op ->
    identity_label G = Ok i -> p ∈ els ->
    fst (GroupElement.order_loop fuel (mkGroupElement a g)
           (mkGroupElement p g) k s) = Ok None.
Proof.
  intros Hclosed Hi Ha.
  induction fuel as [|fuel IH]; intros p k s G Hg Hels Hop Hlab Hp; [done|].
  cbn [GroupElement.order_loop group].
  unfold bind at 1. rewrite (identity_run _ _ _ Hg), Hlab.
  pose proof (store_cache_lookup g i s G Hg) as Hg1.
  assert (Hpi : value_eqb p i = false).
  { apply value_eqb_neq. intros ->. by apply Hi. }
  unfold bind at 1. unfold GroupElement.__ne__, GroupElement.__eq__.
  cbn. unfold bind at 1. cbn. rewrite Hpi. cbn.
  unfold GroupElement.__mul__. cbn [group element].
  unfold bind at 1 2. rewrite (operation_run _ _ _ Hg1).
  cbn [_operation set_identity_value]. rewrite Hop.
  destruct (Hclosed p a Hp Ha) as (c & -> & Hc). cbn.
  apply (IH c (k + 1)%Z _ _ Hg1); try done.
  by apply identity_label_stable.
Qed.

(** X9: when the label that [identity()] returns is not an element
    ([None] because the set has no identity, or a supplied value outside
    the set) and the operation is closed on the elements, the loop of
    [order()] never exits: however many times its test is evaluated, the
    running power differs from the identity. *)
Theorem order_never_exits s g G a i :
  s !! g = Some G ->
  closed (element_values G) (_operation G) ->
  identity_label G = Ok i -> i ∉ element_values G ->
  a ∈ element_values G ->
  forall fuel,
    fst (GroupElement.order fuel (mkGroupElement a g) s) = Ok None.
Proof.
  intros Hg Hclosed Hlab Hi Ha fuel. unfold GroupElement.order.
  by apply (order_loop_never_exits g a (element_values G) (_operation G) i
              Hclosed Hi Ha fuel a 1%Z s G).
Qed.

(** [Group([0, 1, 2, 3], lambda a, b: (a + b) % 4, identity_value=7)]. *)
Lemma order_never_exits_witness :
  [cyclic 4 (VInt 7)] !! 0%nat = Some (cyclic 4 (VInt 7))
  /\ closed (element_values (cyclic 4 (VInt 7)))
       (_operation (cyclic 4 (VInt 7)))
  /\ identity_label (cyclic 4 (VInt 7)) = Ok (VInt 7)
  /\ (VInt 7 ∉ element_values (cyclic 4 (VInt 7)))
  /\ VInt 1 ∈ element_values (cyclic 4 (VInt 7))
  /\ forall fuel,
       fst (GroupElement.order fuel (mkGroupElement (VInt 1) 0%nat)
              [cyclic 4 (VInt 7)]) = Ok None.
Proof.
  assert (Hc : closed (element_values (cyclic 4 (VInt 7)))
                 (_operation (cyclic 4 (VInt 7))))
    by (apply closedb_sound; vm_compute; reflexivity).
  assert (Hn : VInt 7 ∉ element_values (cyclic 4 (VInt 7))).
  { intros H. apply existsb_value_eqb in H. vm_compute in H. discriminate H. }
  assert (H1 : VInt 1 ∈ element_values (cyclic 4 (VInt 7)))
    by (apply existsb_value_eqb; vm_compute; reflexivity).
  split; [reflexivity|]. split; [exact Hc|]. split; [reflexivity|].
  split; [exact Hn|]. split; [exact H1|].
  apply (order_never_exits [cyclic 4 (VInt 7)] 0%nat (cyclic 4 (VInt 7))
           (VInt 1) (VInt 7) eq_refl Hc eq_refl Hn H1).
Defined.

(** ** The operation of a direct product *)

Lemma subscript_drop xs i :
  subscript (VTuple xs) i
  = match drop i xs with
    | x :: _ => Ok x
    | [] => Raise IndexError
    end.
Proof.
  unfold subscript. destruct (xs !! i) as [x|] eqn:E.
  - by rewrite (drop_S _ _ _ E).
  - rewrite drop_ge; [done|]. by apply lookup_ge_None.
Qed.

Lemma drop_tail i (xs : list value) x rest :
  drop i xs = x :: rest -> drop (S i) xs = rest.
Proof.
  revert xs. induction i as [|i IH]; intros [|y xs] H; simplify_eq/=; eauto.
Qed.

Lemma componentwise_tuples ops :
  forall i xs ys,
    Group.componentwise ops i (VTuple xs) (VTuple ys)
    = tuple_op ops (drop i xs) (drop i ys).
Proof.
  induction ops as [|op ops IH]; intros i xs ys; [done|].
  cbn [Group.componentwise tuple_op]. rewrite !subscript_drop.
  destruct (drop i xs) as [|x xs'] eqn:Ex; [done|]. simpl.
  destruct (drop i ys) as [|y ys'] eqn:Ey; [done|]. simpl.
  rewrite IH, (drop_tail _ _ _ _ Ex), (drop_tail _ _ _ _ Ey). done.
Qed.

Lemma direct_product_operation_tuples ops xs ys :
  Group.direct_product_operation ops (VTuple xs) (VTuple ys)
  = (cs <~ tuple_op ops xs ys ;; Ok (VTuple cs)).
Proof.
  unfold Group.direct_product_operation.
  by rewrite componentwise_tuples, !drop_0.
Qed.

Lemma tuple_op_Ok ops :
  forall xs ys cs,
    tuple_op ops xs ys = Ok cs <->
    length cs = length ops
    /\ forall i op, ops !! i = Some op ->
         exists x y c, xs !! i = Some x /\ ys !! i = Some y
                       /\ cs !! i = Some c /\ op x y = Ok c.
Proof.
  induction ops as [|op ops IH]; intros xs ys cs.
  - simpl. split.
    + intros [= <-]. split; [done|]. intros i op H. inversion H.
    + intros [Hlen _]. destruct cs; [done | discriminate Hlen].
  - cbn [tuple_op]. split.
    + destruct xs as [|x xs]; [done|]. destruct ys as [|y ys]; [done|].
      destruct (op x y) as [c|] eqn:Hc; [|done]. simpl.
      destruct (tuple_op ops xs ys) as [cs'|] eqn:Hrest; [|done]. simpl.
      intros [= <-]. apply IH in Hrest as [Hlen Hall].
      split; [simpl; by rewrite Hlen|].
      intros [|i] op' Hop'.
      * injection Hop' as <-. by exists x, y, c.
      * apply (Hall i op' Hop').
    + intros [Hlen Hall].
      destruct (Hall 0%nat op eq_refl) as (x & y & c & Hx & Hy & Hc & Hop).
      destruct xs as [|x' xs]; [done|]. destruct ys as [|y' ys]; [done|].
      destruct cs as [|c' cs]; [done|]. simplify_eq/=. rewrite Hop. simpl.
      assert (Hrest : tuple_op ops xs ys = Ok cs).
      { apply IH. split; [done|]. intros i op' Hop'.
        apply (Hall (S i) op' Hop'). }
      by rewrite Hrest.
Qed.

Lemma tuple_op_take ops :
  forall xs ys,
    tuple_op ops xs ys
    = tuple_op ops (take (length ops) xs) (take (length ops) ys).
Proof.
  induction ops as [|op ops IH]; intros xs ys; [done|].
  destruct xs as [|x xs]; [done|]. destruct ys as [|y ys]; [done|].
  cbn [tuple_op length take]. by rewrite (IH xs ys).
Qed.

Lemma tuple_op_short ops :
  forall xs ys,
    (length xs < length ops)%nat \/ (length ys < length ops)%nat ->
    (forall i op x y, ops !! i = Some op -> xs !! i = Some x ->
       ys !! i = Some y -> exists c, op x y = Ok c) ->
    tuple_op ops xs ys = Raise IndexError.
Proof.
  induction ops as [|op ops IH]; intros xs ys Hlen Hops.
  - simpl in Hlen. lia.
  - destruct xs as [|x xs]; [done|]. destruct ys as [|y ys]; [done|].
    cbn [tuple_op].
    destruct (Hops 0%nat op x y eq_refl eq_refl eq_refl) as [c ->].
    simpl. rewrite (IH xs ys); [done | simpl in Hlen; lia |].
    intros i op' x' y' Hop' Hx' Hy'. apply (Hops (S i) op' x' y'); done.
Qed.

(** X10: the operation of a direct product, on two tuples.  It returns
    exactly when both tuples have a component for every factor and every
    factor's operation returns on its pair of components, and the result
    is the tuple of those results.  Components beyond the number of
    factors are ignored.  When a tuple has fewer components than there
    are factors and the operations return on the pairs that exist, it
    raises [IndexError].  With at least one factor, [None] or an [int] as
    first argument raises [TypeError]. *)
Theorem direct_product_operation_shape ops xs ys :
  (forall r,
     Group.direct_product_operation ops (VTuple xs) (VTuple ys) = Ok r <->
     exists cs, r = VTuple cs /\ length cs = length ops
       /\ forall i op, ops !! i = Some op ->
            exists x y c,
              xs !! i = Some x /\ ys !! i = Some y
              /\ cs !! i = Some c /\ op x y = Ok c)
  /\ Group.direct_product_operation ops (VTuple xs) (VTuple ys)
     = Group.direct_product_operation ops
         (VTuple (take (length ops) xs)) (VTuple (take (length ops) ys))
  /\ ((length xs < length ops)%nat \/ (length ys < length ops)%nat ->
      (forall i op x y, ops !! i = Some op -> xs !! i = Some x ->
         ys !! i = Some y -> exists c, op x y = Ok c) ->
      Group.direct_product_operation ops (VTuple xs) (VTuple ys)
      = Raise IndexError)
  /\ (ops <> [] ->
      forall b,
        Group.direct_product_operation ops VNone b = Raise TypeError
        /\ forall n,
             Group.direct_product_operation ops (VInt n) b
             = Raise TypeError).
Proof.
  split_and!.
  - intros r. rewrite direct_product_operation_tuples. split.
    + destruct (tuple_op ops xs ys) as [cs|] eqn:E; [|done].
      intros [= <-]. exists cs. apply tuple_op_Ok in E as [Hlen H].
      by split_and!.
    + intros (cs & -> & Hlen & H).
      assert (E : tuple_op ops xs ys = Ok cs) by by apply tuple_op_Ok.
      by rewrite E.
  - rewrite !direct_product_operation_tuples. by rewrite tuple_op_take.
  - intros Hlen Hops. rewrite direct_product_operation_tuples.
    by rewrite (tuple_op_short ops xs ys Hlen Hops).
  - intros Hne b. by destruct ops.
Qed.

Lemma direct_product_operation_shape_witness :
  (length [VInt 1] < length [add_mod 2; add_mod 3])%nat
  /\ Group.direct_product_operation [add_mod 2; add_mod 3]
       (VTuple [VInt 1]) (VTuple [VInt 0; VInt 1]) = Raise IndexError.
Proof.
  assert (Hlen : (length [VInt 1] < length [add_mod 2; add_mod 3])%nat)
    by (simpl; lia).
  split; [exact Hlen|].
  apply (proj1 (proj2 (proj2 (direct_product_operation_shape
                                [add_mod 2; add_mod 3] [VInt 1]
                                [VInt 0; VInt 1]))) (or_introl Hlen)).
  intros [|[|i]] op x y Hop Hx Hy; simplify_eq/=. by eexists.
Defined.

(** ** Direct products of any number of groups *)

Lemma store_cache_frame g v s h H :
  s !! h = Some H ->
  exists H',
    store_cache g v s !! h = Some H'
    /\ element_values H' = element_values H
    /\ _operation H' = _operation H
    /\ name H' = name H
    /\ (h <> g -> H' = H).
Proof.
  intros Hh. destruct (decide (h = g)) as [->|Hne].
  - exists (set_identity_value H v).
    by rewrite (store_cache_lookup _ _ _ _ Hh).
  - exists H. unfold store_cache.
    destruct (s !! g); [rewrite list_lookup_insert_ne by done|]; done.
Qed.

Lemma cache_all_length groups :
  forall ids s, length (cache_all groups ids s) = length s.
Proof.
  induction groups as [|g groups IH]; intros [|i ids] s; simpl; try done.
  by rewrite IH, store_cache_length.
Qed.

Lemma cache_all_frame groups :
  forall ids s h H,
    s !! h = Some H ->
    exists H',
      cache_all groups ids s !! h = Some H'
      /\ element_values H' = element_values H
      /\ _operation H' = _operation H
      /\ name H' = name H
      /\ (h ∉ groups -> H' = H).
Proof.
  induction groups as [|g groups IH]; intros [|i ids] s h H Hh; simpl;
    try (by exists H).
  destruct (store_cache_frame g i s h H Hh)
    as (H1 & Hh1 & Hels1 & Hop1 & Hnm1 & Hsame1).
  destruct (IH ids _ h H1 Hh1) as (H2 & Hh2 & Hels2 & Hop2 & Hnm2 & Hsame2).
  exists H2. split_and!; try congruence.
  intros [Hne Hnotin]%not_elem_of_cons.
  rewrite (Hsame2 Hnotin). by apply Hsame1.
Qed.

Lemma labelled_cache s g G i groups ids :
  s !! g = Some G -> identity_label G = Ok i ->
  Forall2 (fun h j => exists H, s !! h = Some H /\ identity_label H = Ok j)
          groups ids ->
  Forall2 (fun h j => exists H, store_cache g i s !! h = Some H
                                /\ identity_label H = Ok j)
          groups ids.
Proof.
  intros Hg Hi Hl. eapply Forall2_impl; [exact Hl|].
  intros h j (H & Hh & Hj).
  destruct (store_cache_other s g G i h H j Hg Hi Hh Hj)
    as (H' & Hh' & Hj' & _).
  by exists H'.
Qed.

(** [tuple(group.identity().element for group in groups)]: the labels, and
    every factor's cache written on the way. *)
Lemma identities_run groups :
  forall ids s,
    Forall2 (fun g i => exists G, s !! g = Some G /\ identity_label G = Ok i)
            groups ids ->
    map_m (fun g => e <- Group.identity g ;; ret (element e)) groups s
    = (Ok ids, cache_all groups ids s).
Proof.
  induction groups as [|g groups IH]; intros ids s H.
  - by inversion H.
  - inversion H as [|? i ? ids' (G & Hg & Hi) Hrest]; subst.
    cbn [map_m cache_all].
    rewrite (bind_ok _ _ _ _ _ (identity_element_run s g G i Hg Hi)).
    rewrite (bind_ok _ _ _ _ _
               (IH ids' _ (labelled_cache s g G i _ _ Hg Hi Hrest))).
    done.
Qed.

(** An object whose cache already holds the label that [identity()]
    returns is left as it is. *)
Lemma cache_all_settled groups :
  forall ids s h H,
    Forall2 (fun g i => exists G, s !! g = Some G /\ identity_label G = Ok i)
            groups ids ->
    s !! h = Some H -> identity_label H = Ok (_identity_value H) ->
    cache_all groups ids s !! h = Some H.
Proof.
  induction groups as [|g groups IH]; intros ids s h H Hl Hh Hset.
  - by inversion Hl.
  - inversion Hl as [|? i ? ids' (G & Hg & Hi) Hrest]; subst.
    cbn [cache_all].
    apply (IH ids' _ h H (labelled_cache s g G i _ _ Hg Hi Hrest));
      [|done].
    destruct (decide (h = g)) as [->|Hne].
    + rewrite Hg in Hh. injection Hh as ->.
      assert (i = _identity_value H) as -> by congruence.
      by rewrite (store_cache_id _ _ _ Hg).
    + unfold store_cache. rewrite Hg.
      by rewrite list_lookup_insert_ne.
Qed.

(** After the identities were read, every factor's cache holds its
    label. *)
Lemma cache_all_cached groups :
  forall ids s,
    Forall2 (fun g i => exists G, s !! g = Some G /\ identity_label G = Ok i)
            groups ids ->
    Forall2 (fun g i => exists G, cache_all groups ids s !! g = Some G
                                  /\ _identity_value G = i)
            groups ids.
Proof.
  induction groups as [|g groups IH]; intros ids s Hl.
  - inversion Hl. constructor.
  - inversion Hl as [|? i ? ids' (G & Hg & Hi) Hrest]; subst.
    pose proof (labelled_cache s g G i _ _ Hg Hi Hrest) as Hrest'.
    cbn [cache_all]. constructor; [|by apply IH].
    exists (set_identity_value G i). split; [|done].
    apply (cache_all_settled _ _ _ _ _ Hrest').
    + by apply store_cache_lookup.
    + by apply identity_label_stable.
Qed.

Lemma direct_product_run cls s groups objs ids :
  Forall2 (fun g G => s !! g = Some G) groups objs ->
  Forall2 (fun G i => identity_label G = Ok i) objs ids ->
  Group.direct_product cls groups s
  = (Ok (length s),
     cache_all groups ids s ++ [product_object cls objs ids]).
Proof.
  intros Hobjs Hids. unfold Group.direct_product.
  rewrite (bind_ok _ _ _ _ _ (map_m_deref s groups objs Hobjs)).
  rewrite (bind_ok _ _ s ids (cache_all groups ids s)).
  - unfold Group.__init__, new_object. by rewrite cache_all_length.
  - apply identities_run.
    revert ids Hids. induction Hobjs as [|g G groups objs Hg _ IH];
      intros ids Hids; inversion Hids; subst; constructor; eauto.
Qed.

Lemma identity_labels_ok objs :
  Forall (fun G => total_on (_operation G) (element_values G)) objs ->
  exists ids, Forall2 (fun G i => identity_label G = Ok i) objs ids.
Proof.
  induction 1 as [|G objs HG _ [ids IH]]; [by exists []|].
  destruct (identity_label_ok G HG) as [i Hi].
  exists (i :: ids). by constructor.
Qed.

Lemma elem_of_product objs t :
  t ∈ map VTuple (Group.cartesian_product (map element_values objs))
  <-> exists items, t = VTuple items /\ in_product objs items.
Proof.
  unfold in_product. rewrite list_elem_of_In, in_map_iff. split.
  - intros (items & <- & Hin). exists items. split; [done|].
    apply list_elem_of_In, elem_of_cartesian_product in Hin.
    revert Hin. generalize items. clear items.
    induction objs as [|G objs IH]; intros items Hin; inversion Hin; subst;
      constructor; eauto.
  - intros (items & -> & Hin). exists items. split; [done|].
    apply list_elem_of_In, elem_of_cartesian_product.
    induction Hin; constructor; eauto.
Qed.

Lemma product_length objs :
  length (map VTuple (Group.cartesian_product (map element_values objs)))
  = foldr (fun G n => (length (element_values G) * n)%nat) 1%nat objs.
Proof.
  rewrite length_map, cartesian_product_length.
  induction objs as [|G objs IH]; [done|]. simpl. by rewrite IH.
Qed.

(** X11: [direct_product] of any number of groups, repeated factors
    included, on operations that do not raise on the factors' labels: it
    returns a new object, whose identity is the tuple of the labels that
    [identity()] returns on the factors, whose labels are the tuples with
    one label of each factor, whose order is the product of the factors'
    orders, and whose operation works on the items of two tuples factor by
    factor.  In the store every factor keeps its labels, its operation
    and its name, every factor's cache holds its label afterwards, and
    the objects that are no factors are unchanged. *)
Theorem direct_product_of_groups cls s groups objs :
  Forall2 (fun g G => s !! g = Some G) groups objs ->
  Forall (fun G => total_on (_operation G) (element_values G)) objs ->
  exists ids s' P,
    Forall2 (fun g i => fst (Group.identity g s) = Ok (mkGroupElement i g))
            groups ids
    /\ Group.direct_product cls groups s = (Ok (length s), s' ++ [P])
    /\ (s' ++ [P]) !! length s = Some P
    /\ length s' = length s
    /\ (forall h H, s !! h = Some H ->
          exists H',
            s' !! h = Some H'
            /\ element_values H' = element_values H
            /\ _operation H' = _operation H
            /\ name H' = name H
            /\ (h ∉ groups -> H' = H))
    /\ Forall2 (fun g i => exists G', s' !! g = Some G'
                                      /\ _identity_value G' = i)
               groups ids
    /\ _identity_value P = VTuple ids
    /\ name P = match cls with
                | CGroup => NoAttr
                | CNamedGroup => Attr None
                end
    /\ (forall t, t ∈ element_values P <->
          exists items, t = VTuple items /\ in_product objs items)
    /\ fst (Group.order (length s) (s' ++ [P]))
       = Ok (foldr (fun G n => (length (element_values G) * n)%nat)
                   1%nat objs)
    /\ (forall xs ys,
          _operation P (VTuple xs) (VTuple ys)
          = (cs <~ tuple_op (map _operation objs) xs ys ;;
             Ok (VTuple cs))).
Proof.
  intros Hobjs Htot.
  destruct (identity_labels_ok objs Htot) as [ids Hids].
  assert (Hl : Forall2 (fun g i => exists G, s !! g = Some G
                                             /\ identity_label G = Ok i)
                       groups ids).
  { clear Htot. revert ids Hids.
    induction Hobjs as [|g G groups objs Hg _ IH];
      intros ids Hids; inversion Hids; subst; constructor; eauto. }
  assert (HP : (cache_all groups ids s ++ [product_object cls objs ids])
                 !! length s = Some (product_object cls objs ids)).
  { apply list_lookup_middle. by rewrite cache_all_length. }
  exists ids, (cache_all groups ids s), (product_object cls objs ids).
  split_and!.
  - eapply Forall2_impl; [exact Hl|]. intros g i (G & Hg & Hi).
    by rewrite (identity_run _ _ _ Hg), Hi.
  - by apply direct_product_run.
  - done.
  - apply cache_all_length.
  - intros h H Hh. by apply cache_all_frame.
  - by apply cache_all_cached.
  - done.
  - done.
  - intros t. apply elem_of_product.
  - unfold Group.order. rewrite (bind_deref _ _ _ _ HP). cbn [fst ret].
    f_equal. apply product_length.
  - intros xs ys. apply direct_product_operation_tuples.
Qed.

Lemma direct_product_of_groups_witness :
  exists ids s' P,
    Group.direct_product CGroup [0; 1; 0]%nat
      [cyclic 2 VNone; cyclic 3 VNone] = (Ok 2%nat, s' ++ [P])
    /\ _identity_value P = VTuple ids
    /\ fst (Group.order 2 (s' ++ [P])) = Ok 12%nat.
Proof.
  assert (Hobjs : Forall2 (fun g G => [cyclic 2 VNone; cyclic 3 VNone] !! g
                                      = Some G)
                    [0; 1; 0]%nat
                    [cyclic 2 VNone; cyclic 3 VNone; cyclic 2 VNone]).
  { repeat constructor. }
  assert (Htot : Forall
                   (fun G => total_on (_operation G) (element_values G))
                   [cyclic 2 VNone; cyclic 3 VNone; cyclic 2 VNone]).
  { repeat constructor; apply total_onb_sound; vm_compute; reflexivity. }
  destruct (direct_product_of_groups CGroup _ _ _ Hobjs Htot)
    as (ids & s' & P & _ & Hrun & _ & _ & _ & _ & Hid & _ & _ & Hord & _).
  exists ids, s', P. split_and!; [exact Hrun | exact Hid | exact Hord].
Defined.

(** ** The direct product of groups is a group *)

#[local] Abbreviation factor_groups :=
  (Forall2 (fun G e => is_group (element_values G) (_operation G) e)).

Lemma tuple_op_mul objs es (Hgs : factor_groups objs es) xs ys :
  in_product objs xs -> in_product objs ys ->
  tuple_op (map _operation objs) xs ys = Ok (tuple_mul objs xs ys)
  /\ in_product objs (tuple_mul objs xs ys).
Proof.
  unfold in_product. revert xs ys.
  induction Hgs as [|G e objs' es' HG _ IH]; intros xs ys Hx Hy.
  - inversion Hx; inversion Hy; subst. split; [done|constructor].
  - inversion Hx as [|x ? xs' ? Hx1 Hx2]; subst.
    inversion Hy as [|y ? ys' ? Hy1 Hy2]; subst.
    destruct (IH xs' ys' Hx2 Hy2) as [E Hin].
    cbn [map tuple_op tuple_mul].
    rewrite (op_mul _ _ e HG x y Hx1 Hy1), E. split; [done|].
    constructor; [|done]. by apply (mul_in _ _ e HG).
Qed.

Lemma tuple_mul_assoc objs es (Hgs : factor_groups objs es) xs ys zs :
  in_product objs xs -> in_product objs ys -> in_product objs zs ->
  tuple_mul objs (tuple_mul objs xs ys) zs
  = tuple_mul objs xs (tuple_mul objs ys zs).
Proof.
  unfold in_product. revert xs ys zs.
  induction Hgs as [|G e objs' es' HG _ IH]; intros xs ys zs Hx Hy Hz.
  - by inversion Hx.
  - inversion Hx as [|x ? xs' ? Hx1 Hx2]; subst.
    inversion Hy as [|y ? ys' ? Hy1 Hy2]; subst.
    inversion Hz as [|z ? zs' ? Hz1 Hz2]; subst.
    cbn [tuple_mul].
    by rewrite (mul_assoc _ _ e HG x y z Hx1 Hy1 Hz1), (IH xs' ys' zs').
Qed.

Lemma identities_in_product objs es (Hgs : factor_groups objs es) :
  in_product objs es.
Proof.
  unfold in_product.
  induction Hgs as [|G e objs' es' HG _ IH]; constructor; [|done].
  apply (e_in _ _ e HG).
Qed.

Lemma tuple_mul_identities objs es (Hgs : factor_groups objs es) xs :
  in_product objs xs ->
  tuple_mul objs es xs = xs /\ tuple_mul objs xs es = xs.
Proof.
  unfold in_product. revert xs.
  induction Hgs as [|G e objs' es' HG _ IH]; intros xs Hx.
  - by inversion Hx.
  - inversion Hx as [|x ? xs' ? Hx1 Hx2]; subst.
    destruct (IH xs' Hx2) as [E1 E2]. cbn [tuple_mul].
    by rewrite (mul_e_l _ _ e HG x Hx1), (mul_e_r _ _ e HG x Hx1), E1, E2.
Qed.

Lemma tuple_inverse objs es (Hgs : factor_groups objs es) xs :
  in_product objs xs ->
  exists ys,
    in_product objs ys
    /\ tuple_mul objs xs ys = es /\ tuple_mul objs ys xs = es.
Proof.
  unfold in_product. revert xs.
  induction Hgs as [|G e objs' es' HG _ IH]; intros xs Hx.
  - inversion Hx. exists []. split_and!; [constructor|done..].
  - inversion Hx as [|x ? xs' ? Hx1 Hx2]; subst.
    destruct (IH xs' Hx2) as (ys & Hy & E1 & E2).
    exists (ginv (element_values G) (_operation G) e x :: ys).
    split_and!.
    + constructor; [|done]. by apply (ginv_in _ _ e HG).
    + cbn [tuple_mul]. by rewrite (mul_ginv_r _ _ e HG x Hx1), E1.
    + cbn [tuple_mul]. by rewrite (mul_ginv_l _ _ e HG x Hx1), E2.
Qed.

Lemma product_operation_mul objs es (Hgs : factor_groups objs es) xs ys :
  in_product objs xs -> in_product objs ys ->
  Group.direct_product_operation (map _operation objs)
    (VTuple xs) (VTuple ys)
  = Ok (VTuple (tuple_mul objs xs ys)).
Proof.
  intros Hx Hy. rewrite direct_product_operation_tuples.
  by rewrite (proj1 (tuple_op_mul objs es Hgs xs ys Hx Hy)).
Qed.

Lemma product_is_group objs es (Hgs : factor_groups objs es) :
  is_group
    (map VTuple (Group.cartesian_product (map element_values objs)))
    (Group.direct_product_operation (map _operation objs))
    (VTuple es).
Proof.
  split_and!.
  - intros a b (xs & -> & Hx)%elem_of_product (ys & -> & Hy)%elem_of_product.
    exists (VTuple (tuple_mul objs xs ys)).
    split; [by apply (product_operation_mul objs es)|].
    apply elem_of_product. eexists. split; [done|].
    by apply (tuple_op_mul objs es).
  - intros a b c ab bc (xs & -> & Hx)%elem_of_product
      (ys & -> & Hy)%elem_of_product (zs & -> & Hz)%elem_of_product.
    rewrite !(product_operation_mul objs es) by done.
    intros [= <-] [= <-].
    rewrite !(product_operation_mul objs es)
      by (done || by apply (tuple_op_mul objs es)).
    by rewrite (tuple_mul_assoc objs es).
  - split.
    + apply elem_of_product. eexists. split; [done|].
      by apply identities_in_product.
    + intros x (xs & -> & Hx)%elem_of_product.
      rewrite !(product_operation_mul objs es)
        by (done || by apply identities_in_product).
      by destruct (tuple_mul_identities objs es Hgs xs Hx) as [-> ->].
  - intros a (xs & -> & Hx)%elem_of_product.
    destruct (tuple_inverse objs es Hgs xs Hx) as (ys & Hy & E1 & E2).
    exists (VTuple ys). split.
    + apply elem_of_product. by exists ys.
    + unfold inverse_of. rewrite !(product_operation_mul objs es) by done.
      by rewrite E1, E2.
Qed.

Lemma well_formed_label G :
  well_formed G ->
  exists e,
    is_group (element_values G) (_operation G) e
    /\ identity_label G = Ok e.
Proof.
  intros HG.
  destruct (well_formed_holds [G] 0%nat G eq_refl HG) as (e & Hgrp & Hh).
  exists e. split; [done|].
  apply (holds_label 0%nat _ _ e (name G) Hgrp [G] G eq_refl Hh).
Qed.

Lemma well_formed_factors objs :
  Forall well_formed objs ->
  exists es,
    factor_groups objs es
    /\ Forall2 (fun G e => identity_label G = Ok e) objs es.
Proof.
  induction 1 as [|G objs HG _ (es & Hes & Hls)]; [by exists []|].
  destruct (well_formed_label G HG) as (e & Hgrp & Hl).
  exists (e :: es). split; by constructor.
Qed.

(** X12: the direct product of well-formed groups is a well-formed group:
    the object that [direct_product] returns satisfies the group axioms
    under the componentwise operation, and the identity it was given,
    the tuple of the factors' identities, is its two-sided identity.  So
    what holds of the elements of a well-formed group holds of the
    elements of the product, and of products of products. *)
Theorem direct_product_well_formed cls s groups objs :
  Forall2 (fun g G => s !! g = Some G) groups objs ->
  Forall well_formed objs ->
  exists s' P,
    Group.direct_product cls groups s = (Ok (length s), s')
    /\ s' !! length s = Some P
    /\ well_formed P
    /\ two_sided_identity (element_values P) (_operation P)
         (_identity_value P)
    /\ forall g G, g ∈ groups -> s !! g = Some G ->
         exists G', s' !! g = Some G' /\ well_formed G'.
Proof.
  intros Hobjs Hwf.
  destruct (well_formed_factors objs Hwf) as (es & Hes & Hls).
  pose proof (product_is_group objs es Hes) as Hgrp.
  exists (cache_all groups es s ++ [product_object cls objs es]),
    (product_object cls objs es).
  split_and!.
  - by apply direct_product_run.
  - apply list_lookup_middle. by rewrite cache_all_length.
  - split; [by exists (VTuple es)|]. right. apply Hgrp.
  - apply Hgrp.
  - intros g G Hin Hg.
    assert (Hl : Forall2 (fun g i => exists G, s !! g = Some G
                                               /\ identity_label G = Ok i)
                         groups es).
    { clear Hes Hwf Hgrp Hin. revert es Hls.
      induction Hobjs as [|g' G' groups objs Hg' _ IH];
        intros es Hls; inversion Hls; subst; constructor; eauto. }
    assert (HG : well_formed G).
    { apply list_elem_of_lookup in Hin as [k Hk].
      destruct (Forall2_lookup_l _ _ _ _ _ Hobjs Hk) as (G0 & HG0 & Hg0).
      assert (G0 = G) as -> by congruence.
      rewrite Forall_forall in Hwf. apply Hwf.
      by eapply list_elem_of_lookup_2. }
    destruct (cache_all_frame groups es s g G Hg)
      as (G' & Hg' & Hels & Hop & _ & _).
    exists G'. split.
    { rewrite lookup_app_l; [done|]. by eapply lookup_lt_Some. }
    apply list_elem_of_lookup in Hin as [k Hk].
    destruct (Forall2_lookup_l _ _ _ _ _ (cache_all_cached groups es s Hl) Hk)
      as (i & Hi & G'' & Hg'' & Hc).
    assert (G'' = G') as -> by congruence.
    destruct (Forall2_lookup_l _ _ _ _ _ Hl Hk) as (i' & Hi' & G0 & Hg0 & Hl0).
    assert (i' = i) as -> by congruence.
    assert (G0 = G) as -> by congruence.
    destruct (well_formed_label G HG) as (e & He & Hle).
    assert (i = e) as -> by congruence.
    split; [exists e; by rewrite Hels, Hop|].
    right. rewrite Hels, Hop, Hc. apply He.
Qed.

Lemma direct_product_well_formed_witness :
  exists s' P,
    Group.direct_product CGroup [0; 1]%nat
      [cyclic 2 VNone; cyclic 3 VNone] = (Ok 2%nat, s')
    /\ s' !! 2%nat = Some P
    /\ well_formed P.
Proof.
  assert (Hobjs : Forall2 (fun g G => [cyclic 2 VNone; cyclic 3 VNone] !! g
                                      = Some G)
                    [0; 1]%nat [cyclic 2 VNone; cyclic 3 VNone]).
  { repeat constructor. }
  assert (Hwf : Forall well_formed [cyclic 2 VNone; cyclic 3 VNone]).
  { repeat constructor; apply well_formedb_sound; vm_compute; reflexivity. }
  destruct (direct_product_well_formed CGroup _ _ _ Hobjs Hwf)
    as (s' & P & Hrun & HP & HwfP & _).
  exists s', P. split_and!; [exact Hrun | exact HP | exact HwfP].
Defined.

(** ** The semidirect product of groups is a group *)

Lemma acts_by_automorphismsb_sound elsN opN elsH opH eH action :
  acts_by_automorphismsb elsN opN elsH opH eH action = true ->
  acts_by_automorphisms elsN opN elsH opH eH action.
Proof.
  unfold acts_by_automorphismsb. rewrite !andb_true_iff.
  intros [[[H1 H2] H3] H4]. split_and!.
  - intros h n Hh Hn. rewrite forallb_elem_of in H1. specialize (H1 h Hh).
    rewrite forallb_elem_of in H1. specialize (H1 n Hn).
    destruct (action h n) as [m|]; [|done]. exists m. split; [done|].
    by apply existsb_value_eqb.
  - intros h n1 n2 Hh Hn1 Hn2.
    rewrite forallb_elem_of in H2. specialize (H2 h Hh).
    rewrite forallb_elem_of in H2. specialize (H2 n1 Hn1).
    rewrite forallb_elem_of in H2. specialize (H2 n2 Hn2).
    by apply value_eqb_eq.
  - intros n Hn. rewrite forallb_elem_of in H3.
    by apply value_eqb_eq, H3.
  - intros h1 h2 n Hh1 Hh2 Hn.
    rewrite forallb_elem_of in H4. specialize (H4 h1 Hh1).
    rewrite forallb_elem_of in H4. specialize (H4 h2 Hh2).
    rewrite forallb_elem_of in H4. specialize (H4 n Hn).
    by apply value_eqb_eq.
Qed.

Section semidirect_algebra.
Variables (elsN : list value) (opN : operation_t) (eN : value).
Variables (elsH : list value) (opH : operation_t) (eH : value).
Variable action : operation_t.
Hypothesis HgN : is_group elsN opN eN.
Hypothesis HgH : is_group elsH opH eH.
Hypothesis Hact : acts_by_automorphisms elsN opN elsH opH eH action.

#[local] Abbreviation mulN := (gmul opN).
#[local] Abbreviation mulH := (gmul opH).
#[local] Abbreviation act := (gmul action).
#[local] Abbreviation sd_op :=
  (Group.semidirect_product_operation opN opH action).

Lemma act_ok h n : h ∈ elsH -> n ∈ elsN -> action h n = Ok (act h n).
Proof.
  intros Hh Hn. destruct (proj1 Hact h n Hh Hn) as (m & Hm & _).
  unfold gmul. by rewrite Hm.
Qed.

Lemma act_in h n : h ∈ elsH -> n ∈ elsN -> act h n ∈ elsN.
Proof.
  intros Hh Hn. destruct (proj1 Hact h n Hh Hn) as (m & Hm & Hin).
  unfold gmul. by rewrite Hm.
Qed.

Lemma act_mul h n1 n2 :
  h ∈ elsH -> n1 ∈ elsN -> n2 ∈ elsN ->
  act h (mulN n1 n2) = mulN (act h n1) (act h n2).
Proof. apply Hact. Qed.

Lemma act_identity n : n ∈ elsN -> act eH n = n.
Proof. apply Hact. Qed.

Lemma act_compose h1 h2 n :
  h1 ∈ elsH -> h2 ∈ elsH -> n ∈ elsN ->
  act (mulH h1 h2) n = act h1 (act h2 n).
Proof. apply Hact. Qed.

(** An automorphism fixes the identity. *)
Lemma act_fixes_identity h : h ∈ elsH -> act h eN = eN.
Proof.
  intros Hh. pose proof (e_in _ _ _ HgN) as He.
  pose proof (act_in h eN Hh He) as Hin.
  apply (mul_cancel_r _ _ _ HgN _ _ (act h eN)); try done.
  rewrite <- act_mul by done.
  by rewrite (mul_e_l _ _ _ HgN eN He), (mul_e_l _ _ _ HgN _ Hin).
Qed.

Lemma semidirect_operation_mul n1 h1 n2 h2 :
  n1 ∈ elsN -> h1 ∈ elsH -> n2 ∈ elsN -> h2 ∈ elsH ->
  sd_op (VTuple [n1; h1]) (VTuple [n2; h2])
  = Ok (VTuple [mulN n1 (act h1 n2); mulH h1 h2]).
Proof.
  intros Hn1 Hh1 Hn2 Hh2. unfold Group.semidirect_product_operation.
  cbn [unpack2]. cbn.
  rewrite (act_ok h1 n2 Hh1 Hn2). cbn.
  rewrite (op_mul _ _ _ HgN n1 _ Hn1 (act_in h1 n2 Hh1 Hn2)). cbn.
  by rewrite (op_mul _ _ _ HgH h1 h2 Hh1 Hh2).
Qed.

Lemma semidirect_is_group :
  is_group (semidirect_elements elsN elsH) sd_op (VTuple [eN; eH]).
Proof.
  pose proof (e_in _ _ _ HgN) as HeN. pose proof (e_in _ _ _ HgH) as HeH.
  split_and!.
  - intros a b (n1 & h1 & -> & Hn1 & Hh1)%elem_of_semidirect_elements
      (n2 & h2 & -> & Hn2 & Hh2)%elem_of_semidirect_elements.
    eexists. split; [by apply semidirect_operation_mul|].
    apply elem_of_semidirect_elements. eexists _, _. split; [done|].
    split; [apply (mul_in _ _ _ HgN); auto using act_in
           | by apply (mul_in _ _ _ HgH)].
  - intros a b c ab bc
      (n1 & h1 & -> & Hn1 & Hh1)%elem_of_semidirect_elements
      (n2 & h2 & -> & Hn2 & Hh2)%elem_of_semidirect_elements
      (n3 & h3 & -> & Hn3 & Hh3)%elem_of_semidirect_elements.
    rewrite !semidirect_operation_mul by done. intros [= <-] [= <-].
    pose proof (act_in h1 n2 Hh1 Hn2) as H12.
    pose proof (act_in h2 n3 Hh2 Hn3) as H23.
    pose proof (mul_in _ _ _ HgH h1 h2 Hh1 Hh2) as Hh12.
    pose proof (mul_in _ _ _ HgH h2 h3 Hh2 Hh3) as Hh23.
    rewrite !semidirect_operation_mul
      by (done || apply (mul_in _ _ _ HgN); done).
    rewrite (mul_assoc _ _ _ HgH) by done.
    rewrite act_mul, act_compose by done.
    rewrite (mul_assoc _ _ _ HgN) by auto using act_in.
    done.
  - split.
    + apply elem_of_semidirect_elements. by exists eN, eH.
    + intros x (n & h & -> & Hn & Hh)%elem_of_semidirect_elements.
      rewrite !semidirect_operation_mul by done.
      rewrite act_identity, act_fixes_identity by done.
      rewrite (mul_e_l _ _ _ HgN), (mul_e_r _ _ _ HgN) by done.
      by rewrite (mul_e_l _ _ _ HgH), (mul_e_r _ _ _ HgH) by done.
  - intros a (n & h & -> & Hn & Hh)%elem_of_semidirect_elements.
    pose proof (ginv_in _ _ _ HgN n Hn) as Hn'.
    pose proof (ginv_in _ _ _ HgH h Hh) as Hh'.
    pose proof (act_in _ _ Hh' Hn') as Han.
    exists (VTuple [act (ginv elsH opH eH h) (ginv elsN opN eN n);
                    ginv elsH opH eH h]).
    split.
    + apply elem_of_semidirect_elements. by eexists _, _.
    + unfold inverse_of. rewrite !semidirect_operation_mul by done.
      rewrite <- act_compose by done.
      rewrite <- act_mul by done.
      rewrite (mul_ginv_r _ _ _ HgH), (mul_ginv_l _ _ _ HgH) by done.
      rewrite (mul_ginv_l _ _ _ HgN) by done.
      rewrite act_identity, act_fixes_identity by done.
      by rewrite (mul_ginv_r _ _ _ HgN) by done.
Qed.

End semidirect_algebra.

(** X13: when [N] and [H] are groups and [action] lets [H] act on [N]
    by automorphisms, [semidirect_product(N, H, action)] returns a
    well-formed group, in a store whose other objects are untouched: the
    object satisfies the group axioms, its identity is the pair of the
    factors' identities, and the first [identity()] finds that pair and
    caches it. *)
Theorem semidirect_product_well_formed cls s N H GN GH eN eH action :
  s !! N = Some GN -> s !! H = Some GH ->
  is_group (element_values GN) (_operation GN) eN ->
  is_group (element_values GH) (_operation GH) eH ->
  acts_by_automorphisms (element_values GN) (_operation GN)
    (element_values GH) (_operation GH) eH action ->
  exists P,
    Group.semidirect_product cls N H action s
    = (Ok (length s), s ++ [P])
    /\ well_formed P
    /\ two_sided_identity (element_values P) (_operation P)
         (VTuple [eN; eH])
    /\ Group.identity (length s) (s ++ [P])
       = (Ok (mkGroupElement (VTuple [eN; eH]) (length s)),
          s ++ [set_identity_value P (VTuple [eN; eH])])
    /\ well_formed (set_identity_value P (VTuple [eN; eH])).
Proof.
  intros HN HH HgN HgH Hact.
  pose proof (semidirect_is_group _ _ _ _ _ _ _ HgN HgH Hact) as Hgrp.
  set (nm := match cls with CGroup => NoAttr | CNamedGroup => Attr None end).
  set (P := mkGroupObj
              (semidirect_elements (element_values GN) (element_values GH))
              (Group.semidirect_product_operation
                 (_operation GN) (_operation GH) action)
              VNone nm).
  assert (HP : (s ++ [P]) !! length s = Some P) by by apply list_lookup_middle.
  exists P. split_and!.
  - unfold Group.semidirect_product.
    by rewrite (bind_deref _ _ _ _ HN), (bind_deref _ _ _ _ HH).
  - split; [by eexists | by left].
  - apply Hgrp.
  - rewrite (identity_wf (length s) _ _ _ nm Hgrp (s ++ [P])).
    + f_equal. unfold store_cache. rewrite HP.
      replace (length s) with (length s + 0)%nat at 1 by lia.
      by rewrite insert_app_r.
    + exists VNone. split; [by left | done].
  - split; [by eexists | right; apply Hgrp].
Qed.

(** The dihedral group of the test suite: [C2] acts on [C4] by negation. *)
Lemma semidirect_product_well_formed_witness :
  exists P,
    Group.semidirect_product CGroup 0%nat 1%nat negation_action
      [cyclic 4 (VInt 0); cyclic 2 (VInt 0)]
    = (Ok 2%nat, [cyclic 4 (VInt 0); cyclic 2 (VInt 0)] ++ [P])
    /\ well_formed P
    /\ two_sided_identity (element_values P) (_operation P)
         (VTuple [VInt 0; VInt 0]).
Proof.
  assert (HgN : is_group (element_values (cyclic 4 (VInt 0)))
                  (_operation (cyclic 4 (VInt 0))) (VInt 0)).
  { split_and!;
      [apply closedb_sound | apply associativeb_sound
       | apply two_sided_identityb_sound | apply inversesb_sound];
      vm_compute; reflexivity. }
  assert (HgH : is_group (element_values (cyclic 2 (VInt 0)))
                  (_operation (cyclic 2 (VInt 0))) (VInt 0)).
  { split_and!;
      [apply closedb_sound | apply associativeb_sound
       | apply two_sided_identityb_sound | apply inversesb_sound];
      vm_compute; reflexivity. }
  assert (Hact : acts_by_automorphisms
                   (element_values (cyclic 4 (VInt 0)))
                   (_operation (cyclic 4 (VInt 0)))
                   (element_values (cyclic 2 (VInt 0)))
                   (_operation (cyclic 2 (VInt 0))) (VInt 0)
                   negation_action).
  { apply acts_by_automorphismsb_sound. vm_compute. reflexivity. }
  destruct (semidirect_product_well_formed CGroup
              [cyclic 4 (VInt 0); cyclic 2 (VInt 0)] 0%nat 1%nat _ _
              (VInt 0) (VInt 0) negation_action eq_refl eq_refl
              HgN HgH Hact) as (P & Hrun & Hwf & Hid & _).
  exists P. split_and!; [exact Hrun | exact Hwf | exact Hid].
Defined.

(** ** Names of direct products, in general *)

Lemma factors_after_product s s' P groups objs :
  length s' = length s ->
  (forall h H, s !! h = Some H ->
     exists H', s' !! h = Some H' /\ name H' = name H) ->
  Forall2 (fun g G => s !! g = Some G) groups objs ->
  exists objs',
    Forall2 (fun g G' => (s' ++ [P]) !! g = Some G') groups objs'
    /\ Forall2 (fun G G' => name G' = name G) objs objs'.
Proof.
  intros Hlen Hframe.
  induction 1 as [|g G groups objs Hg _ (objs' & IH1 & IH2)].
  - exists []. split; constructor.
  - destruct (Hframe g G Hg) as (G' & Hg' & Hnm).
    exists (G' :: objs'). split; constructor; try done.
    rewrite lookup_app_l; [done|]. by eapply lookup_lt_Some.
Qed.

Lemma getattr_names_same objs objs' :
  Forall2 (fun G G' => name G' = name G) objs objs' ->
  forall k,
    imap (fun i G => NamedGroup.getattr_name G (k + i)) objs'
    = imap (fun i G => NamedGroup.getattr_name G (k + i)) objs.
Proof.
  induction 1 as [|G G' objs objs' Hnm _ IH]; intros k; [done|].
  cbn [imap]. f_equal.
  - unfold NamedGroup.getattr_name. by rewrite Hnm.
  - specialize (IH (S k)).
    rewrite (imap_ext _ (fun i G => NamedGroup.getattr_name G (S k + i)))
      by (intros; simpl; f_equal; lia).
    rewrite IH. apply imap_ext. intros; simpl; f_equal; lia.
Qed.

Lemma all_str_names objs :
  forall k,
    Forall (fun G => name G <> Attr None) objs ->
    exists strs,
      NamedGroup.all_str
        (imap (fun i G => NamedGroup.getattr_name G (k + i)) objs)
      = Ok strs
      /\ length strs = length objs
      /\ forall i G, objs !! i = Some G ->
           strs !! i = Some match name G with
                            | Attr (Some n) => n
                            | _ => NamedGroup.placeholder (k + i)
                            end.
Proof.
  induction objs as [|G objs IH]; intros k H.
  - exists []. split_and!; [done..|]. intros i G HG. inversion HG.
  - inversion H as [|? ? HG Hrest]; subst.
    destruct (IH (S k) Hrest) as (strs & E & Hlen & Hnames).
    cbn [imap].
    rewrite (imap_ext _ (fun i G => NamedGroup.getattr_name G (S k + i)))
      by (intros; simpl; f_equal; lia).
    rewrite Nat.add_0_r. unfold NamedGroup.getattr_name at 1.
    destruct (name G) as [|[n|]] eqn:Hnm; [| |done].
    + exists (NamedGroup.placeholder k :: strs). cbn [NamedGroup.all_str].
      rewrite E. split_and!; [done | simpl; by rewrite Hlen |].
      intros [|i] G' HG'; simplify_eq/=.
      * by rewrite Hnm, Nat.add_0_r.
      * rewrite (Hnames i G' HG'). by rewrite Nat.add_succ_r.
    + exists (n :: strs). cbn [NamedGroup.all_str].
      rewrite E. split_and!; [done | simpl; by rewrite Hlen |].
      intros [|i] G' HG'; simplify_eq/=.
      * by rewrite Hnm.
      * rewrite (Hnames i G' HG'). by rewrite Nat.add_succ_r.
Qed.

Lemma getattr_names_None objs :
  forall k,
    Exists (fun G => name G = Attr None) objs ->
    None ∈ imap (fun i G => NamedGroup.getattr_name G (k + i)) objs.
Proof.
  induction objs as [|G objs IH]; intros k H; inversion H; subst.
  - cbn [imap]. rewrite getattr_name_None by done. constructor.
  - cbn [imap]. apply list_elem_of_further.
    rewrite (imap_ext _ (fun i G => NamedGroup.getattr_name G (S k + i)))
      by (intros; simpl; f_equal; lia).
    by apply IH.
Qed.

(** X15: [NamedGroup.direct_product] of any number of groups, on
    operations that do not raise on the factors' labels.  It first builds
    the unnamed product [P], which stays in the store.  When no factor is
    a [NamedGroup] whose name is [None], it returns a second object with
    the labels, the operation and the identity of [P], named by the
    factors' names joined with [" × "], a plain [Group] at position [i]
    contributing [Group<i>].  When some factor is a [NamedGroup] whose
    name is [None], it raises [TypeError], after the factors' identities
    were cached and [P] was built. *)
Theorem named_direct_product_of_groups s groups objs :
  Forall2 (fun g G => s !! g = Some G) groups objs ->
  Forall (fun G => total_on (_operation G) (element_values G)) objs ->
  exists s' P,
    Group.direct_product CNamedGroup groups s = (Ok (length s), s' ++ [P])
    /\ length s' = length s
    /\ (Forall (fun G => name G <> Attr None) objs ->
        exists strs,
          NamedGroup.direct_product groups s
          = (Ok (S (length s)),
             s' ++ [P; mkGroupObj (element_values P) (_operation P)
                         (_identity_value P)
                         (Attr (Some (String.concat " × " strs)))])
          /\ length strs = length objs
          /\ forall i G, objs !! i = Some G ->
               strs !! i = Some match name G with
                                | Attr (Some n) => n
                                | _ => NamedGroup.placeholder i
                                end)
    /\ (Exists (fun G => name G = Attr None) objs ->
        NamedGroup.direct_product groups s = (Raise TypeError, s' ++ [P])).
Proof.
  intros Hobjs Htot.
  destruct (identity_labels_ok objs Htot) as [ids Hids].
  pose proof (direct_product_run CNamedGroup s groups objs ids Hobjs Hids)
    as Hrun.
  set (s' := cache_all groups ids s) in *.
  set (P := product_object CNamedGroup objs ids) in *.
  assert (Hlen : length s' = length s) by apply cache_all_length.
  assert (HP : (s' ++ [P]) !! length s = Some P).
  { by apply list_lookup_middle. }
  destruct (factors_after_product s s' P groups objs Hlen) as
    (objs' & Hobjs' & Hnames); [|done|].
  { intros h H Hh.
    destruct (cache_all_frame groups ids s h H Hh) as (H' & ? & _ & _ & ? & _).
    by exists H'. }
  pose proof (getattr_names_same objs objs' Hnames 0) as Hsame.
  cbn [Nat.add] in Hsame.
  assert (Hstep : NamedGroup.direct_product groups s
                  = (name <- lift (NamedGroup.join " × "
                               (imap (fun i G => NamedGroup.getattr_name G i)
                                     objs)) ;;
                     R <- deref (length s) ;;
                     NamedGroup.__init__ (element_values R) (_operation R)
                       (_identity_value R) (Some name)) (s' ++ [P])).
  { unfold NamedGroup.direct_product.
    rewrite (bind_ok _ _ _ _ _ Hrun).
    rewrite (bind_ok _ _ _ _ _ (map_m_deref _ groups objs' Hobjs')).
    by rewrite Hsame. }
  exists s', P. split_and!; [done..| |].
  - intros Hnamed.
    destruct (all_str_names objs 0 Hnamed) as (strs & E & Hl & Hn).
    cbn [Nat.add] in E. exists strs. split_and!; [|done|exact Hn].
    rewrite Hstep. unfold NamedGroup.join. rewrite E. cbn [res_bind].
    rewrite bind_lift, (bind_deref _ _ _ _ HP).
    unfold NamedGroup.__init__, new_object.
    rewrite length_app, Hlen, <- app_assoc. simpl.
    by rewrite Nat.add_1_r.
  - intros Hnone. rewrite Hstep.
    pose proof (getattr_names_None objs 0 Hnone) as Hin.
    cbn [Nat.add] in Hin.
    by rewrite (join_None _ _ Hin).
Qed.

Lemma named_direct_product_of_groups_witness :
  exists s' P,
    Group.direct_product CNamedGroup [0; 1]%nat
      [named_cyclic 2 None; cyclic 3 VNone] = (Ok 2%nat, s' ++ [P])
    /\ NamedGroup.direct_product [0; 1]%nat
         [named_cyclic 2 None; cyclic 3 VNone]
       = (Raise TypeError, s' ++ [P]).
Proof.
  assert (Hobjs : Forall2 (fun g G => [named_cyclic 2 None; cyclic 3 VNone]
                                        !! g = Some G)
                    [0; 1]%nat [named_cyclic 2 None; cyclic 3 VNone]).
  { repeat constructor. }
  assert (Htot : Forall
                   (fun G => total_on (_operation G) (element_values G))
                   [named_cyclic 2 None; cyclic 3 VNone]).
  { repeat constructor; apply total_onb_sound; vm_compute; reflexivity. }
  assert (Hnone : Exists (fun G => name G = Attr None)
                    [named_cyclic 2 None; cyclic 3 VNone]).
  { apply Exists_cons_hd. reflexivity. }
  destruct (named_direct_product_of_groups _ _ _ Hobjs Htot)
    as (s' & P & Hrun & _ & _ & Hraise).
  exists s', P. split; [exact Hrun | exact (Hraise Hnone)].
Defined.

(** ** The semidirect product by the trivial action *)

Lemma cartesian_product_single l :
  Group.cartesian_product [l] = map (fun h => [h]) l.
Proof. induction l as [|h l IH]; [done|]. cbn in *. by rewrite IH. Qed.

Lemma semidirect_elements_product l1 l2 :
  semidirect_elements l1 l2
  = map VTuple (Group.cartesian_product [l1; l2]).
Proof.
  unfold semidirect_elements.
  change (Group.cartesian_product [l1; l2])
    with (flat_map (fun item => map (cons item)
                                    (Group.cartesian_product [l2])) l1).
  rewrite cartesian_product_single.
  induction l1 as [|n l1 IH]; [done|].
  cbn [flat_map]. rewrite map_app, <- IH. f_equal.
  by rewrite !List.map_map.
Qed.

Lemma semidirect_trivial_operation opN opH n1 h1 n2 h2 :
  Group.semidirect_product_operation opN opH trivial_action
    (VTuple [n1; h1]) (VTuple [n2; h2])
  = Group.direct_product_operation [opN; opH]
      (VTuple [n1; h1]) (VTuple [n2; h2]).
Proof. by rewrite direct_product_operation_pair. Qed.

Lemma trivial_action_acts elsN opN elsH opH eH :
  acts_by_automorphisms elsN opN elsH opH eH trivial_action.
Proof. split_and!; [intros h n _ Hn; by exists n | done..]. Qed.

(** X16: with the action [lambda h, n: n], [semidirect_product(N, H, .)]
    lists the same labels as [direct_product(N, H)], in the same order,
    and its operation agrees with the direct product's on them.  Still,
    for well-formed factors, the two products compare unequal when they
    have just been built, because only the direct product has its
    identity set; once [identity()] has run on the semidirect product
    they compare equal. *)
Theorem semidirect_trivial_action s N H GN GH :
  s !! N = Some GN -> s !! H = Some GH ->
  well_formed GN -> well_formed GH ->
  exists s1 D T,
    (d <- Group.direct_product CGroup [N; H] ;;
     sd <- Group.semidirect_product CGroup N H trivial_action ;;
     ret (d, sd)) s
    = (Ok (length s, S (length s)), s1 ++ [D; T])
    /\ length s1 = length s
    /\ element_values T = element_values D
    /\ (forall a b, a ∈ element_values D -> b ∈ element_values D ->
          _operation T a b = _operation D a b)
    /\ py_eq (OGroup (length s)) (OGroup (S (length s))) (s1 ++ [D; T])
       = (Ok false, s1 ++ [D; T])
    /\ (_ <- Group.identity (S (length s)) ;;
        py_eq (OGroup (length s)) (OGroup (S (length s))))
         (s1 ++ [D; T])
       = (Ok true, s1 ++ [D; set_identity_value T (_identity_value D)]).
Proof.
  intros HN HH HwN HwH.
  assert (Hobjs : Forall2 (fun g G => s !! g = Some G) [N; H] [GN; GH]).
  { by repeat constructor. }
  destruct (well_formed_factors [GN; GH]) as (es & Hes & Hls).
  { apply List.Forall_cons; [done|]. apply List.Forall_cons; [done|].
    apply List.Forall_nil. }
  inversion Hes as [|? eN ? es' HgN Hes']; subst.
  inversion Hes' as [|? eH ? es'' HgH Hes'']; subst.
  inversion Hes''; subst. clear Hes' Hes''.
  pose proof (direct_product_run CGroup s _ _ _ Hobjs Hls) as Hrun.
  set (s1 := cache_all [N; H] [eN; eH] s) in *.
  set (D := product_object CGroup [GN; GH] [eN; eH]) in *.
  assert (Hlen : length s1 = length s) by apply cache_all_length.
  destruct (cache_all_frame [N; H] [eN; eH] s N GN HN)
    as (GN' & HN' & HelsN & HopN & _).
  destruct (cache_all_frame [N; H] [eN; eH] s H GH HH)
    as (GH' & HH' & HelsH & HopH & _).
  fold s1 in HN', HH'.
  set (Sd := mkGroupObj
               (semidirect_elements (element_values GN) (element_values GH))
               (Group.semidirect_product_operation
                  (_operation GN) (_operation GH) trivial_action)
               VNone NoAttr).
  assert (Hels : element_values Sd = element_values D).
  { apply semidirect_elements_product. }
  assert (HgD : is_group (element_values D) (_operation D)
                  (VTuple [eN; eH])).
  { apply (product_is_group [GN; GH] [eN; eH] Hes). }
  assert (HgS : is_group (element_values Sd) (_operation Sd)
                  (VTuple [eN; eH])).
  { apply (semidirect_is_group _ _ _ _ _ _ _ HgN HgH).
    apply trivial_action_acts. }
  assert (Hagree : forall a b,
             a ∈ element_values D -> b ∈ element_values D ->
             _operation Sd a b = _operation D a b).
  { intros a b (x1 & y1 & -> & _)%elem_of_product_pairs
      (x2 & y2 & -> & _)%elem_of_product_pairs.
    apply semidirect_trivial_operation. }
  assert (HD : forall X, (s1 ++ [D; X]) !! length s = Some D).
  { intros X. rewrite <- Hlen. by apply list_lookup_middle. }
  assert (HS : forall X, (s1 ++ [D; X]) !! S (length s) = Some X).
  { intros X. rewrite lookup_app_r by lia.
    by replace (S (length s) - length s1)%nat with 1%nat by lia. }
  exists s1, D, Sd. split_and!.
  - rewrite (bind_ok _ _ _ _ _ Hrun).
    assert (Hsd : Group.semidirect_product CGroup N H trivial_action
                    (s1 ++ [D])
                  = (Ok (S (length s)), s1 ++ [D; Sd])).
    { unfold Group.semidirect_product.
      rewrite (bind_deref _ _ (s1 ++ [D]) GN'),
        (bind_deref _ _ (s1 ++ [D]) GH').
      - unfold Group.__init__, new_object.
        rewrite HelsN, HelsH, HopN, HopH, length_app, Hlen, <- app_assoc.
        simpl. by rewrite Nat.add_1_r.
      - rewrite lookup_app_l; [done|]. by eapply lookup_lt_Some.
      - rewrite lookup_app_l; [done|]. by eapply lookup_lt_Some. }
    by rewrite (bind_ok _ _ _ _ _ Hsd).
  - done.
  - done.
  - done.
  - rewrite (group_eq_run _ _ _ D Sd (HD Sd) (HS Sd)).
    unfold groups_equal_r, group_eq_r.
    cbn [class_of name proper_subclass _identity_value D Sd product_object
         value_eqb negb].
    by rewrite orb_true_r.
  - assert (Hcache : store_cache (S (length s)) (VTuple [eN; eH])
                       (s1 ++ [D; Sd])
                     = s1 ++ [D; set_identity_value Sd (VTuple [eN; eH])]).
    { unfold store_cache. rewrite (HS Sd).
      replace (S (length s)) with (length s1 + 1)%nat by lia.
      by rewrite insert_app_r. }
    rewrite (bind_ok _ _ _ (mkGroupElement (VTuple [eN; eH]) (S (length s)))
               (s1 ++ [D; set_identity_value Sd (VTuple [eN; eH])])).
    + apply (group_eq_true _ _ _ D _ (HD _) (HS _)). split_and!.
      * intros x. cbn [element_values set_identity_value]. by rewrite Hels.
      * done.
      * intros a b Ha Hb.
        destruct (proj1 HgD a b Ha Hb) as (c & Hc & _).
        exists c. split; [done|].
        cbn [_operation set_identity_value]. by rewrite (Hagree a b Ha Hb).
    + rewrite <- Hcache.
      apply (identity_wf (S (length s)) _ _ _ NoAttr HgS).
      exists VNone. split; [by left|]. apply HS.
Qed.

Lemma semidirect_trivial_action_witness :
  exists s1 D T,
    (d <- Group.direct_product CGroup [0; 1]%nat ;;
     sd <- Group.semidirect_product CGroup 0%nat 1%nat trivial_action ;;
     ret (d, sd)) [cyclic 4 VNone; cyclic 2 VNone]
    = (Ok (2%nat, 3%nat), s1 ++ [D; T])
    /\ py_eq (OGroup 2%nat) (OGroup 3%nat) (s1 ++ [D; T])
       = (Ok false, s1 ++ [D; T]).
Proof.
  assert (HwN : well_formed (cyclic 4 VNone)).
  { apply well_formedb_sound. vm_compute. reflexivity. }
  assert (HwH : well_formed (cyclic 2 VNone)).
  { apply well_formedb_sound. vm_compute. reflexivity. }
  destruct (semidirect_trivial_action [cyclic 4 VNone; cyclic 2 VNone]
              0%nat 1%nat _ _ eq_refl eq_refl HwN HwH)
    as (s1 & D & T & Hrun & _ & _ & _ & Hne & _).
  exists s1, D, T. split; [exact Hrun | exact Hne].
Defined.

(** ** Orders and exponents *)

Section order_algebra.
Variables (els : list value) (op : operation_t) (e : value).
Hypothesis Hgrp : is_group els op e.

#[local] Abbreviation zpw := (gzpow els op e).
#[local] Abbreviation ord := (element_order els op e).

Lemma zpow_order a : a ∈ els -> zpw a (Z.of_nat (ord a)) = e.
Proof.
  intros Ha.
  rewrite (zpow_nonneg _ _ e a _ (Nat2Z.is_nonneg _)), Nat2Z.id.
  apply (element_order_spec _ _ e Hgrp a Ha).
Qed.

Lemma zpow_order_nat a (q : nat) :
  a ∈ els -> zpw a (Z.of_nat (ord a) * Z.of_nat q) = e.
Proof.
  intros Ha. induction q as [|q IH].
  - rewrite Z.mul_0_r. apply zpow_0.
  - replace (Z.of_nat (ord a) * Z.of_nat (S q))%Z
      with (Z.of_nat (ord a) * Z.of_nat q + Z.of_nat (ord a))%Z by lia.
    rewrite (zpow_add _ _ e Hgrp a _ _ Ha), IH, (zpow_order a Ha).
    apply (mul_e_l _ _ e Hgrp), (e_in _ _ e Hgrp).
Qed.

Lemma zpow_order_mul a q :
  a ∈ els -> zpw a (Z.of_nat (ord a) * q) = e.
Proof.
  intros Ha. destruct (Z.le_gt_cases 0 q) as [Hq|Hq].
  - rewrite <- (Z2Nat.id q Hq). by apply zpow_order_nat.
  - pose proof (zpow_add _ _ e Hgrp a (Z.of_nat (ord a) * q)
                  (Z.of_nat (ord a) * Z.of_nat (Z.to_nat (- q))) Ha) as E.
    rewrite (zpow_order_nat a _ Ha) in E.
    replace (Z.of_nat (ord a) * q
             + Z.of_nat (ord a) * Z.of_nat (Z.to_nat (- q)))%Z
      with 0%Z in E by lia.
    rewrite zpow_0 in E.
    rewrite (mul_e_r _ _ e Hgrp) in E by by apply (zpow_in _ _ e Hgrp).
    done.
Qed.

Lemma zpow_mod a n :
  a ∈ els -> zpw a n = zpw a (n mod Z.of_nat (ord a)).
Proof.
  intros Ha.
  rewrite (Z.div_mod n (Z.of_nat (ord a))) at 1
    by (pose proof (element_order_spec _ _ e Hgrp a Ha); lia).
  rewrite (zpow_add _ _ e Hgrp a _ _ Ha), (zpow_order_mul a _ Ha).
  apply (mul_e_l _ _ e Hgrp). by apply (zpow_in _ _ e Hgrp).
Qed.

Lemma zpow_identity_iff a n :
  a ∈ els -> zpw a n = e <-> (Z.of_nat (ord a) | n)%Z.
Proof.
  intros Ha.
  destruct (element_order_spec _ _ e Hgrp a Ha) as (Hrange & _ & Hmin).
  split.
  - intros E. rewrite (zpow_mod a n Ha) in E.
    apply Z.mod_divide; [lia|].
    pose proof (Z.mod_pos_bound n (Z.of_nat (ord a)) ltac:(lia)) as Hr.
    destruct (decide (n mod Z.of_nat (ord a) = 0)%Z) as [|Hne]; [done|].
    rewrite (zpow_nonneg _ _ e a _ (proj1 Hr)) in E.
    destruct (Hmin (Z.to_nat (n mod Z.of_nat (ord a))) ltac:(lia) E).
  - intros [q ->]. rewrite Z.mul_comm. by apply zpow_order_mul.
Qed.

Lemma zpow_ginv a n :
  a ∈ els -> zpw (ginv els op e a) n = zpw a (- n).
Proof.
  intros Ha. pose proof (ginv_in _ _ e Hgrp a Ha) as Hia.
  destruct (Z.le_gt_cases 0 n) as [Hn|Hn].
  - rewrite (zpow_nonneg _ _ e _ n Hn).
    rewrite (zpow_nonpos _ _ e a (- n)) by lia.
    by rewrite Z.opp_involutive.
  - rewrite (zpow_nonpos _ _ e _ n) by lia.
    rewrite (ginv_ginv _ _ e Hgrp a Ha).
    by rewrite (zpow_nonneg _ _ e a (- n)) by lia.
Qed.

Lemma element_order_ginv a : a ∈ els -> ord (ginv els op e a) = ord a.
Proof.
  intros Ha. pose proof (ginv_in _ _ e Hgrp a Ha) as Hia.
  pose proof (element_order_spec _ _ e Hgrp a Ha) as (Hr1 & _).
  pose proof (element_order_spec _ _ e Hgrp _ Hia) as (Hr2 & _).
  assert (H1 : (Z.of_nat (ord a) | Z.of_nat (ord (ginv els op e a)))%Z).
  { apply (zpow_identity_iff a _ Ha).
    rewrite <- (Z.opp_involutive (Z.of_nat (ord (ginv els op e a)))).
    rewrite <- (zpow_ginv a _ Ha).
    apply (zpow_identity_iff _ _ Hia). apply Z.divide_opp_r.
    apply Z.divide_refl. }
  assert (H2 : (Z.of_nat (ord (ginv els op e a)) | Z.of_nat (ord a))%Z).
  { apply (zpow_identity_iff _ _ Hia). rewrite (zpow_ginv a _ Ha).
    apply (zpow_identity_iff a _ Ha). apply Z.divide_opp_r.
    apply Z.divide_refl. }
  apply Z.divide_pos_le in H1; [|lia]. apply Z.divide_pos_le in H2; lia.
Qed.

End order_algebra.

Lemma power_is_identity_any g els op e nm (Hgrp : is_group els op e) s a n :
  holds g els op e nm s -> a ∈ els ->
  fst (power_is_identity (mkGroupElement a g) n s)
  = Ok (value_eqb (gzpow els op e a n) e).
Proof.
  intros H Ha. unfold power_is_identity. cbn [group].
  destruct (pow_run g els op e nm Hgrp s a n H Ha) as (s1 & H1 & E1).
  rewrite (bind_ok _ _ _ _ _ E1).
  destruct (identity_run_wf g els op e nm Hgrp s1 H1) as (s2 & H2 & E2).
  rewrite (bind_ok _ _ _ _ _ E2).
  by rewrite py_eq_elements, (eq_wf g _ _ e _ Hgrp _ _ _ H2).
Qed.

(** X17: in a well-formed group, [a ** n == identity] exactly when the
    number that [a.order()] returns divides [n], for every integer [n],
    negative ones included. *)
Theorem power_is_identity_iff_order_divides s g G a :
  s !! g = Some G -> well_formed G -> a ∈ element_values G ->
  exists k : nat,
    (forall fuel, (k <= fuel)%nat ->
       fst (GroupElement.order fuel (mkGroupElement a g) s)
       = Ok (Some (Z.of_nat k)))
    /\ forall n : Z,
         exists b,
           fst (power_is_identity (mkGroupElement a g) n s) = Ok b
           /\ (b = true <-> (Z.of_nat k | n)%Z).
Proof.
  intros Hg Hwf Ha.
  destruct (well_formed_holds s g G Hg Hwf) as (e & Hgrp & H).
  exists (element_order (element_values G) (_operation G) e a). split.
  - intros fuel Hfuel.
    by rewrite (order_wf g _ _ e _ Hgrp s a fuel H Ha Hfuel).
  - intros n. eexists. split.
    + apply (power_is_identity_any g _ _ e _ Hgrp s a n H Ha).
    + rewrite value_eqb_eq. by apply zpow_identity_iff.
Qed.

Lemma power_is_identity_iff_order_divides_witness :
  exists k : nat,
    (forall fuel, (k <= fuel)%nat ->
       fst (GroupElement.order fuel (mkGroupElement (VInt 3) 0)
              [cyclic 4 VNone])
       = Ok (Some (Z.of_nat k)))
    /\ forall n : Z,
         exists b,
           fst (power_is_identity (mkGroupElement (VInt 3) 0) n
                  [cyclic 4 VNone]) = Ok b
           /\ (b = true <-> (Z.of_nat k | n)%Z).
Proof.
  apply (power_is_identity_iff_order_divides [cyclic 4 VNone] 0%nat
           (cyclic 4 VNone) (VInt 3) eq_refl).
  - apply well_formedb_sound. vm_compute. reflexivity.
  - apply existsb_value_eqb. vm_compute. reflexivity.
Defined.

(** X18: in a well-formed group an element and its inverse have the same
    order: [a.inverse().order()] returns what [a.order()] returns. *)
Theorem order_of_inverse s g G a :
  s !! g = Some G -> well_formed G -> a ∈ element_values G ->
  exists k : nat,
    (1 <= k <= length (element_values G))%nat
    /\ forall fuel, (k <= fuel)%nat ->
         fst (GroupElement.order fuel (mkGroupElement a g) s)
         = Ok (Some (Z.of_nat k))
         /\ fst ((y <- GroupElement.inverse (mkGroupElement a g) ;;
                  GroupElement.order fuel y) s)
            = Ok (Some (Z.of_nat k)).
Proof.
  intros Hg Hwf Ha.
  destruct (well_formed_holds s g G Hg Hwf) as (e & Hgrp & H).
  pose proof (holds_cache _ _ _ _ _ s H) as H1.
  pose proof (ginv_in _ _ e Hgrp a Ha) as Hia.
  exists (element_order (element_values G) (_operation G) e a). split.
  - apply (element_order_spec _ _ e Hgrp a Ha).
  - intros fuel Hfuel. split.
    + by rewrite (order_wf g _ _ e _ Hgrp s a fuel H Ha Hfuel).
    + unfold GroupElement.inverse. cbn [group element].
      rewrite (bind_ok _ _ _ _ _ (inverse_wf g _ _ e _ Hgrp s a H Ha)).
      rewrite (order_wf g _ _ e _ Hgrp _ _ fuel H1 Hia)
        by by rewrite (element_order_ginv _ _ e Hgrp a Ha).
      by rewrite (element_order_ginv _ _ e Hgrp a Ha).
Qed.

Lemma order_of_inverse_witness :
  exists k : nat,
    (1 <= k <= length (element_values (cyclic 4 VNone)))%nat
    /\ forall fuel, (k <= fuel)%nat ->
         fst (GroupElement.order fuel (mkGroupElement (VInt 1) 0)
                [cyclic 4 VNone])
         = Ok (Some (Z.of_nat k))
         /\ fst ((y <- GroupElement.inverse (mkGroupElement (VInt 1) 0) ;;
                  GroupElement.order fuel y) [cyclic 4 VNone])
            = Ok (Some (Z.of_nat k)).
Proof.
  apply (order_of_inverse [cyclic 4 VNone] 0%nat (cyclic 4 VNone) (VInt 1)
           eq_refl).
  - apply well_formedb_sound. vm_compute. reflexivity.
  - apply existsb_value_eqb. vm_compute. reflexivity.
Defined.
